(** * validate_drp: photometric and astrometric repeatability statistics

    A shallow embedding of [python/lsst/validate/drp/calcSrd.py] and of
    the functions of [python/lsst/validate/drp/util.py] that read no
    file, together with the properties of these functions that the
    specification states and further properties of the code.

    Numbers.  The Python code computes on IEEE binary64 values through
    numpy.  The embedding keeps the special values the code tests for
    (NaN and the two infinities, see [np_isfinite]) and takes the finite
    values to be real numbers: arithmetic on finite values is exact, so
    rounding, overflow and the sign of zero are outside the model. *)

From Stdlib Require Import Reals Lra Lia List Bool Arith ZArith Permutation.
From Stdlib Require Import Sorted.
From stdpp Require gmap strings pretty.
Import ListNotations.

(** ** Floating-point values and the numpy primitives the code calls *)

Module Float.

Local Open Scope R_scope.

Inductive float : Type :=
| Fin (x : R)
| Inf (negative : bool)
| NaN.

Definition np_isfinite (a : float) : bool :=
  match a with Fin _ => true | _ => false end.

Definition np_isnan (a : float) : bool :=
  match a with NaN => true | _ => false end.

Definition Rsign_lt0 (x : R) : bool := if Rlt_dec x 0 then true else false.
Definition Req0 (x : R) : bool := if Req_dec_T x 0 then true else false.

Definition fopp (a : float) : float :=
  match a with
  | Fin x => Fin (- x)
  | Inf s => Inf (negb s)
  | NaN => NaN
  end.

Definition fadd (a b : float) : float :=
  match a, b with
  | NaN, _ | _, NaN => NaN
  | Fin x, Fin y => Fin (x + y)
  | Fin _, Inf s | Inf s, Fin _ => Inf s
  | Inf s, Inf t => if Bool.eqb s t then Inf s else NaN
  end.

Definition fsub (a b : float) : float := fadd a (fopp b).

Definition fmul (a b : float) : float :=
  match a, b with
  | NaN, _ | _, NaN => NaN
  | Fin x, Fin y => Fin (x * y)
  | Fin x, Inf s | Inf s, Fin x =>
      if Req0 x then NaN else Inf (xorb s (Rsign_lt0 x))
  | Inf s, Inf t => Inf (xorb s t)
  end.

(** Division; a zero divisor counts as +0. *)
Definition fdiv (a b : float) : float :=
  match a, b with
  | NaN, _ | _, NaN => NaN
  | Fin x, Fin y =>
      if Req0 y then (if Req0 x then NaN else Inf (Rsign_lt0 x))
      else Fin (x / y)
  | Fin _, Inf _ => Fin 0
  | Inf s, Fin y => Inf (xorb s (Rsign_lt0 y))
  | Inf _, Inf _ => NaN
  end.

Definition fabs (a : float) : float :=
  match a with
  | Fin x => Fin (Rabs x)
  | Inf _ => Inf false
  | NaN => NaN
  end.

Definition fsqrt (a : float) : float :=
  match a with
  | Fin x => if Rsign_lt0 x then NaN else Fin (sqrt x)
  | Inf false => Inf false
  | Inf true => NaN
  | NaN => NaN
  end.

Definition fsquare (a : float) : float := fmul a a.

Definition fsin (a : float) : float :=
  match a with Fin x => Fin (sin x) | _ => NaN end.

Definition fcos (a : float) : float :=
  match a with Fin x => Fin (cos x) | _ => NaN end.

Definition farcsin (a : float) : float :=
  match a with
  | Fin x =>
      if Rle_dec (-1) x then (if Rle_dec x 1 then Fin (asin x) else NaN)
      else NaN
  | _ => NaN
  end.

(** Comparisons: every comparison with NaN is false. *)
Definition fle (a b : float) : bool :=
  match a, b with
  | NaN, _ | _, NaN => false
  | Fin x, Fin y => if Rle_dec x y then true else false
  | Inf true, _ => true
  | _, Inf false => true
  | Inf false, _ => false
  | _, Inf true => false
  end.

Definition flt (a b : float) : bool :=
  match a, b with
  | NaN, _ | _, NaN => false
  | Fin x, Fin y => if Rlt_dec x y then true else false
  | Inf true, Inf true => false
  | Inf true, _ => true
  | Inf false, _ => false
  | Fin _, Inf s => negb s
  end.

Definition of_nat (n : nat) : float := Fin (INR n).
Definition of_Z (z : Z) : float := Fin (IZR z).

Definition fsum (l : list float) : float := fold_left fadd l (Fin 0).

(** [np.mean]: the sum over the element count; 0/0 on an empty array. *)
Definition np_mean (l : list float) : float := fdiv (fsum l) (of_nat (length l)).

(** [np.std] with its default [ddof=0]. *)
Definition np_std (l : list float) : float :=
  let m := np_mean l in
  fsqrt (np_mean (map (fun x => fsquare (fabs (fsub x m))) l)).

(** [np.deg2rad] and [np.rad2deg]. *)
Definition np_deg2rad (a : float) : float := fmul a (Fin (PI / 180)).
Definition np_rad2deg (a : float) : float := fmul a (Fin (180 / PI)).

End Float.

(** ** Python exceptions and array indexing *)

Module Py.

Inductive exn : Type := IndexError | ValueError | AssertionError.

Inductive result (A : Type) : Type :=
| Ok (a : A)
| Raise (e : exn).

Arguments Ok {A} a.
Arguments Raise {A} e.

Definition bind {A B} (r : result A) (k : A -> result B) : result B :=
  match r with
  | Ok a => k a
  | Raise e => Raise e
  end.

Declare Scope py_scope.
Delimit Scope py_scope with py.
Notation "x <- r ;; k" := (bind r (fun x => k))
  (at level 61, r at next level, right associativity) : py_scope.

(** [l[i]] for a non-negative index. *)
Definition getitem {A} (l : list A) (i : nat) : result A :=
  match nth_error l i with
  | Some a => Ok a
  | None => Raise IndexError
  end.

(** [for x in xs: s = body(x, s)], stopping at the first exception. *)
Fixpoint for_ {S} (xs : list nat) (body : nat -> S -> result S) (s : S)
  : result S :=
  match xs with
  | [] => Ok s
  | x :: xs' =>
      match body x s with
      | Ok s' => for_ xs' body s'
      | Raise e => Raise e
      end
  end.

(** [range(n)]. *)
Definition range (n : nat) : list nat := seq 0 n.

(** [l[i] = x] on a list that has index [i]. *)
Fixpoint setitem {A} (l : list A) (i : nat) (x : A) : list A :=
  match l, i with
  | [], _ => []
  | _ :: l', O => x :: l'
  | a :: l', S i' => a :: setitem l' i' x
  end.

End Py.

(** ** numpy array routines used by calcSrd.py *)

Module NumPy.
Import Float Py.
Local Open Scope R_scope.
Local Open Scope py_scope.

(** [np.sort] on an array without NaN. *)
Fixpoint insert_sorted (x : float) (l : list float) : list float :=
  match l with
  | [] => [x]
  | y :: l' => if fle x y then x :: l else y :: insert_sorted x l'
  end.

Fixpoint np_sort (l : list float) : list float :=
  match l with
  | [] => []
  | x :: l' => insert_sorted x (np_sort l')
  end.

(** [np.where(mask)]: the indices at which the mask holds. *)
Fixpoint where_from (i : nat) (mask : list bool) : list nat :=
  match mask with
  | [] => []
  | b :: mask' =>
      if b then i :: where_from (S i) mask' else where_from (S i) mask'
  end.

Definition np_where (mask : list bool) : list nat := where_from 0 mask.

(** [a[w]] for an index array [w] produced by [np_where] on [a]. *)
Definition take (a : list float) (w : list nat) : list float :=
  map (fun i => nth i a NaN) w.

(** [np.median]: NaN as soon as one element is NaN; otherwise the mean of
    the middle element, or of the two middle elements, of the sorted
    array.  The slice is empty for an empty array. *)
Definition np_median (a : list float) : float :=
  if existsb np_isnan a then NaN
  else
    let part := np_sort a in
    let sz := length part in
    let index := (sz / 2)%nat in
    if Nat.even sz
    then np_mean (firstn 2 (skipn (index - 1) part))
    else np_mean (firstn 1 (skipn index part)).

(** [np.percentile(a, q)] for one percentage [q], default method
    (linear interpolation between the two nearest ranks).  The position
    [q/100 * (Nx - 1)] is kept as the integer [q * (Nx - 1)] over 100,
    whose quotient is the rank below and whose remainder is the weight
    of the rank above.  An empty array has no rank to take: IndexError. *)
Definition np_percentile1 (a : list float) (q : nat) : result float :=
  match a with
  | [] => Raise IndexError
  | _ :: _ =>
      if existsb np_isnan a then Ok NaN
      else
        let ap := np_sort a in
        let Nx := length ap in
        let indices := (q * (Nx - 1))%nat in
        let indices_below := (indices / 100)%nat in
        let indices_above := Nat.min (indices_below + 1) (Nx - 1) in
        let weights_above := Fin (INR (indices mod 100) / 100) in
        let weights_below := fsub (Fin 1) weights_above in
        x1 <- getitem ap indices_below ;;
        x2 <- getitem ap indices_above ;;
        Ok (fadd (fmul x1 weights_below) (fmul x2 weights_above))
  end.

(** [np.percentile(a, [q1, q2, ...])]. *)
Fixpoint np_percentile (a : list float) (qs : list nat)
  : result (list float) :=
  match qs with
  | [] => Ok []
  | q :: qs' =>
      p <- np_percentile1 a q ;;
      ps <- np_percentile a qs' ;;
      Ok (p :: ps)
  end.

(** [math.sqrt]: ValueError on a negative argument. *)
Definition math_sqrt (a : float) : result float :=
  match a with
  | Fin x => if Rsign_lt0 x then Raise ValueError else Ok (Fin (sqrt x))
  | Inf true => Raise ValueError
  | Inf false => Ok (Inf false)
  | NaN => Ok NaN
  end.

(** The state of [np.random]: the stream of raw draws still to come. *)
Definition RandomState : Type := nat -> nat.

(** A draw in [0, max] and the advanced state. *)
Definition random_interval (max : nat) (st : RandomState)
  : nat * RandomState :=
  (st 0%nat mod (S max), fun k => st (S k)).

(** [x[i], x[j] = x[j], x[i]] for two indices of [x]. *)
Definition swap {A} (x : list A) (i j : nat) : list A :=
  match nth_error x i, nth_error x j with
  | Some a, Some b => setitem (setitem x i b) j a
  | _, _ => x
  end.

(** [np.random.shuffle]: for [i = n-1] down to [1], swap [x[i]] with
    [x[j]] for a draw [j] in [0, i]. *)
Fixpoint shuffle_from {A} (i : nat) (x : list A) (st : RandomState)
  : list A * RandomState :=
  match i with
  | O => (x, st)
  | S i' =>
      let (j, st') := random_interval i st in
      shuffle_from i' (swap x i j) st'
  end.

Definition np_random_shuffle {A} (x : list A) (st : RandomState)
  : list A * RandomState :=
  shuffle_from (length x - 1) x st.

End NumPy.

(** ** calcSrd.py *)

Module CalcSrd.
Import Float Py NumPy.
Local Open Scope R_scope.
Local Open Scope py_scope.

(** One row of the matched catalog, with the fields [calcAMx] reads. *)
Record SourceRecord : Type := {
  id : Z;
  coord_ra : float;
  coord_dec : float;
  object : Z;
  visit : Z;
  base_PsfFlux_mag : float
}.

(** A group is the catalog of one object; a [GroupView] is the sequence
    of its groups. *)
Definition Catalog : Type := list SourceRecord.
Definition GroupView : Type := list Catalog.

(** [cat.get(key)]: the column of a field. *)
Definition get {A} (key : SourceRecord -> A) (cat : Catalog) : list A :=
  map key cat.

(** [groupView.where(predicate)]. *)
Definition where_ (predicate : Catalog -> bool) (groupView : GroupView)
  : GroupView :=
  List.filter predicate groupView.

(** [groupView.aggregate(function)] for a function that may raise. *)
Fixpoint aggregate {A} (function : Catalog -> result A)
  (groupView : GroupView) : result (list A) :=
  match groupView with
  | [] => Ok []
  | cat :: rest =>
      x <- function cat ;;
      xs <- aggregate function rest ;;
      Ok (x :: xs)
  end.

(** [groupView.aggregate(function, field=key)] for a function that draws
    from [np.random]. *)
Fixpoint aggregate_random (function : list float -> RandomState ->
                                      result float * RandomState)
  (key : SourceRecord -> float) (groupView : GroupView) (st : RandomState)
  : result (list float) * RandomState :=
  match groupView with
  | [] => (Ok [], st)
  | cat :: rest =>
      match function (get key cat) st with
      | (Ok x, st') =>
          match aggregate_random function key rest st' with
          | (Ok xs, st'') => (Ok (x :: xs), st'')
          | (Raise e, st'') => (Raise e, st'')
          end
      | (Raise e, st') => (Raise e, st')
      end
  end.

(** *** getRandomDiff, getRandomDiffRmsInMas *)

Definition getRandomDiff (array : list float) (st : RandomState)
  : result float * RandomState :=
  let (copy, st') := np_random_shuffle array st in
  (c0 <- getitem copy 0 ;; c1 <- getitem copy 1 ;; Ok (fsub c0 c1), st').

Definition getRandomDiffRmsInMas (array : list float) (st : RandomState)
  : result float * RandomState :=
  match math_sqrt (Fin 2) with
  | Ok s =>
      let (r, st') := getRandomDiff array st in
      (d <- r ;; Ok (fmul (fdiv (Fin 1000) s) d), st')
  | Raise e => (Raise e, st)
  end.

(** *** computeWidths, calcPA1, calcPA2 *)

(** [np.subtract.reduce]. *)
Definition np_subtract_reduce (l : list float) : result float :=
  match l with
  | [] => Raise ValueError
  | x :: rest => Ok (fold_left fsub rest x)
  end.

Section Widths.

(** [scipy.stats.norm.ppf], the inverse of the standard normal
    distribution function. *)
Variable norm_ppf : float -> float.

Definition computeWidths (array : list float) : result (float * float) :=
  rmsSigma <- math_sqrt (np_mean (map (fun x => fsquare x) array)) ;;
  ps <- np_percentile array [75; 25]%nat ;;
  d <- np_subtract_reduce ps ;;
  let iqrSigma := fdiv d (fmul (norm_ppf (Fin (3 / 4))) (Fin 2)) in
  Ok (rmsSigma, iqrSigma).

Record PA1Struct : Type := {
  pa1_rms : float;
  pa1_iqr : float;
  pa1_diffs : list float;
  pa1_means : list float
}.

Definition calcPA1 (groupView : GroupView) (magKey : SourceRecord -> float)
  (st : RandomState) : result PA1Struct * RandomState :=
  match aggregate_random getRandomDiffRmsInMas magKey groupView st with
  | (Ok diffs, st') =>
      let means := map (fun cat => np_mean (get magKey cat)) groupView in
      (w <- computeWidths diffs ;;
       Ok {| pa1_rms := fst w; pa1_iqr := snd w;
             pa1_diffs := diffs; pa1_means := means |}, st')
  | (Raise e, st') => (Raise e, st')
  end.

End Widths.

(** The outlier percentages [PF1] of the three levels. *)
Record PF1Dict : Type := {
  PF1_minimum : nat;
  PF1_design : nat;
  PF1_stretch : nat
}.

Record PA2Struct : Type := {
  design : float;
  minimum : float;
  stretch : float;
  PF1 : PF1Dict
}.

Definition calcPA2 (groupView : GroupView) (magKey : SourceRecord -> float)
  (st : RandomState) : result PA2Struct * RandomState :=
  match aggregate_random getRandomDiffRmsInMas magKey groupView st with
  | (Ok diffs, st') =>
      let PF1 := {| PF1_minimum := 20; PF1_design := 10; PF1_stretch := 5 |} in
      let PF1_percentiles :=
        map (fun p => (100 - p)%nat)
            [PF1_minimum PF1; PF1_design PF1; PF1_stretch PF1] in
      (ps <- np_percentile (map fabs diffs) PF1_percentiles ;;
       match ps with
       | [minPA2; designPA2; stretchPA2] =>
           Ok {| design := designPA2; minimum := minPA2;
                 stretch := stretchPA2; PF1 := PF1 |}
       | _ => Raise ValueError
       end, st')
  | (Raise e, st') => (Raise e, st')
  end.

(** *** sphDist, matchVisitComputeDistance *)

Definition sphDist (ra1 dec1 ra2 dec2 : float) : float :=
  let dra := fsub ra1 ra2 in
  let ddec := fsub dec1 dec2 in
  let a :=
    fadd (fsquare (fsin (fdiv ddec (Fin 2))))
         (fmul (fmul (fcos dec1) (fcos dec2))
               (fsquare (fsin (fdiv dra (Fin 2))))) in
  let dist := fmul (Fin 2) (farcsin (fsqrt a)) in
  dist.

(** [sphDist] with arrays as its second point: numpy applies it
    elementwise. *)
Definition sphDist_array (ra1 dec1 : float) (ra2 dec2 : list float)
  : list float :=
  map (fun p => sphDist ra1 dec1 (fst p) (snd p)) (combine ra2 dec2).

(** [np.isfinite([a, b, c, d]).all()]. *)
Definition all_finite (l : list float) : bool := forallb np_isfinite l.

Definition matchVisitComputeDistance
  (visit_obj1 : list Z) (ra_obj1 dec_obj1 : list float)
  (visit_obj2 : list Z) (ra_obj2 dec_obj2 : list float)
  : result (list float) :=
  for_ (range (length visit_obj1)) (fun i distances =>
    for_ (range (length visit_obj2)) (fun j distances =>
      v1 <- getitem visit_obj1 i ;;
      v2 <- getitem visit_obj2 j ;;
      if Z.eqb v1 v2 then
        r1 <- getitem ra_obj1 i ;;
        d1 <- getitem dec_obj1 i ;;
        r2 <- getitem ra_obj2 j ;;
        d2 <- getitem dec_obj2 j ;;
        if all_finite [r1; d1; r2; d2]
        then Ok (distances ++ [sphDist r1 d1 r2 d2])
        else Ok distances
      else Ok distances)
    distances)
  [].

(** *** calcAMx *)

Definition arcminToRadians (arcmin : float) : float :=
  np_deg2rad (fdiv arcmin (Fin 60)).

Definition radiansToMilliarcsec (rad : float) : float :=
  fmul (fmul (np_rad2deg rad) (Fin 3600)) (Fin 1000).

Record AMxStruct : Type := {
  AMx : list float;
  D : float;
  annulus : float * float;
  magRange : float * float
}.

(** The closure [magInRange] of [calcAMx]. *)
Definition magInRange (magRange : float * float) (cat : Catalog) : bool :=
  let mag := get base_PsfFlux_mag cat in
  let w := np_where (map np_isfinite mag) in
  let medianMag := np_median (take mag w) in
  fle (fst magRange) medianMag && flt medianMag (snd magRange).

(** [if magRange is None: magRange = [17.0, 21.5]]. *)
Definition magRangeOrDefault (magRange : option (float * float))
  : float * float :=
  match magRange with
  | None => (Fin 17, Fin (43 / 2))
  | Some r => r
  end.

(** [annulus = D + (width/2)*np.array([-1, +1])]. *)
Definition annulusOf (D width : float) : float * float :=
  (fadd D (fmul (fdiv width (Fin 2)) (Fin (-1))),
   fadd D (fmul (fdiv width (Fin 2)) (Fin 1))).

(** [arcminToRadians] on the two-element array. *)
Definition arcminToRadians2 (annulus : float * float) : float * float :=
  (arcminToRadians (fst annulus), arcminToRadians (snd annulus)).

(** The mask of the annulus test and the indices it selects. *)
Definition inAnnulus (annulusRadians : float * float) (dist : float) : bool :=
  fle (fst annulusRadians) dist && flt dist (snd annulusRadians).

Definition objectsInAnnulus (annulusRadians : float * float)
  (dist : list float) : list nat :=
  np_where (map (inAnnulus annulusRadians) dist).

(** The body of the loop over [obj2]. *)
Definition pairBody (ra dec : list (list float)) (visit : list (list Z))
  (obj1 obj2 : nat) (rmsDistances : list float) : result (list float) :=
  v1 <- getitem visit obj1 ;;
  r1 <- getitem ra obj1 ;;
  d1 <- getitem dec obj1 ;;
  v2 <- getitem visit obj2 ;;
  r2 <- getitem ra obj2 ;;
  d2 <- getitem dec obj2 ;;
  distances <- matchVisitComputeDistance v1 r1 d1 v2 r2 d2 ;;
  match distances with
  | [] => Ok rmsDistances
  | _ :: _ =>
      let finiteEntries := np_where (map np_isfinite distances) in
      if (0 <? length finiteEntries)%nat
      then Ok (rmsDistances ++ [np_std (take distances finiteEntries)])
      else Ok rmsDistances
  end.

Section AMx.

(** [afwCoord.averageCoord]: the mean position of a list of (ra, dec)
    coordinates on the sphere. *)
Variable averageCoord : list (float * float) -> float * float.

(** util.py *)
Definition averageRaDec (ra dec : list float) : result (float * float) :=
  if (length ra =? length dec)%nat
  then Ok (averageCoord (combine ra dec))
  else Raise AssertionError.

Definition averageRaDecFromCat (cat : Catalog) : result (float * float) :=
  averageRaDec (get coord_ra cat) (get coord_dec cat).

Definition averageRaFromCat (cat : Catalog) : result float :=
  p <- averageRaDecFromCat cat ;; Ok (fst p).

Definition averageDecFromCat (cat : Catalog) : result float :=
  p <- averageRaDecFromCat cat ;; Ok (snd p).

(** The loop over [obj1] with the loop over [obj2] inside. *)
Definition pairLoop (annulusRadians : float * float)
  (meanRa meanDec : list float)
  (ra dec : list (list float)) (visit : list (list Z))
  : result (list float) :=
  for_ (range (length (combine meanRa (combine meanDec visit))))
    (fun obj1 rmsDistances =>
       ra1 <- getitem meanRa obj1 ;;
       dec1 <- getitem meanDec obj1 ;;
       let dist := sphDist_array ra1 dec1 (skipn (obj1 + 1) meanRa)
                                          (skipn (obj1 + 1) meanDec) in
       for_ (objectsInAnnulus annulusRadians dist)
            (fun obj2 rmsDistances => pairBody ra dec visit obj1 obj2 rmsDistances)
            rmsDistances)
    [].

(** [ra], [dec] and [visit] are the slices [1*jump:2*jump],
    [2*jump:3*jump] and [4*jump:5*jump] of [matchKeyOutput], the column
    of each key for each group, key by key. *)
Definition calcAMx (groupView : GroupView) (D width : float)
  (magRange : option (float * float)) : result AMxStruct :=
  let magRange := magRangeOrDefault magRange in
  let groupViewInMagRange := where_ (magInRange magRange) groupView in
  let ra := map (get coord_ra) groupViewInMagRange in
  let dec := map (get coord_dec) groupViewInMagRange in
  let visit := map (get visit) groupViewInMagRange in
  meanRa <- aggregate averageRaFromCat groupViewInMagRange ;;
  meanDec <- aggregate averageDecFromCat groupViewInMagRange ;;
  let annulus := annulusOf D width in
  let annulusRadians := arcminToRadians2 annulus in
  rmsDistances <- pairLoop annulusRadians meanRa meanDec ra dec visit ;;
  let rmsDistMas := map radiansToMilliarcsec rmsDistances in
  Ok {| AMx := rmsDistMas; D := D; annulus := annulus;
        magRange := magRange |}.

End AMx.

End CalcSrd.

(** ** util.py: constructDataIds *)

Module Util.
Import stdpp.base stdpp.strings stdpp.gmap stdpp.pretty.

(** The values a data id holds: visit and detector numbers, filter names. *)
Inductive value : Type :=
| Int (z : Z)
| Str (s : string).

(** A data id is a Python dict from field names to values. *)
Abbreviation DataId := (gmap string value).

(** The dict display [{'visit': v, 'filter': filter, ccdKeyName: c}]; a
    key written later replaces an equal key written earlier. *)
Definition dataId (filter : string) (ccdKeyName : string) (v c : Z) : DataId :=
  <[ccdKeyName := Int c]> (<["filter" := Str filter]> (<["visit" := Int v]> ∅)).

(** [ccdKeyName] is the optional fourth argument, ['ccd'] when absent. *)
Definition constructDataIds (filter : string) (visits ccds : list Z)
  (ccdKeyName : option string) : list DataId :=
  let ccdKeyName := match ccdKeyName with None => "ccd" | Some k => k end in
  let visitDataIds :=
    flat_map (fun v => map (fun c => dataId filter ccdKeyName v c) ccds)
             visits in
  visitDataIds.

(** *** getCcdKeyName *)

Import Stdlib.Strings.Ascii.

Definition possibleCcdFieldNames : list string := ["ccd"; "ccdnum"; "camcol"].

(** [for name in names: if name in dataid: return name], with the [else]
    branch of the loop, which returns ['ccd']. *)
Fixpoint firstFieldName {V} (names : list string) (dataid : gmap string V)
  : string :=
  match names with
  | [] => "ccd"
  | name :: names' =>
      match dataid !! name with
      | Some _ => name
      | None => firstFieldName names' dataid
      end
  end.

Definition getCcdKeyName {V} (dataid : gmap string V) : string :=
  firstFieldName possibleCcdFieldNames dataid.

(** *** repoNameToPrefix *)

(** [s.lstrip(chars)] and [s.rstrip(chars)] for a set of characters. *)
Fixpoint lstrip (chars : ascii -> bool) (s : string) : string :=
  match s with
  | EmptyString => EmptyString
  | String c s' => if chars c then lstrip chars s' else s
  end.

Fixpoint rstrip (chars : ascii -> bool) (s : string) : string :=
  match s with
  | EmptyString => EmptyString
  | String c s' =>
      match rstrip chars s' with
      | EmptyString => if chars c then EmptyString else String c EmptyString
      | String _ _ as r => String c r
      end
  end.

Definition strip (chars : ascii -> bool) (s : string) : string :=
  rstrip chars (lstrip chars s).

(** [s.replace(old, new)] for a one-character [old]. *)
Fixpoint replace (old : ascii) (new : string) (s : string) : string :=
  match s with
  | EmptyString => EmptyString
  | String c s' =>
      if Ascii.eqb c old then new +:+ replace old new s'
      else String c (replace old new s')
  end.

(** The characters of ['\.'], a backslash (code 92) and a dot. *)
Definition backslash_dot (c : ascii) : bool :=
  Ascii.eqb c (ascii_of_nat 92) || Ascii.eqb c "."%char.

Section Prefix.

(** [os.sep], the path separator of the platform. *)
Variable os_sep : ascii.

Definition repoNameToPrefix (repo : string) : string :=
  replace os_sep "_" (strip (Ascii.eqb os_sep) (lstrip backslash_dot repo))
  +:+ "_".

End Prefix.

(** *** constructRunList *)

(** [sep.join(parts)]. *)
Fixpoint join (sep : string) (parts : list string) : string :=
  match parts with
  | [] => ""
  | [p] => p
  | p :: parts' => p +:+ sep +:+ join sep parts'
  end.

(** [str(c)] and [%d] of an integer: its decimal numeral. *)
Definition str (z : Z) : string := pretty z.

(** [ccdKeyName] is the optional fourth argument, ['ccd'] when absent;
    [filter] is not used. *)
Definition constructRunList (filter : string) (visits ccds : list Z)
  (ccdKeyName : option string) : list string :=
  let ccdKeyName := match ccdKeyName with None => "ccd" | Some k => k end in
  let runList :=
    map (fun v => "--id visit=" +:+ str v +:+ " " +:+ ccdKeyName +:+ "="
                  +:+ join "^" (map str ccds))
        visits in
  runList.

(** *** calcOrNone *)

(** [ErrorClass] is given by the test whether an exception is an
    instance of it. *)
Definition calcOrNone {X Y} (func : X -> Py.result Y) (x : X)
  (ErrorClass : Py.exn -> bool) : Py.result (option Y) :=
  match func x with
  | Py.Ok out => Py.Ok (Some out)
  | Py.Raise e => if ErrorClass e then Py.Ok None else Py.Raise e
  end.

End Util.

(** ** The statements of the specification, and sample inputs *)

Module Spec.
Import Float Py NumPy CalcSrd.
Local Open Scope R_scope.

(** The haversine term of two finite points. *)
Definition haversine (ra1 dec1 ra2 dec2 : R) : R :=
  sin ((dec1 - dec2) / 2) * sin ((dec1 - dec2) / 2)
  + cos dec1 * cos dec2 * (sin ((ra1 - ra2) / 2) * sin ((ra1 - ra2) / 2)).

(** *** Shared visits of two objects *)

Section SharedVisits.

Variables (visit_obj1 : list Z) (ra_obj1 dec_obj1 : list float).
Variables (visit_obj2 : list Z) (ra_obj2 dec_obj2 : list float).

(** The two rows are of the same visit. *)
Definition sameVisit (i j : nat) : bool :=
  match nth_error visit_obj1 i, nth_error visit_obj2 j with
  | Some a, Some b => Z.eqb a b
  | _, _ => false
  end.

(** The four coordinates of the two rows are finite. *)
Definition finiteCoords (i j : nat) : bool :=
  np_isfinite (nth i ra_obj1 NaN) && np_isfinite (nth i dec_obj1 NaN)
  && np_isfinite (nth j ra_obj2 NaN) && np_isfinite (nth j dec_obj2 NaN).

(** The index pairs that contribute a distance, in the order of the two
    loops. *)
Definition matchedIndexPairs : list (nat * nat) :=
  List.filter (fun p => sameVisit (fst p) (snd p) && finiteCoords (fst p) (snd p))
              (list_prod (seq 0 (length visit_obj1))
                         (seq 0 (length visit_obj2))).

(** The distance of an index pair. *)
Definition pairDistance (p : nat * nat) : float :=
  sphDist (nth (fst p) ra_obj1 NaN) (nth (fst p) dec_obj1 NaN)
          (nth (snd p) ra_obj2 NaN) (nth (snd p) dec_obj2 NaN).

End SharedVisits.

(** *** Order statistics of real numbers *)

(** The finite values of an array, in order. *)
Definition finiteValues (l : list float) : list R :=
  flat_map (fun a => match a with Fin x => [x] | _ => [] end) l.

Fixpoint Rinsert (x : R) (l : list R) : list R :=
  match l with
  | [] => [x]
  | y :: l' => if Rle_dec x y then x :: l else y :: Rinsert x l'
  end.

(** The values in ascending order. *)
Fixpoint Rsort (l : list R) : list R :=
  match l with
  | [] => []
  | x :: l' => Rinsert x (Rsort l')
  end.

(** The median: the middle value of the sorted sample, or the mean of
    the two middle values of a sample of even size. *)
Definition medianR (l : list R) : R :=
  let s := Rsort l in
  let n := length s in
  if Nat.even n
  then (nth (n / 2 - 1) s 0 + nth (n / 2) s 0) / 2
  else nth (n / 2) s 0.

(** The magnitudes of a group. *)
Definition magnitudes (cat : Catalog) : list float :=
  get base_PsfFlux_mag cat.

(** The percentile of rank [q] percent by linear interpolation between
    the two nearest order statistics: with [N] values the position is
    [q/100 * (N - 1)], its integer part the rank below and its
    fractional part the weight of the rank above. *)
Definition percentileR (l : list R) (q : nat) : R :=
  let s := Rsort l in
  let position := (q * (length s - 1))%nat in
  let below := (position / 100)%nat in
  let above := Nat.min (below + 1) (length s - 1) in
  let w := INR (position mod 100) / 100 in
  nth below s 0 * (1 - w) + nth above s 0 * w.

(** *** The samples of calcAMx *)

(** The shared-visit distances of two groups. *)
Definition pairDistances (g1 g2 : Catalog) : list float :=
  map (pairDistance (get coord_ra g1) (get coord_dec g1)
                    (get coord_ra g2) (get coord_dec g2))
      (matchedIndexPairs (get visit g1) (get coord_ra g1) (get coord_dec g1)
                         (get visit g2) (get coord_ra g2) (get coord_dec g2)).

(** The mean of a sample of real numbers. *)
Definition meanR (l : list R) : R := fold_left Rplus l 0 / INR (length l).

(** The standard deviation: the square root of the mean squared deviation
    from the mean. *)
Definition stdR (l : list R) : R :=
  sqrt (meanR (map (fun x => Rabs (x - meanR l) * Rabs (x - meanR l)) l)).

(** The root mean square: the square root of the mean of the squares. *)
Definition rmsR (l : list R) : R :=
  sqrt (meanR (map (fun x => x * x) l)).

(** What one pair of groups adds to the samples: nothing when the two
    groups have no finite shared-visit distance. *)
Definition pairSample (g1 g2 : Catalog) : list float :=
  match finiteValues (pairDistances g1 g2) with
  | [] => []
  | ds => [Fin (stdR ds)]
  end.

(** The mean position of each group, by an averaging routine. *)
Definition meanPositions (averageCoord : list (float * float) -> float * float)
  (groups : GroupView) : list (float * float) :=
  map (fun cat => averageCoord (combine (get coord_ra cat) (get coord_dec cat)))
      groups.

(** The indices the annulus test yields for [obj1], and the samples the
    two loops of [calcAMx] collect, as the loops are written. *)
Definition annulusIndices (annulusRadians : float * float)
  (means : list (float * float)) (obj1 : nat) : list nat :=
  objectsInAnnulus annulusRadians
    (sphDist_array (nth obj1 (map fst means) NaN) (nth obj1 (map snd means) NaN)
                   (skipn (obj1 + 1) (map fst means))
                   (skipn (obj1 + 1) (map snd means))).

Definition loopSamples (annulusRadians : float * float)
  (means : list (float * float)) (groups : GroupView) : list float :=
  flat_map (fun obj1 =>
              flat_map (fun obj2 => pairSample (nth obj1 groups [])
                                               (nth obj2 groups []))
                       (annulusIndices annulusRadians means obj1))
           (range (length groups)).

(** *** The statement on the order of the calcPA2 thresholds *)

(** The statement that the thresholds of [calcPA2] come in the order
    stretch, design, minimum. *)
Definition thresholdsDecreaseStatement (groupView : GroupView)
  (magKey : SourceRecord -> float) (st : RandomState) : Prop :=
  forall s, fst (calcPA2 groupView magKey st) = Ok s ->
  fle (stretch s) (design s) = true /\ fle (design s) (minimum s) = true.

(** A value that is a non-negative number, +inf or NaN. *)
Definition notNegative (a : float) : Prop :=
  match a with
  | Fin x => 0 <= x
  | Inf s => s = false
  | NaN => True
  end.

(** *** The statement on computeWidths of an empty array *)

(** The weakest form of the statement that [computeWidths] does not
    raise on an empty array: it returns for some inverse distribution
    function. *)
Definition emptyWidthsStatement : Prop :=
  exists (norm_ppf : float -> float) (w : float * float),
    computeWidths norm_ppf [] = Ok w.

(** *** Sample inputs *)

Definition mkRow (obj v : Z) (ra dec mag : float) : SourceRecord :=
  {| id := v; coord_ra := ra; coord_dec := dec; object := obj;
     visit := v; base_PsfFlux_mag := mag |}.

(** Two stars of magnitude 20 on the equator, 5 arcmin apart, each seen
    at the same place in visits 1 and 2. *)
Definition starA : Catalog :=
  [mkRow 1 1 (Fin 0) (Fin 0) (Fin 20); mkRow 1 2 (Fin 0) (Fin 0) (Fin 20)].

Definition starB : Catalog :=
  [mkRow 2 1 (Fin (PI / 2160)) (Fin 0) (Fin 20);
   mkRow 2 2 (Fin (PI / 2160)) (Fin 0) (Fin 20)].

Definition twoStars : GroupView := [starA; starB].

(** An averaging routine for groups whose rows share one position: the
    mean of equal positions is that position. *)
Definition firstCoord (coords : list (float * float)) : float * float :=
  hd (NaN, NaN) coords.

(** The statement that every pair of kept groups [i < j] whose mean
    separation passes the annulus test and that has a finite shared-visit
    distance contributes the root mean square of these distances, in
    milliarcseconds. *)
Definition rmsSampleStatement
  (averageCoord : list (float * float) -> float * float)
  (groupView : GroupView) (D width : float)
  (magRange : option (float * float)) : Prop :=
  forall s, calcAMx averageCoord groupView D width magRange = Ok s ->
  let kept := where_ (magInRange (CalcSrd.magRange s)) groupView in
  let means := meanPositions averageCoord kept in
  forall i j, (i < j < length kept)%nat ->
  inAnnulus (arcminToRadians2 (annulus s))
            (sphDist (fst (nth i means (NaN, NaN))) (snd (nth i means (NaN, NaN)))
                     (fst (nth j means (NaN, NaN))) (snd (nth j means (NaN, NaN))))
  = true ->
  finiteValues (pairDistances (nth i kept []) (nth j kept [])) <> [] ->
  In (radiansToMilliarcsec
        (Fin (rmsR (finiteValues (pairDistances (nth i kept []) (nth j kept []))))))
     (AMx s).

(** Two stars seen twice each, with magnitudes 20, 21 and 20, 22. *)
Definition twoVariables : GroupView :=
  [[mkRow 1 1 (Fin 0) (Fin 0) (Fin 20); mkRow 1 2 (Fin 0) (Fin 0) (Fin 21)];
   [mkRow 2 1 (Fin 1) (Fin 0) (Fin 20); mkRow 2 2 (Fin 1) (Fin 0) (Fin 22)]].

(** The random source whose raw draws are all 0. *)
Definition zeroDraws : RandomState := fun _ => 0%nat.

(** *** The magnitude test and the annulus test, on real numbers *)

(** [lo <= x < hi]. *)
Definition Rbetween (lo hi x : R) : bool :=
  (if Rle_dec lo x then true else false)
  && (if Rlt_dec x hi then true else false).


(** The separation of the mean positions of the groups [i] and [j]. *)
Definition separation (means : list (float * float)) (i j : nat) : float :=
  sphDist (fst (nth i means (NaN, NaN))) (snd (nth i means (NaN, NaN)))
          (fst (nth j means (NaN, NaN))) (snd (nth j means (NaN, NaN))).

(** The separation is a number [sep] with [lower <= sep < upper]. *)
Definition inHalfOpen (lower upper : R) (d : float) : bool :=
  match d with
  | Fin sep => Rbetween lower upper sep
  | _ => false
  end.

(** The pairs [(i, j)] with [i < j < n], ordered by [i] and then by [j]. *)
Definition laterPairs (n : nat) : list (nat * nat) :=
  flat_map (fun i => map (pair i) (seq (i + 1) (n - (i + 1)))) (seq 0 n).

(** The pairs of groups whose separation lies in the half-open annulus. *)
Definition selectedPairs (lower upper : R) (means : list (float * float))
  : list (nat * nat) :=
  List.filter (fun p => inHalfOpen lower upper (separation means (fst p) (snd p)))
              (laterPairs (length means)).

(** *** A star that moves between two visits *)

(** A star of magnitude 20 on the equator, seen 5 arcmin from [starA] in
    visit 1 and 20 milliarcseconds further in visit 2. *)
Definition starC : Catalog :=
  [mkRow 3 1 (Fin (PI / 2160)) (Fin 0) (Fin 20);
   mkRow 3 2 (Fin (PI / 2160 + PI / 32400000)) (Fin 0) (Fin 20)].

Definition movingStars : GroupView := [starA; starC].

(** *** The range of binary64 in which squares are exact up to rounding *)

(** A number whose square neither overflows nor underflows in binary64,
    also when as many such squares are added as an array can hold (fewer
    than [2^63]): 0, or a number of magnitude between [2^-500] and
    [2^480]. *)
Definition squareInRange (x : R) : Prop :=
  x = 0 \/ / 2 ^ 500 <= Rabs x <= 2 ^ 480.

(** The arithmetic mean of the right ascensions and of the
    declinations.  For positions on the equator less than half a turn
    apart this is the direction of the mean of their unit vectors, the
    position [afwCoord.averageCoord] returns. *)
Definition meanCoord (coords : list (float * float)) : float * float :=
  (np_mean (map fst coords), np_mean (map snd coords)).

End Spec.

(** * Properties *)

(** ** Arithmetic on finite values *)

Module FloatFacts.
Import Float.
Local Open Scope R_scope.

Lemma Req0_false (x : R) : x <> 0 -> Req0 x = false.
Proof. intros H. unfold Req0. destruct (Req_dec_T x 0); [contradiction | reflexivity]. Qed.

Lemma Req0_true : Req0 0 = true.
Proof. unfold Req0. destruct (Req_dec_T 0 0); [reflexivity | contradiction]. Qed.

Lemma Rsign_lt0_false (x : R) : 0 <= x -> Rsign_lt0 x = false.
Proof. intros H. unfold Rsign_lt0. destruct (Rlt_dec x 0); [lra | reflexivity]. Qed.

Lemma Rsign_lt0_true (x : R) : x < 0 -> Rsign_lt0 x = true.
Proof. intros H. unfold Rsign_lt0. destruct (Rlt_dec x 0); [reflexivity | lra]. Qed.

Lemma fdiv_Fin (x y : R) : y <> 0 -> fdiv (Fin x) (Fin y) = Fin (x / y).
Proof. intros H. unfold fdiv. now rewrite Req0_false. Qed.

Lemma fsqrt_Fin (x : R) : 0 <= x -> fsqrt (Fin x) = Fin (sqrt x).
Proof. intros H. unfold fsqrt. now rewrite Rsign_lt0_false. Qed.

Lemma farcsin_Fin (x : R) : -1 <= x <= 1 -> farcsin (Fin x) = Fin (asin x).
Proof.
  intros [H1 H2]. unfold farcsin.
  destruct (Rle_dec (-1) x); [| contradiction].
  destruct (Rle_dec x 1); [reflexivity | contradiction].
Qed.

Lemma fle_Fin (x y : R) : fle (Fin x) (Fin y) = true <-> x <= y.
Proof. unfold fle. destruct (Rle_dec x y); split; intros; try discriminate; auto; lra. Qed.

Lemma flt_Fin (x y : R) : flt (Fin x) (Fin y) = true <-> x < y.
Proof. unfold flt. destruct (Rlt_dec x y); split; intros; try discriminate; auto; lra. Qed.

Lemma fle_Fin_false (x y : R) : fle (Fin x) (Fin y) = false <-> y < x.
Proof. unfold fle. destruct (Rle_dec x y); split; intros; try discriminate; auto; lra. Qed.

Lemma flt_Fin_false (x y : R) : flt (Fin x) (Fin y) = false <-> y <= x.
Proof. unfold flt. destruct (Rlt_dec x y); split; intros; try discriminate; auto; lra. Qed.

Lemma isfinite_Fin (a : float) : np_isfinite a = true <-> exists x, a = Fin x.
Proof.
  destruct a; simpl; split; intros H; try discriminate; eauto;
    destruct H as [x H]; discriminate.
Qed.

(** The half-angle form of the sine square. *)
Lemma sin_half_sq (x : R) : sin (x / 2) * sin (x / 2) = (1 - cos x) / 2.
Proof.
  replace (cos x) with (cos (2 * (x / 2))) by (f_equal; lra).
  rewrite cos_2a_sin. lra.
Qed.

(** The haversine of a central angle lies between 0 and 1. *)
Lemma haversine_bounds (dec1 dec2 dra : R) :
  let a := sin ((dec1 - dec2) / 2) * sin ((dec1 - dec2) / 2)
           + cos dec1 * cos dec2 * (sin (dra / 2) * sin (dra / 2)) in
  0 <= a <= 1.
Proof.
  intros a. unfold a. clear a.
  rewrite (sin_half_sq (dec1 - dec2)), (sin_half_sq dra).
  rewrite cos_minus.
  pose proof (COS_bound dra) as [Hd1 Hd2].
  pose proof (COS_bound (dec1 - dec2)) as [Hm1 Hm2].
  pose proof (COS_bound (dec1 + dec2)) as [Hp1 Hp2].
  rewrite cos_minus in Hm1, Hm2. rewrite cos_plus in Hp1, Hp2.
  set (c := cos dec1 * cos dec2) in *.
  set (t := sin dec1 * sin dec2) in *.
  set (k := cos dra) in *.
  split; nra.
Qed.


End FloatFacts.

(** ** sphDist *)

Module SphDistFacts.
Import Float Py NumPy CalcSrd Spec FloatFacts.
Local Open Scope R_scope.

Lemma sphDist_Fin (ra1 dec1 ra2 dec2 : R) :
  sphDist (Fin ra1) (Fin dec1) (Fin ra2) (Fin dec2)
  = Fin (2 * asin (sqrt (haversine ra1 dec1 ra2 dec2))).
Proof.
  pose proof (haversine_bounds dec1 dec2 (ra1 - ra2)) as Hb. simpl in Hb.
  unfold sphDist, fsub, fopp, fadd, fsquare, fsin, fcos.
  rewrite !fdiv_Fin by lra. unfold fmul at 2 3 4 5.
  unfold fadd.
  replace (dec1 + - dec2) with (dec1 - dec2) by lra.
  replace (ra1 + - ra2) with (ra1 - ra2) by lra.
  fold (haversine ra1 dec1 ra2 dec2) in Hb |- *.
  rewrite fsqrt_Fin by lra.
  rewrite farcsin_Fin.
  - reflexivity.
  - split.
    + pose proof (sqrt_pos (haversine ra1 dec1 ra2 dec2)). lra.
    + rewrite <- sqrt_1. apply sqrt_le_1; lra.
Qed.

Lemma haversine_sym (ra1 dec1 ra2 dec2 : R) :
  haversine ra1 dec1 ra2 dec2 = haversine ra2 dec2 ra1 dec1.
Proof.
  unfold haversine.
  replace ((dec2 - dec1) / 2) with (- ((dec1 - dec2) / 2)) by lra.
  replace ((ra2 - ra1) / 2) with (- ((ra1 - ra2) / 2)) by lra.
  rewrite !sin_neg. ring.
Qed.

Lemma haversine_same (ra dec : R) : haversine ra dec ra dec = 0.
Proof.
  unfold haversine.
  replace ((dec - dec) / 2) with 0 by lra.
  replace ((ra - ra) / 2) with 0 by lra.
  rewrite sin_0. ring.
Qed.





Lemma sphDist_same (ra dec : R) :
  sphDist (Fin ra) (Fin dec) (Fin ra) (Fin dec) = Fin 0.
Proof.
  rewrite sphDist_Fin, haversine_same, sqrt_0, asin_0. f_equal. lra.
Qed.



(** On the equator the distance is the difference of the right
    ascensions. *)
Lemma sphDist_equator (ra1 ra2 : R) :
  Rabs (ra1 - ra2) <= PI ->
  sphDist (Fin ra1) (Fin 0) (Fin ra2) (Fin 0) = Fin (Rabs (ra1 - ra2)).
Proof.
  intros Hb. rewrite sphDist_Fin. f_equal. unfold haversine.
  replace ((0 - 0) / 2) with 0 by lra. rewrite sin_0, cos_0.
  set (d := ra1 - ra2) in *.
  replace (0 * 0 + 1 * 1 * (sin (d / 2) * sin (d / 2)))
    with (Rsqr (sin (d / 2))) by (unfold Rsqr; ring).
  rewrite sqrt_Rsqr_abs.
  pose proof PI_RGT_0 as Hpi.
  destruct (Rle_lt_dec 0 d) as [Hd | Hd].
  - rewrite (Rabs_right d) in * by lra.
    rewrite Rabs_right by (apply Rle_ge, sin_ge_0; lra).
    rewrite asin_sin by lra. lra.
  - rewrite (Rabs_left d) in * by lra.
    replace (d / 2) with (- (- d / 2)) by lra. rewrite sin_neg, Rabs_Ropp.
    rewrite Rabs_right by (apply Rle_ge, sin_ge_0; lra).
    rewrite asin_sin by lra. lra.
Qed.

End SphDistFacts.

(** ** Loops and indexing *)

Module PyFacts.
Import Py.

Lemma getitem_lt {A} (l : list A) (i : nat) (d : A) :
  i < length l -> getitem l i = Ok (nth i l d).
Proof.
  intros H. unfold getitem. now rewrite (nth_error_nth' l d H).
Qed.

Lemma getitem_ge {A} (l : list A) (i : nat) :
  length l <= i -> getitem l i = Raise IndexError.
Proof.
  intros H. unfold getitem.
  now rewrite (proj2 (nth_error_None l i) H).
Qed.

(** A loop whose body appends [g x] to the accumulator. *)
Lemma for_append {A} (xs : list nat) (body : nat -> list A -> result (list A))
  (g : nat -> list A) :
  (forall x acc, In x xs -> body x acc = Ok (acc ++ g x)) ->
  forall acc, for_ xs body acc = Ok (acc ++ flat_map g xs).
Proof.
  induction xs as [| x xs IH]; intros Hb acc; simpl.
  - now rewrite app_nil_r.
  - rewrite Hb by (now left).
    rewrite IH by (intros; apply Hb; now right).
    now rewrite <- app_assoc.
Qed.

(** A loop whose body leaves the accumulator as it is. *)
Lemma for_skip {S} (xs : list nat) (body : nat -> S -> result S) :
  (forall x acc, In x xs -> body x acc = Ok acc) ->
  forall acc, for_ xs body acc = Ok acc.
Proof.
  induction xs as [| x xs IH]; intros Hb acc; simpl; [reflexivity |].
  rewrite Hb by (now left). apply IH. intros; apply Hb; now right.
Qed.

Lemma in_range (n i : nat) : In i (range n) <-> i < n.
Proof. unfold range. rewrite in_seq. lia. Qed.

(** Two nested selections are one selection over the pairs. *)
Lemma flat_map_select {A} (p : nat * nat -> bool) (h : nat * nat -> A)
  (xs ys : list nat) :
  flat_map (fun i => flat_map (fun j => if p (i, j) then [h (i, j)] else []) ys) xs
  = map h (List.filter p (list_prod xs ys)).
Proof.
  induction xs as [| x xs IH]; simpl; [reflexivity |].
  rewrite filter_app, map_app, IH. f_equal.
  clear IH. induction ys as [| y ys IHy]; simpl; [reflexivity |].
  destruct (p (x, y)); simpl; now rewrite IHy.
Qed.

Lemma NoDup_map_pair {A B} (x : A) (ys : list B) :
  NoDup ys -> NoDup (map (pair x) ys).
Proof.
  induction 1 as [| y ys Hy Hn IH]; simpl; constructor; [| exact IH].
  rewrite in_map_iff. intros [y' [E Hin]]. inversion E; subst. contradiction.
Qed.

Lemma list_prod_NoDup {A B} (xs : list A) (ys : list B) :
  NoDup xs -> NoDup ys -> NoDup (list_prod xs ys).
Proof.
  intros Hx Hy. induction Hx as [| x xs Hnx Hn IH]; simpl; [constructor |].
  apply NoDup_app; [now apply NoDup_map_pair | exact IH |].
  intros [a b] H1 H2. apply in_map_iff in H1. destruct H1 as [y [E _]].
  inversion E; subst. apply in_prod_iff in H2. tauto.
Qed.

End PyFacts.

(** ** matchVisitComputeDistance *)

Module MatchVisitFacts.
Import Float Py NumPy CalcSrd Spec FloatFacts PyFacts.

Section Rows.

Variables (visit_obj1 : list Z) (ra_obj1 dec_obj1 : list float).
Variables (visit_obj2 : list Z) (ra_obj2 dec_obj2 : list float).

Lemma matchedIndexPairs_NoDup :
  NoDup (matchedIndexPairs visit_obj1 ra_obj1 dec_obj1
                           visit_obj2 ra_obj2 dec_obj2).
Proof.
  unfold matchedIndexPairs. apply NoDup_filter, list_prod_NoDup; apply seq_NoDup.
Qed.

Lemma matchedIndexPairs_In (i j : nat) :
  In (i, j) (matchedIndexPairs visit_obj1 ra_obj1 dec_obj1
                               visit_obj2 ra_obj2 dec_obj2)
  <-> (exists v, nth_error visit_obj1 i = Some v
                 /\ nth_error visit_obj2 j = Some v)
      /\ np_isfinite (nth i ra_obj1 NaN) = true
      /\ np_isfinite (nth i dec_obj1 NaN) = true
      /\ np_isfinite (nth j ra_obj2 NaN) = true
      /\ np_isfinite (nth j dec_obj2 NaN) = true.
Proof.
  unfold matchedIndexPairs, sameVisit, finiteCoords.
  rewrite filter_In, in_prod_iff, !in_seq, !andb_true_iff. cbn [fst snd].
  split.
  - intros [[Hi Hj] [Hv [[[H1 H2] H3] H4]]]. repeat split; try assumption.
    destruct (nth_error visit_obj1 i) as [a |]; [| discriminate].
    destruct (nth_error visit_obj2 j) as [b |]; [| discriminate].
    apply Z.eqb_eq in Hv. subst b. now exists a.
  - intros [[v [Hv1 Hv2]] [H1 [H2 [H3 H4]]]].
    repeat split; try assumption; try lia.
    + apply nth_error_Some. congruence.
    + apply nth_error_Some. congruence.
    + rewrite Hv1, Hv2. apply Z.eqb_refl.
Qed.

Lemma matchedIndexPairs_disjoint :
  (forall v, In v visit_obj1 -> ~ In v visit_obj2) ->
  matchedIndexPairs visit_obj1 ra_obj1 dec_obj1 visit_obj2 ra_obj2 dec_obj2
  = [].
Proof.
  intros Hd.
  destruct (matchedIndexPairs visit_obj1 ra_obj1 dec_obj1
                              visit_obj2 ra_obj2 dec_obj2)
    as [| [i j] rest] eqn:E; [reflexivity | exfalso].
  assert (Hin : In (i, j) (matchedIndexPairs visit_obj1 ra_obj1 dec_obj1
                                             visit_obj2 ra_obj2 dec_obj2))
    by (rewrite E; now left).
  apply matchedIndexPairs_In in Hin. destruct Hin as [[v [H1 H2]] _].
  apply (Hd v); eapply nth_error_In; eassumption.
Qed.

Hypothesis len_ra1 : length ra_obj1 = length visit_obj1.
Hypothesis len_dec1 : length dec_obj1 = length visit_obj1.
Hypothesis len_ra2 : length ra_obj2 = length visit_obj2.
Hypothesis len_dec2 : length dec_obj2 = length visit_obj2.

Lemma matchVisitComputeDistance_pairs :
  matchVisitComputeDistance visit_obj1 ra_obj1 dec_obj1
                            visit_obj2 ra_obj2 dec_obj2
  = Ok (map (pairDistance ra_obj1 dec_obj1 ra_obj2 dec_obj2)
            (matchedIndexPairs visit_obj1 ra_obj1 dec_obj1
                               visit_obj2 ra_obj2 dec_obj2)).
Proof.
  unfold matchVisitComputeDistance, matchedIndexPairs.
  rewrite <- (flat_map_select
                (fun p => sameVisit visit_obj1 visit_obj2 (fst p) (snd p)
                          && finiteCoords ra_obj1 dec_obj1 ra_obj2 dec_obj2
                                          (fst p) (snd p))
                (pairDistance ra_obj1 dec_obj1 ra_obj2 dec_obj2)).
  erewrite for_append; [reflexivity |].
  intros i acc Hi. apply in_range in Hi.
  apply for_append. intros j acc' Hj. apply in_range in Hj.
  rewrite (getitem_lt visit_obj1 i 0%Z Hi), (getitem_lt visit_obj2 j 0%Z Hj).
  cbn [bind fst snd]. unfold sameVisit, finiteCoords, pairDistance.
  rewrite (nth_error_nth' visit_obj1 0%Z Hi), (nth_error_nth' visit_obj2 0%Z Hj).
  destruct (Z.eqb _ _); cbn [andb]; [| now rewrite app_nil_r].
  rewrite (getitem_lt ra_obj1 i NaN), (getitem_lt dec_obj1 i NaN),
    (getitem_lt ra_obj2 j NaN), (getitem_lt dec_obj2 j NaN) by lia.
  cbn [bind fst snd all_finite forallb].
  rewrite andb_true_r, !andb_assoc.
  destruct (_ && _ && _ && _); [reflexivity | now rewrite app_nil_r].
Qed.

End Rows.

(** C4.  On two objects given as parallel arrays of visits and
    coordinates, [matchVisitComputeDistance] returns, without raising,
    the list that holds [sphDist] of the two positions for each index
    pair (i, j) whose visits are equal and whose four coordinates are
    finite.  Each such pair is listed once and no other pair is listed,
    so a pair with a non-finite coordinate adds nothing; and when the
    two objects have no visit in common the list is empty. *)
Theorem matchVisitComputeDistance_shared_finite_pairs
  (visit_obj1 : list Z) (ra_obj1 dec_obj1 : list float)
  (visit_obj2 : list Z) (ra_obj2 dec_obj2 : list float) :
  length ra_obj1 = length visit_obj1 ->
  length dec_obj1 = length visit_obj1 ->
  length ra_obj2 = length visit_obj2 ->
  length dec_obj2 = length visit_obj2 ->
  let pairs := matchedIndexPairs visit_obj1 ra_obj1 dec_obj1
                                 visit_obj2 ra_obj2 dec_obj2 in
  matchVisitComputeDistance visit_obj1 ra_obj1 dec_obj1
                            visit_obj2 ra_obj2 dec_obj2
  = Ok (map (fun p => sphDist (nth (fst p) ra_obj1 NaN) (nth (fst p) dec_obj1 NaN)
                              (nth (snd p) ra_obj2 NaN) (nth (snd p) dec_obj2 NaN))
            pairs)
  /\ NoDup pairs
  /\ (forall i j,
         In (i, j) pairs
         <-> (exists v, nth_error visit_obj1 i = Some v
                        /\ nth_error visit_obj2 j = Some v)
             /\ np_isfinite (nth i ra_obj1 NaN) = true
             /\ np_isfinite (nth i dec_obj1 NaN) = true
             /\ np_isfinite (nth j ra_obj2 NaN) = true
             /\ np_isfinite (nth j dec_obj2 NaN) = true)
  /\ ((forall v, In v visit_obj1 -> ~ In v visit_obj2) ->
      matchVisitComputeDistance visit_obj1 ra_obj1 dec_obj1
                                visit_obj2 ra_obj2 dec_obj2 = Ok []).
Proof.
  intros L1 L2 L3 L4 pairs. subst pairs.
  split; [| split; [| split]].
  - now apply matchVisitComputeDistance_pairs.
  - apply matchedIndexPairs_NoDup.
  - intros i j. exact (matchedIndexPairs_In _ _ _ _ _ _ i j).
  - intros Hd. rewrite matchVisitComputeDistance_pairs by assumption.
    now rewrite matchedIndexPairs_disjoint.
Qed.

(** Two objects with visits 1, 2 and 2, 3: the one shared visit gives
    the one distance. *)
Lemma matchVisitComputeDistance_shared_finite_pairs_witness :
  matchVisitComputeDistance [1; 2]%Z [Fin 0; Fin 1] [Fin 0; Fin 0]
                            [2; 3]%Z [Fin 0; Fin 0] [Fin 0; Fin 0]
  = Ok [sphDist (Fin 1) (Fin 0) (Fin 0) (Fin 0)].
Proof.
  exact (proj1 (matchVisitComputeDistance_shared_finite_pairs
                  [1; 2]%Z [Fin 0; Fin 1] [Fin 0; Fin 0]
                  [2; 3]%Z [Fin 0; Fin 0] [Fin 0; Fin 0]
                  eq_refl eq_refl eq_refl eq_refl)).
Defined.

End MatchVisitFacts.

(** ** numpy routines *)

Module NumPyFacts.
Import Float Py NumPy Spec FloatFacts PyFacts.

Lemma where_from_In (mask : list bool) (i k : nat) :
  In k (where_from i mask)
  <-> i <= k /\ nth_error mask (k - i) = Some true.
Proof.
  revert i. induction mask as [| b mask IH]; intros i; simpl.
  - split; [tauto |]. intros [_ H]. destruct (k - i); discriminate.
  - assert (Hrest : In k (where_from (S i) mask)
                    <-> i <= k /\ k <> i /\ nth_error mask (k - S i) = Some true).
    { rewrite IH. intuition lia. }
    destruct (Nat.eq_dec k i) as [-> | Hne].
    + rewrite Nat.sub_diag. simpl.
      destruct b; simpl; rewrite ?Hrest; split; intros H;
        try (destruct H as [H | H]); intuition (try lia; try congruence).
    + assert (Hs : i <= k -> k - i = S (k - S i)) by lia.
      destruct b; simpl; rewrite ?Hrest; split; intros H.
      * destruct H as [H | H]; [lia |]. destruct H as [H1 [H2 H3]].
        split; [lia |]. now rewrite Hs by lia.
      * right. destruct H as [H1 H2]. rewrite Hs in H2 by lia.
        simpl in H2. tauto.
      * destruct H as [H1 [H2 H3]]. split; [lia |]. now rewrite Hs by lia.
      * destruct H as [H1 H2]. rewrite Hs in H2 by lia. simpl in H2. tauto.
Qed.

Lemma np_where_In (mask : list bool) (k : nat) :
  In k (np_where mask) <-> nth_error mask k = Some true.
Proof.
  unfold np_where. rewrite where_from_In, Nat.sub_0_r. intuition lia.
Qed.

Lemma np_where_lt (mask : list bool) (k : nat) :
  In k (np_where mask) -> k < length mask.
Proof.
  rewrite np_where_In. intros H. apply nth_error_Some. congruence.
Qed.

(** Indexing an array with the indices where a test holds keeps the
    elements that pass the test, in order. *)
Lemma take_where_from (p : float -> bool) (pre a : list float) :
  take (pre ++ a) (where_from (length pre) (map p a)) = List.filter p a.
Proof.
  revert pre. induction a as [| x a IH]; intros pre; simpl; [reflexivity |].
  assert (E : pre ++ x :: a = (pre ++ [x]) ++ a) by now rewrite <- app_assoc.
  assert (L : S (length pre) = length (pre ++ [x]))
    by (rewrite length_app; simpl; lia).
  destruct (p x); simpl.
  - f_equal.
    + rewrite app_nth2 by lia. now rewrite Nat.sub_diag.
    + rewrite E, L. apply IH.
  - rewrite E, L. apply IH.
Qed.

Lemma take_where (p : float -> bool) (a : list float) :
  take a (np_where (map p a)) = List.filter p a.
Proof. exact (take_where_from p [] a). Qed.

Lemma length_where_filter (p : float -> bool) (a : list float) :
  length (np_where (map p a)) = length (List.filter p a).
Proof.
  rewrite <- (take_where p a). unfold take. now rewrite length_map.
Qed.

End NumPyFacts.

(** ** The annulus of calcAMx *)

Module AnnulusFacts.
Import Float Py NumPy CalcSrd Spec FloatFacts PyFacts NumPyFacts.
Local Open Scope R_scope.

Lemma annulusOf_Fin (D width : R) :
  annulusOf (Fin D) (Fin width) = (Fin (D - width / 2), Fin (D + width / 2)).
Proof.
  unfold annulusOf. rewrite fdiv_Fin by lra. simpl. f_equal; f_equal; lra.
Qed.

Lemma arcminToRadians_Fin (x : R) :
  arcminToRadians (Fin x) = Fin (x / 60 * (PI / 180)).
Proof. unfold arcminToRadians, np_deg2rad. now rewrite fdiv_Fin by lra. Qed.

Lemma inAnnulus_Fin (lo hi : R) (d : float) :
  inAnnulus (Fin lo, Fin hi) d = true
  <-> exists x, d = Fin x /\ lo <= x < hi.
Proof.
  unfold inAnnulus. cbn [fst snd]. rewrite andb_true_iff. split.
  - intros [H1 H2]. destruct d as [x | s |]; try discriminate.
    + exists x. apply fle_Fin in H1. apply flt_Fin in H2. auto.
    + destruct s; discriminate.
  - intros [x [-> [H1 H2]]]. split; [now apply fle_Fin | now apply flt_Fin].
Qed.

Lemma nth_error_combine {A B} (a : list A) (b : list B) (k : nat) :
  nth_error (combine a b) k
  = match nth_error a k, nth_error b k with
    | Some x, Some y => Some (x, y)
    | _, _ => None
    end.
Proof.
  revert b k. induction a as [| x a IH]; intros [| y b] [| k]; simpl;
    try reflexivity.
  - now destruct (nth_error a k).
  - apply IH.
Qed.

(** The separations [calcAMx] computes for [obj1] are those to the
    objects after it, in order. *)
Lemma sphDist_array_nth (ra1 dec1 : float) (meanRa meanDec : list float)
  (obj1 k : nat) :
  length meanRa = length meanDec ->
  nth_error (sphDist_array ra1 dec1 (skipn (obj1 + 1) meanRa)
                                    (skipn (obj1 + 1) meanDec)) k
  = if (obj1 + 1 + k <? length meanRa)%nat
    then Some (sphDist ra1 dec1 (nth (obj1 + 1 + k) meanRa NaN)
                                (nth (obj1 + 1 + k) meanDec NaN))
    else None.
Proof.
  intros L. unfold sphDist_array.
  rewrite nth_error_map, nth_error_combine, !nth_error_skipn.
  destruct (Nat.ltb_spec (obj1 + 1 + k) (length meanRa)) as [H | H].
  - rewrite (nth_error_nth' meanRa NaN H).
    rewrite (nth_error_nth' meanDec NaN) by lia. reflexivity.
  - rewrite (proj2 (nth_error_None meanRa _) H). reflexivity.
Qed.

End AnnulusFacts.

(** ** Sorting, mean and median of finite values *)

Module MedianFacts.
Import Float Py NumPy CalcSrd Spec FloatFacts PyFacts NumPyFacts.
Local Open Scope R_scope.

Lemma filter_isfinite (l : list float) :
  List.filter np_isfinite l = map Fin (finiteValues l).
Proof.
  induction l as [| a l IH]; [reflexivity |].
  destruct a as [x | s |]; simpl; [now rewrite IH | exact IH | exact IH].
Qed.

Lemma existsb_isnan_Fin (l : list R) : existsb np_isnan (map Fin l) = false.
Proof. induction l; simpl; auto. Qed.

Lemma insert_sorted_Fin (x : R) (l : list R) :
  insert_sorted (Fin x) (map Fin l) = map Fin (Rinsert x l).
Proof.
  induction l as [| y l IH]; simpl; [reflexivity |].
  destruct (Rle_dec x y); simpl; [reflexivity | now rewrite IH].
Qed.

Lemma np_sort_Fin (l : list R) : np_sort (map Fin l) = map Fin (Rsort l).
Proof.
  induction l as [| x l IH]; simpl; [reflexivity |].
  now rewrite IH, insert_sorted_Fin.
Qed.

Lemma Rinsert_length (x : R) (l : list R) :
  length (Rinsert x l) = S (length l).
Proof.
  induction l as [| y l IH]; simpl; [reflexivity |].
  destruct (Rle_dec x y); simpl; [reflexivity | now rewrite IH].
Qed.

Lemma Rsort_length (l : list R) : length (Rsort l) = length l.
Proof.
  induction l as [| x l IH]; simpl; [reflexivity |].
  now rewrite Rinsert_length, IH.
Qed.

Lemma fsum_Fin_from (l : list R) (acc : R) :
  fold_left fadd (map Fin l) (Fin acc) = Fin (fold_left Rplus l acc).
Proof.
  revert acc. induction l as [| x l IH]; intros acc; simpl; [reflexivity |].
  apply IH.
Qed.

Lemma np_mean_Fin (l : list R) :
  l <> [] ->
  np_mean (map Fin l) = Fin (fold_left Rplus l 0 / INR (length l)).
Proof.
  intros Hne. unfold np_mean, fsum, of_nat.
  rewrite fsum_Fin_from, length_map. apply fdiv_Fin.
  apply not_0_INR. destruct l; [contradiction | discriminate].
Qed.

Lemma np_mean_nil : np_mean [] = NaN.
Proof. unfold np_mean, fsum, of_nat, fdiv. simpl. now rewrite Req0_true. Qed.

Lemma firstn1_skipn {A} (s : list A) (i : nat) (d : A) :
  (i < length s)%nat -> firstn 1 (skipn i s) = [nth i s d].
Proof.
  revert i. induction s as [| x s IH]; intros [| i] H; simpl in *; try lia.
  - reflexivity.
  - apply IH. lia.
Qed.

Lemma firstn2_skipn {A} (s : list A) (i : nat) (d : A) :
  (i + 1 < length s)%nat ->
  firstn 2 (skipn i s) = [nth i s d; nth (i + 1) s d].
Proof.
  revert i. induction s as [| x s IH]; intros [| i] H; simpl in *; try lia.
  - destruct s; simpl in *; [lia | reflexivity].
  - apply IH. lia.
Qed.

(** [np.median] of finite values is the median of the real numbers;
    of no value at all it is NaN. *)
Lemma np_median_Fin (l : list R) :
  np_median (map Fin l) = match l with [] => NaN | _ => Fin (medianR l) end.
Proof.
  unfold np_median. rewrite existsb_isnan_Fin, np_sort_Fin, length_map.
  destruct l as [| x0 l0] eqn:El; [apply np_mean_nil |]. rewrite <- El.
  assert (Hlen : (0 < length (Rsort l))%nat)
    by (rewrite Rsort_length, El; simpl; lia).
  unfold medianR. set (s := Rsort l) in *. set (n := length s) in *.
  destruct (Nat.even n) eqn:Ev.
  - apply Nat.even_spec in Ev. destruct Ev as [m Hm].
    assert (Hdiv : (n / 2 = m)%nat)
      by (rewrite Hm, Nat.mul_comm; apply Nat.div_mul; lia).
    rewrite Hdiv. rewrite skipn_map, firstn_map.
    rewrite (firstn2_skipn s (m - 1) 0) by (fold n; lia).
    replace (m - 1 + 1)%nat with m by lia.
    rewrite np_mean_Fin by discriminate. simpl. f_equal. lra.
  - rewrite skipn_map, firstn_map.
    assert (Hlt : (n / 2 < n)%nat) by (apply Nat.div_lt; lia).
    rewrite (firstn1_skipn s (n / 2) 0) by (fold n; lia).
    rewrite np_mean_Fin by discriminate. simpl. f_equal. lra.
Qed.

End MedianFacts.

(** ** calcAMx: the groups kept and the samples *)

Module AMxFacts.
Import Float Py NumPy CalcSrd Spec FloatFacts PyFacts NumPyFacts.
Import MedianFacts MatchVisitFacts SphDistFacts AnnulusFacts.
Local Open Scope R_scope.

Lemma np_std_Fin (l : list R) :
  l <> [] -> np_std (map Fin l) = Fin (stdR l).
Proof.
  intros Hne. unfold np_std. rewrite np_mean_Fin by exact Hne.
  fold (meanR l). rewrite map_map.
  assert (E : map (fun x => fsquare (fabs (fsub (Fin x) (Fin (meanR l))))) l
              = map Fin (map (fun x => Rabs (x - meanR l) * Rabs (x - meanR l)) l)).
  { rewrite map_map. apply map_ext. intros x. reflexivity. }
  rewrite E, np_mean_Fin by (destruct l; [contradiction | discriminate]).
  fold (meanR (map (fun x => Rabs (x - meanR l) * Rabs (x - meanR l)) l)).
  apply fsqrt_Fin.
  unfold meanR. rewrite length_map.
  apply Rmult_le_pos.
  - assert (H : forall (m : list R) acc,
               0 <= acc ->
               0 <= fold_left Rplus
                      (map (fun x => Rabs (x - meanR l) * Rabs (x - meanR l)) m)
                      acc).
    { induction m as [| y m IH]; intros acc Ha; simpl; [exact Ha |].
      apply IH. pose proof (Rabs_pos (y - meanR l)). nra. }
    apply H. lra.
  - left. apply Rinv_0_lt_compat. apply lt_0_INR.
    destruct l; [contradiction | simpl; lia].
Qed.

Lemma getitem_column {A} (key : SourceRecord -> A) (gs : GroupView) (i : nat) :
  (i < length gs)%nat ->
  getitem (map (get key) gs) i = Ok (get key (nth i gs [])).
Proof.
  intros H. rewrite (getitem_lt _ i (get key [])) by now rewrite length_map.
  now rewrite map_nth.
Qed.

Lemma matchVisitComputeDistance_groups (g1 g2 : Catalog) :
  matchVisitComputeDistance (get visit g1) (get coord_ra g1) (get coord_dec g1)
                            (get visit g2) (get coord_ra g2) (get coord_dec g2)
  = Ok (pairDistances g1 g2).
Proof.
  apply matchVisitComputeDistance_pairs; unfold get; now rewrite !length_map.
Qed.

(** One turn of the inner loop appends the sample of the two groups it
    indexes. *)
Lemma pairBody_sample (gs : GroupView) (obj1 obj2 : nat) (acc : list float) :
  (obj1 < length gs)%nat -> (obj2 < length gs)%nat ->
  pairBody (map (get coord_ra) gs) (map (get coord_dec) gs)
           (map (get visit) gs) obj1 obj2 acc
  = Ok (acc ++ pairSample (nth obj1 gs []) (nth obj2 gs [])).
Proof.
  intros H1 H2. unfold pairBody.
  rewrite !getitem_column by assumption. cbn [bind].
  rewrite matchVisitComputeDistance_groups. cbn [bind].
  unfold pairSample.
  set (ds := pairDistances (nth obj1 gs []) (nth obj2 gs [])).
  destruct ds as [| d ds'] eqn:E; [now rewrite app_nil_r |].
  rewrite <- E. clear E d ds'.
  rewrite length_where_filter, take_where, filter_isfinite, length_map.
  destruct (finiteValues ds) as [| x fv] eqn:E.
  - simpl. now rewrite app_nil_r.
  - rewrite <- E. replace (0 <? length (finiteValues ds))%nat with true
      by (rewrite E; reflexivity).
    rewrite np_std_Fin by (rewrite E; discriminate). reflexivity.
Qed.

Section Averaging.

Variable averageCoord : list (float * float) -> float * float.

Lemma aggregate_averageRa (gs : GroupView) :
  aggregate (averageRaFromCat averageCoord) gs
  = Ok (map fst (meanPositions averageCoord gs)).
Proof.
  induction gs as [| cat gs IH]; simpl; [reflexivity |].
  rewrite IH. unfold averageRaFromCat, averageRaDecFromCat, averageRaDec, get.
  rewrite !length_map, Nat.eqb_refl. reflexivity.
Qed.

Lemma aggregate_averageDec (gs : GroupView) :
  aggregate (averageDecFromCat averageCoord) gs
  = Ok (map snd (meanPositions averageCoord gs)).
Proof.
  induction gs as [| cat gs IH]; simpl; [reflexivity |].
  rewrite IH. unfold averageDecFromCat, averageRaDecFromCat, averageRaDec, get.
  rewrite !length_map, Nat.eqb_refl. reflexivity.
Qed.

Lemma annulusIndices_lt (annulusRadians : float * float)
  (means : list (float * float)) (obj1 obj2 : nat) :
  In obj2 (annulusIndices annulusRadians means obj1) ->
  (obj1 + 1 + obj2 < length means)%nat.
Proof.
  unfold annulusIndices, objectsInAnnulus. intros H.
  apply np_where_lt in H. unfold sphDist_array in H.
  rewrite !length_map, length_combine, !length_skipn, !length_map in H. lia.
Qed.

Lemma pairLoop_samples (annulusRadians : float * float)
  (means : list (float * float)) (gs : GroupView) :
  length means = length gs ->
  pairLoop annulusRadians (map fst means) (map snd means)
           (map (get coord_ra) gs) (map (get coord_dec) gs)
           (map (get visit) gs)
  = Ok (loopSamples annulusRadians means gs).
Proof.
  intros L. unfold pairLoop, loopSamples.
  rewrite !length_combine, !length_map, L, !Nat.min_id.
  erewrite for_append; [reflexivity |].
  intros obj1 acc Hobj1. apply in_range in Hobj1.
  rewrite (getitem_lt (map fst means) obj1 NaN),
    (getitem_lt (map snd means) obj1 NaN) by (rewrite length_map; lia).
  cbn [bind]. fold (annulusIndices annulusRadians means obj1).
  apply for_append. intros obj2 acc' Hobj2.
  apply annulusIndices_lt in Hobj2.
  apply pairBody_sample; lia.
Qed.

(** [calcAMx] returns, and its result is made of the parts below. *)
Lemma calcAMx_result (groupView : GroupView) (D width : float)
  (magRange : option (float * float)) :
  let kept := where_ (magInRange (magRangeOrDefault magRange)) groupView in
  calcAMx averageCoord groupView D width magRange
  = Ok {| AMx := map radiansToMilliarcsec
                     (loopSamples (arcminToRadians2 (annulusOf D width))
                                  (meanPositions averageCoord kept) kept);
          CalcSrd.D := D;
          annulus := annulusOf D width;
          CalcSrd.magRange := magRangeOrDefault magRange |}.
Proof.
  intros kept. unfold calcAMx. fold kept.
  rewrite aggregate_averageRa, aggregate_averageDec. cbn [bind].
  rewrite pairLoop_samples by (unfold meanPositions; now rewrite length_map).
  reflexivity.
Qed.

End Averaging.

(** The magnitude test on a group, in terms of the median of its finite
    magnitudes. *)
Lemma magInRange_median (range : float * float) (cat : Catalog) :
  magInRange range cat
  = match finiteValues (magnitudes cat) with
    | [] => false
    | fv => fle (fst range) (Fin (medianR fv))
            && flt (Fin (medianR fv)) (snd range)
    end.
Proof.
  unfold magInRange, magnitudes.
  rewrite take_where, filter_isfinite, np_median_Fin.
  destruct (finiteValues (get base_PsfFlux_mag cat)); [| reflexivity].
  destruct (fst range) as [x | [|] |]; reflexivity.
Qed.



(** *** The two-star sample *)

Lemma medianR_20 : medianR [20; 20] = 20.
Proof.
  unfold medianR. simpl. destruct (Rle_dec 20 20); simpl; lra.
Qed.

Lemma stars_magInRange (cat : Catalog) :
  finiteValues (magnitudes cat) = [20; 20] ->
  magInRange (magRangeOrDefault None) cat = true.
Proof.
  intros E. rewrite magInRange_median, E. cbv beta iota zeta.
  rewrite medianR_20. cbn [magRangeOrDefault fst snd].
  rewrite (proj2 (fle_Fin 17 20)), (proj2 (flt_Fin 20 (43 / 2))) by lra.
  reflexivity.
Qed.

Lemma twoStars_kept :
  where_ (magInRange (magRangeOrDefault None)) twoStars = twoStars.
Proof.
  unfold where_, twoStars. cbn [List.filter].
  rewrite !stars_magInRange by reflexivity. reflexivity.
Qed.

Lemma five_arcmin_bounds : 0 < PI / 2160 <= PI.
Proof. pose proof PI_RGT_0. lra. Qed.

Lemma starA_starA_distances : pairDistances starA starA = [Fin 0; Fin 0].
Proof.
  unfold pairDistances.
  change (matchedIndexPairs (get visit starA) (get coord_ra starA)
                            (get coord_dec starA) (get visit starA)
                            (get coord_ra starA) (get coord_dec starA))
    with [(0, 0); (1, 1)]%nat.
  unfold pairDistance.
  cbn [map fst snd nth get starA mkRow coord_ra coord_dec].
  now rewrite sphDist_same.
Qed.

Lemma starA_starB_distances :
  pairDistances starA starB = [Fin (PI / 2160); Fin (PI / 2160)].
Proof.
  unfold pairDistances.
  change (matchedIndexPairs (get visit starA) (get coord_ra starA)
                            (get coord_dec starA) (get visit starB)
                            (get coord_ra starB) (get coord_dec starB))
    with [(0, 0); (1, 1)]%nat.
  unfold pairDistance.
  cbn [map fst snd nth get starA starB mkRow coord_ra coord_dec].
  pose proof five_arcmin_bounds as Hb.
  rewrite sphDist_equator by (rewrite Rabs_left; lra).
  rewrite Rabs_left by lra. do 2 f_equal; [lra | f_equal; lra].
Qed.

Lemma stdR_zeros : stdR [0; 0] = 0.
Proof.
  unfold stdR, meanR. simpl.
  replace ((0 + 0 + 0) / (1 + 1)) with 0 by lra.
  rewrite Rminus_diag, Rabs_R0.
  replace ((0 + 0 * 0 + 0 * 0) / (1 + 1)) with 0 by lra.
  apply sqrt_0.
Qed.

Lemma radiansToMilliarcsec_Fin (x : R) :
  radiansToMilliarcsec (Fin x) = Fin (x * (180 / PI) * 3600 * 1000).
Proof. reflexivity. Qed.

(** The samples the loops collect on the two stars: one sample, 0, that
    of the first star paired with itself. *)
Lemma twoStars_loopSamples :
  loopSamples (arcminToRadians2 (annulusOf (Fin 5) (Fin 2)))
              (meanPositions firstCoord twoStars) twoStars
  = [Fin 0].
Proof.
  pose proof five_arcmin_bounds as Hb.
  unfold loopSamples, annulusIndices, objectsInAnnulus.
  change (meanPositions firstCoord twoStars)
    with [(Fin 0, Fin 0); (Fin (PI / 2160), Fin 0)].
  cbn [length twoStars range seq flat_map map fst snd nth skipn Nat.add
       sphDist_array combine].
  rewrite sphDist_equator by (rewrite Rabs_left; lra).
  rewrite annulusOf_Fin. unfold arcminToRadians2. cbn [fst snd].
  rewrite !arcminToRadians_Fin.
  rewrite (proj2 (inAnnulus_Fin _ _ (Fin (Rabs (0 - PI / 2160))))).
  - cbn [np_where where_from flat_map nth twoStars app].
    unfold pairSample. rewrite starA_starA_distances.
    cbn [finiteValues flat_map app]. now rewrite stdR_zeros.
  - eexists. split; [reflexivity |]. rewrite Rabs_left by lra. lra.
Qed.

Lemma twoStars_result :
  calcAMx firstCoord twoStars (Fin 5) (Fin 2) None
  = Ok {| AMx := [Fin 0]; CalcSrd.D := Fin 5;
          annulus := (Fin (5 - 2 / 2), Fin (5 + 2 / 2));
          CalcSrd.magRange := (Fin 17, Fin (43 / 2)) |}.
Proof.
  rewrite calcAMx_result. cbv zeta. rewrite twoStars_kept, twoStars_loopSamples.
  rewrite annulusOf_Fin. cbn [map]. rewrite radiansToMilliarcsec_Fin.
  replace (0 * (180 / PI) * 3600 * 1000) with 0 by ring. reflexivity.
Qed.

(** The sample the loops collect on the two stars is that of the first
    star paired with itself; the pair of the two stars would give 0 as
    well, its two distances being equal. *)
Lemma twoStars_sample_pairs :
  loopSamples (arcminToRadians2 (annulusOf (Fin 5) (Fin 2)))
              (meanPositions firstCoord twoStars) twoStars
  = pairSample starA starA
  /\ pairSample starA starB = [Fin 0].
Proof.
  pose proof five_arcmin_bounds as Hb.
  rewrite twoStars_loopSamples. unfold pairSample.
  rewrite starA_starA_distances, starA_starB_distances.
  cbn [finiteValues flat_map app]. rewrite stdR_zeros. split; [reflexivity |].
  do 2 f_equal. unfold stdR, meanR. simpl.
  replace ((0 + PI / 2160 + PI / 2160) / (1 + 1)) with (PI / 2160) by lra.
  rewrite Rminus_diag, Rabs_R0.
  replace ((0 + 0 * 0 + 0 * 0) / (1 + 1)) with 0 by lra.
  apply sqrt_0.
Qed.


End AMxFacts.

(** ** getRandomDiff *)

Module RandomDiffFacts.
Import Float Py NumPy CalcSrd Spec FloatFacts PyFacts.

(** The shuffle of two elements keeps them or exchanges them. *)
Lemma shuffle_two {A} (a b : A) (st : RandomState) :
  fst (np_random_shuffle [a; b] st) = [a; b]
  \/ fst (np_random_shuffle [a; b] st) = [b; a].
Proof.
  unfold np_random_shuffle. cbn [length Nat.sub shuffle_from random_interval].
  pose proof (Nat.mod_upper_bound (st 0) 2 ltac:(lia)) as Hlt.
  destruct (st 0 mod 2) as [| [| n]]; [right | left | lia]; reflexivity.
Qed.

(** The shuffle of a single element is that element. *)
Lemma shuffle_one {A} (a : A) (st : RandomState) :
  np_random_shuffle [a] st = ([a], st).
Proof. reflexivity. Qed.

(** *** The shuffle rearranges the array *)

Lemma setitem_Permutation {A} (x : list A) (i : nat) (a b : A) :
  nth_error x i = Some a -> Permutation (a :: setitem x i b) (b :: x).
Proof.
  revert i. induction x as [| c x IH]; intros [| i] H; simpl in *;
    try discriminate.
  - injection H as ->. apply perm_swap.
  - rewrite perm_swap. rewrite (IH i H). apply perm_swap.
Qed.

Lemma nth_error_setitem {A} (x : list A) (i j : nat) (a b : A) :
  nth_error x i = Some a ->
  nth_error (setitem x i b) j = if Nat.eqb i j then Some b else nth_error x j.
Proof.
  revert i j. induction x as [| c x IH]; intros [| i] [| j] H; simpl in *;
    try discriminate; try reflexivity.
  now apply IH.
Qed.

Lemma swap_Permutation {A} (x : list A) (i j : nat) :
  Permutation (swap x i j) x.
Proof.
  unfold swap.
  destruct (nth_error x i) as [a |] eqn:Ei; [| reflexivity].
  destruct (nth_error x j) as [b |] eqn:Ej; [| reflexivity].
  assert (Ej' : nth_error (setitem x i b) j = Some b).
  { rewrite (nth_error_setitem x i j a b Ei).
    destruct (Nat.eqb i j); [reflexivity | exact Ej]. }
  apply (Permutation_cons_inv (a := b)).
  rewrite (setitem_Permutation (setitem x i b) j b a Ej').
  apply (setitem_Permutation x i a b Ei).
Qed.

Lemma shuffle_from_Permutation {A} (i : nat) (x : list A) (st : RandomState) :
  Permutation (fst (shuffle_from i x st)) x.
Proof.
  revert x st. induction i as [| i IH]; intros x st; simpl; [reflexivity |].
  rewrite IH. apply swap_Permutation.
Qed.

Lemma np_random_shuffle_Permutation {A} (x : list A) (st : RandomState) :
  Permutation (fst (np_random_shuffle x st)) x.
Proof. apply shuffle_from_Permutation. Qed.

(** On an array of two or more elements [getRandomDiff] returns the
    difference of two entries at different places of the array. *)
Lemma getRandomDiff_two_places (array : list float) (st : RandomState) :
  2 <= length array ->
  exists c0 c1 rest,
    fst (getRandomDiff array st) = Ok (fsub c0 c1)
    /\ Permutation (c0 :: c1 :: rest) array.
Proof.
  intros Hlen. unfold getRandomDiff.
  pose proof (np_random_shuffle_Permutation array st) as Hp.
  destruct (np_random_shuffle array st) as [copy st']. cbn [fst] in *.
  pose proof (Permutation_length Hp) as Hl.
  destruct copy as [| c0 [| c1 rest]]; simpl in Hl; try lia.
  exists c0, c1, rest. split; [reflexivity | exact Hp].
Qed.

(** C7.  On a two-element array [a, b], whatever the state of the random
    source, [getRandomDiff] returns [a - b] or [b - a] and nothing else;
    each of the two is returned for some state, and for two different
    numbers the result is never 0. *)
Theorem getRandomDiff_two_elements (a b : float) :
  (forall st : RandomState,
      fst (getRandomDiff [a; b] st) = Ok (fsub a b)
      \/ fst (getRandomDiff [a; b] st) = Ok (fsub b a))
  /\ (exists st : RandomState, fst (getRandomDiff [a; b] st) = Ok (fsub a b))
  /\ (exists st : RandomState, fst (getRandomDiff [a; b] st) = Ok (fsub b a))
  /\ (forall (x y : R) (st : RandomState),
         a = Fin x -> b = Fin y -> x <> y ->
         fst (getRandomDiff [a; b] st) <> Ok (Fin 0)).
Proof.
  assert (H2 : forall st : RandomState,
             fst (getRandomDiff [a; b] st) = Ok (fsub a b)
             \/ fst (getRandomDiff [a; b] st) = Ok (fsub b a)).
  { intros st. unfold getRandomDiff.
    destruct (np_random_shuffle [a; b] st) as [copy st'] eqn:E.
    pose proof (shuffle_two a b st) as H. rewrite E in H. cbn [fst] in *.
    destruct H as [-> | ->]; [left | right]; reflexivity. }
  split; [exact H2 | split; [| split]].
  - exists (fun _ => 1). reflexivity.
  - exists (fun _ => 0). reflexivity.
  - intros x y st -> -> Hxy.
    destruct (H2 st) as [-> | ->]; simpl; intros E; inversion E; lra.
Qed.

(** The last clause on the magnitudes 24.2 and 25.5. *)
Lemma getRandomDiff_two_elements_witness :
  fst (getRandomDiff [Fin (242 / 10); Fin (255 / 10)] (fun _ => 0))
  <> Ok (Fin 0).
Proof.
  apply (proj2 (proj2 (proj2 (getRandomDiff_two_elements
                                (Fin (242 / 10)) (Fin (255 / 10)))))
               (242 / 10)%R (255 / 10)%R (fun _ => 0) eq_refl eq_refl).
  lra.
Defined.

(** C8.  On a one-element array [getRandomDiff] raises IndexError, at the
    access to the second element of the shuffled copy, whatever the
    state of the random source. *)
Theorem getRandomDiff_one_element (a : float) (st : RandomState) :
  fst (getRandomDiff [a] st) = Raise IndexError
  /\ getitem (fst (np_random_shuffle [a] st)) 0 = Ok a
  /\ getitem (fst (np_random_shuffle [a] st)) 1 = Raise IndexError.
Proof. repeat split. Qed.

End RandomDiffFacts.

(** ** constructDataIds *)

Module UtilFacts.
Import stdpp.base stdpp.strings stdpp.gmap.
Import Util.

Lemma constructDataIds_list_prod (filter : string) (visits ccds : list Z)
  (ccdKeyName : option string) :
  constructDataIds filter visits ccds ccdKeyName
  = map (fun p => dataId filter (default "ccd" ccdKeyName) (fst p) (snd p))
        (list_prod visits ccds).
Proof.
  unfold constructDataIds.
  replace (match ccdKeyName with Some k => k | None => "ccd" end)
    with (default "ccd" ccdKeyName) by now destruct ccdKeyName.
  induction visits as [| v visits IH]; simpl; [reflexivity |].
  rewrite map_app, map_map, IH. reflexivity.
Qed.

Lemma nth_error_list_prod {A B} (xs : list A) (ys : list B) (i j : nat)
  (x : A) (y : B) :
  nth_error xs i = Some x -> nth_error ys j = Some y ->
  nth_error (list_prod xs ys) (i * length ys + j) = Some (x, y).
Proof.
  revert i. induction xs as [| x0 xs IH]; intros i Hx Hy.
  - destruct i; discriminate.
  - assert (Hj : j < length ys) by (apply nth_error_Some; congruence).
    simpl. destruct i as [| i]; simpl in Hx.
    + injection Hx as ->. simpl.
      rewrite nth_error_app1 by (rewrite length_map; lia).
      rewrite nth_error_map, Hy. reflexivity.
    + rewrite nth_error_app2 by (rewrite length_map; lia).
      rewrite length_map.
      replace (S i * length ys + j - length ys) with (i * length ys + j) by lia.
      now apply IH.
Qed.

(** The three entries of a data id whose detector key is neither
    ['visit'] nor ['filter']. *)
Lemma dataId_entries (filter ccdKeyName : string) (v c : Z) :
  ccdKeyName ≠ "visit" -> ccdKeyName ≠ "filter" ->
  dataId filter ccdKeyName v c !! "visit" = Some (Int v)
  /\ dataId filter ccdKeyName v c !! "filter" = Some (Str filter)
  /\ dataId filter ccdKeyName v c !! ccdKeyName = Some (Int c)
  /\ dom (dataId filter ccdKeyName v c)
     = ({[ "visit"; "filter"; ccdKeyName ]} : gset string).
Proof.
  intros H1 H2. unfold dataId. repeat split.
  - rewrite lookup_insert_ne by done. rewrite lookup_insert_ne by done.
    apply lookup_insert_eq.
  - rewrite lookup_insert_ne by done. apply lookup_insert_eq.
  - apply lookup_insert_eq.
  - rewrite !dom_insert_L, dom_empty_L. set_unfold. intros x. tauto.
Qed.

(** C9.  [constructDataIds(f, V, C)] returns [len(V) * len(C)] data
    ids: the dict [{'visit': v, 'filter': f, ccdKeyName: c}] of each
    pair of a visit [v] and a detector [c], visit by visit, the one of
    the i-th visit and the j-th detector at position [i * len(C) + j].
    For ['r'], [100, 200] and [10, 11] these are four data ids, each
    with filter ['r']. *)
Theorem constructDataIds_every_combination (filter : string)
  (visits ccds : list Z) (ccdKeyName : option string) :
  let key := default "ccd" ccdKeyName in
  let ids := constructDataIds filter visits ccds ccdKeyName in
  length ids = length visits * length ccds
  /\ ids = map (fun p => dataId filter key (fst p) (snd p))
               (list_prod visits ccds)
  /\ (forall i j v c,
         nth_error visits i = Some v -> nth_error ccds j = Some c ->
         nth_error ids (i * length ccds + j) = Some (dataId filter key v c))
  /\ (forall v c,
         key ≠ "visit" -> key ≠ "filter" ->
         dataId filter key v c !! "visit" = Some (Int v)
         /\ dataId filter key v c !! "filter" = Some (Str filter)
         /\ dataId filter key v c !! key = Some (Int c)
         /\ dom (dataId filter key v c)
            = ({[ "visit"; "filter"; key ]} : gset string))
  /\ constructDataIds "r" [100; 200]%Z [10; 11]%Z None
     = [dataId "r" "ccd" 100 10; dataId "r" "ccd" 100 11;
        dataId "r" "ccd" 200 10; dataId "r" "ccd" 200 11]
  /\ Forall (fun d : DataId => d !! "filter" = Some (Str "r"))
            (constructDataIds "r" [100; 200]%Z [10; 11]%Z None).
Proof.
  intros key ids.
  assert (E : ids = map (fun p => dataId filter key (fst p) (snd p))
                        (list_prod visits ccds))
    by apply constructDataIds_list_prod.
  split; [| split; [exact E | split; [| split; [| split]]]].
  - rewrite E, length_map. apply length_prod.
  - intros i j v c Hv Hc. rewrite E, nth_error_map.
    now rewrite (nth_error_list_prod visits ccds i j v c Hv Hc).
  - intros v c. apply dataId_entries.
  - reflexivity.
  - repeat constructor.
Qed.

(** The theorem on ['r'], [100, 200] and [10, 11]: the entry of visit
    200 and detector 10 is at position 2, with its three fields. *)
Lemma constructDataIds_every_combination_witness :
  nth_error (constructDataIds "r" [100; 200]%Z [10; 11]%Z None) 2
  = Some (dataId "r" "ccd" 200 10)
  /\ dataId "r" "ccd" 200 10 !! "visit" = Some (Int 200)
  /\ dataId "r" "ccd" 200 10 !! "ccd" = Some (Int 10).
Proof.
  pose proof (constructDataIds_every_combination
                "r" [100; 200]%Z [10; 11]%Z None) as [_ [_ [H3 [H4 _]]]].
  split.
  - exact (H3 1 0 200%Z 10%Z eq_refl eq_refl).
  - destruct (H4 200%Z 10%Z ltac:(done) ltac:(done)) as [Hv [_ [Hc _]]].
    split; [exact Hv | exact Hc].
Defined.

End UtilFacts.

(** ** Percentiles *)

Module PercentileFacts.
Import Float Py NumPy CalcSrd Spec FloatFacts PyFacts NumPyFacts MedianFacts.
Local Open Scope R_scope.

Lemma Rinsert_In (x y : R) (l : list R) :
  In y (Rinsert x l) <-> y = x \/ In y l.
Proof.
  induction l as [| z l IH]; simpl; [intuition |].
  destruct (Rle_dec x z); simpl; [intuition |]. rewrite IH. intuition.
Qed.

Lemma Rinsert_sorted (x : R) (l : list R) :
  StronglySorted Rle l -> StronglySorted Rle (Rinsert x l).
Proof.
  induction 1 as [| z l Hs IH Hall]; simpl.
  - repeat constructor.
  - destruct (Rle_dec x z) as [Hle | Hgt].
    + constructor; [now constructor |]. constructor; [exact Hle |].
      rewrite Forall_forall in *. intros y Hy. specialize (Hall y Hy). lra.
    + constructor; [exact IH |]. rewrite Forall_forall in *.
      intros y Hy. apply Rinsert_In in Hy. destruct Hy as [-> | Hy];
        [lra | now apply Hall].
Qed.

Lemma Rsort_sorted (l : list R) : StronglySorted Rle (Rsort l).
Proof.
  induction l as [| x l IH]; simpl; [constructor | now apply Rinsert_sorted].
Qed.

(** In a sorted list a later position holds a value at least as large. *)
Lemma sorted_nth_le (s : list R) (i j : nat) :
  StronglySorted Rle s -> (i <= j < length s)%nat -> nth i s 0 <= nth j s 0.
Proof.
  intros Hs. revert i j. induction Hs as [| x s Hs IH Hall]; intros i j Hij.
  - simpl in Hij. lia.
  - destruct i as [| i], j as [| j]; simpl in *; try lia.
    + lra.
    + rewrite Forall_forall in Hall. apply Hall, nth_In. lia.
    + apply IH. lia.
Qed.

Lemma INR_100 : INR 100 = 100.
Proof. rewrite INR_IZR_INZ. reflexivity. Qed.

(** The rank below, the rank above and the weight of a percentile. *)
Lemma percentile_ranks (n q : nat) :
  (0 < n)%nat -> (q <= 100)%nat ->
  let position := (q * (n - 1))%nat in
  let below := (position / 100)%nat in
  let above := Nat.min (below + 1) (n - 1) in
  (below <= above < n)%nat
  /\ (position = 100 * below + position mod 100)%nat
  /\ 0 <= INR (position mod 100) / 100 < 1.
Proof.
  intros Hn Hq position below above.
  assert (Hb : (below <= n - 1)%nat).
  { unfold below, position. apply Nat.Div0.div_le_upper_bound. nia. }
  assert (Hr : (position mod 100 < 100)%nat) by (apply Nat.mod_upper_bound; lia).
  split; [unfold above; lia |]. split; [apply Nat.div_mod_eq |].
  pose proof (pos_INR (position mod 100)) as H0.
  apply lt_INR in Hr. rewrite INR_100 in Hr. lra.
Qed.

(** A percentile lies between the two order statistics it interpolates. *)
Lemma percentileR_between (l : list R) (q : nat) :
  l <> [] -> (q <= 100)%nat ->
  let s := Rsort l in
  let below := (q * (length s - 1) / 100)%nat in
  let above := Nat.min (below + 1) (length s - 1) in
  nth below s 0 <= percentileR l q <= nth above s 0.
Proof.
  intros Hne Hq s below above.
  assert (Hn : (0 < length s)%nat).
  { unfold s. rewrite Rsort_length. destruct l; [contradiction | simpl; lia]. }
  destruct (percentile_ranks (length s) q Hn Hq) as [Hr [_ Hw]].
  fold below above in Hr.
  pose proof (sorted_nth_le s below above (Rsort_sorted l) Hr) as Hle.
  unfold percentileR. fold s. fold below. fold above.
  set (w := INR ((q * (length s - 1)) mod 100) / 100) in *.
  split; nra.
Qed.

(** Percentiles grow with the rank. *)
Lemma percentileR_monotone (l : list R) (q1 q2 : nat) :
  l <> [] -> (q1 <= q2 <= 100)%nat ->
  percentileR l q1 <= percentileR l q2.
Proof.
  intros Hne [H12 H2].
  assert (H1 : (q1 <= 100)%nat) by lia.
  pose proof (percentileR_between l q1 Hne H1) as B1.
  pose proof (percentileR_between l q2 Hne H2) as B2.
  cbv zeta in B1, B2.
  set (s := Rsort l) in *.
  assert (Hn : (0 < length s)%nat).
  { unfold s. rewrite Rsort_length. destruct l; [contradiction | simpl; lia]. }
  destruct (percentile_ranks (length s) q1 Hn H1) as [Hr1 [Hp1 Hw1]].
  destruct (percentile_ranks (length s) q2 Hn H2) as [Hr2 [Hp2 Hw2]].
  set (p1 := (q1 * (length s - 1))%nat) in *.
  set (p2 := (q2 * (length s - 1))%nat) in *.
  assert (Hp : (p1 <= p2)%nat) by (unfold p1, p2; nia).
  set (b1 := (p1 / 100)%nat) in *. set (b2 := (p2 / 100)%nat) in *.
  assert (Hb : (b1 <= b2)%nat) by (apply Nat.Div0.div_le_mono; exact Hp).
  destruct (Nat.eq_dec b1 b2) as [Eb | Nb].
  - assert (Hm : (p1 mod 100 <= p2 mod 100)%nat) by lia.
    apply le_INR in Hm.
    pose proof (sorted_nth_le s b1 (Nat.min (b1 + 1) (length s - 1))
                              (Rsort_sorted l) Hr1) as Hle.
    unfold percentileR. fold s. fold p1 p2. fold b1 b2. rewrite <- Eb.
    set (A := nth b1 s 0) in *.
    set (B := nth (Nat.min (b1 + 1) (length s - 1)) s 0) in *.
    set (w1 := INR (p1 mod 100)) in *. set (w2 := INR (p2 mod 100)) in *.
    nra.
  - assert (Hle : nth (Nat.min (b1 + 1) (length s - 1)) s 0 <= nth b2 s 0)
      by (apply sorted_nth_le; [apply Rsort_sorted | lia]).
    lra.
Qed.

(** [np.percentile] of finite values is the percentile of the real
    numbers. *)
Lemma np_percentile1_Fin (l : list R) (q : nat) :
  l <> [] -> (q <= 100)%nat ->
  np_percentile1 (map Fin l) q = Ok (Fin (percentileR l q)).
Proof.
  intros Hne Hq. unfold np_percentile1.
  destruct l as [| x0 l0] eqn:El; [contradiction |]. rewrite <- El.
  assert (Hl : l <> []) by (rewrite El; discriminate). clear Hne.
  replace (map Fin l) with (Fin x0 :: map Fin l0) by (rewrite El; reflexivity).
  replace (Fin x0 :: map Fin l0) with (map Fin l) by (rewrite El; reflexivity).
  rewrite existsb_isnan_Fin, np_sort_Fin, length_map.
  set (s := Rsort l).
  assert (Hn : (0 < length s)%nat).
  { unfold s. rewrite Rsort_length, El. simpl. lia. }
  destruct (percentile_ranks (length s) q Hn Hq) as [Hr _].
  rewrite (getitem_lt (map Fin s) _ (Fin 0)) by (rewrite length_map; lia).
  rewrite (getitem_lt (map Fin s) _ (Fin 0)) by (rewrite length_map; lia).
  cbn [bind]. rewrite !map_nth. unfold percentileR. fold s.
  simpl. do 2 f_equal; lra.
Qed.

End PercentileFacts.

(** ** calcPA2 *)

Module PA2Facts.
Import Float Py NumPy CalcSrd Spec FloatFacts PyFacts NumPyFacts MedianFacts.
Import PercentileFacts RandomDiffFacts.
Local Open Scope R_scope.

Lemma np_percentile_Fin (l : list R) (qs : list nat) :
  l <> [] -> Forall (fun q => (q <= 100)%nat) qs ->
  np_percentile (map Fin l) qs
  = Ok (map (fun q => Fin (percentileR l q)) qs).
Proof.
  intros Hne Hqs. induction Hqs as [| q qs Hq Hqs IH]; simpl; [reflexivity |].
  rewrite np_percentile1_Fin, IH by assumption. reflexivity.
Qed.

Lemma all_finite_values (l : list float) :
  Forall (fun d => np_isfinite d = true) l -> l = map Fin (finiteValues l).
Proof.
  induction 1 as [| d l Hd Hl IH]; [reflexivity |].
  destruct d as [x | s |]; try discriminate. simpl. now rewrite <- IH.
Qed.

Lemma map_fabs_Fin (l : list R) : map fabs (map Fin l) = map Fin (map Rabs l).
Proof. rewrite !map_map. reflexivity. Qed.

(** The thresholds of [calcPA2] on finite differences. *)
Lemma calcPA2_percentiles (groupView : GroupView)
  (magKey : SourceRecord -> float) (st st' : RandomState) (diffs : list R) :
  aggregate_random getRandomDiffRmsInMas magKey groupView st
  = (Ok (map Fin diffs), st') ->
  diffs <> [] ->
  calcPA2 groupView magKey st
  = (Ok {| design := Fin (percentileR (map Rabs diffs) 90);
           minimum := Fin (percentileR (map Rabs diffs) 80);
           stretch := Fin (percentileR (map Rabs diffs) 95);
           PF1 := {| PF1_minimum := 20; PF1_design := 10;
                     PF1_stretch := 5 |} |}, st').
Proof.
  intros Hagg Hne. unfold calcPA2. rewrite Hagg.
  rewrite map_fabs_Fin. cbn [map PF1_minimum PF1_design PF1_stretch].
  rewrite np_percentile_Fin.
  - reflexivity.
  - destruct diffs; [contradiction | discriminate].
  - repeat constructor; simpl; lia.
Qed.

Lemma sqrt2_pos : 0 < sqrt 2.
Proof. apply sqrt_lt_R0. lra. Qed.

(** On two or more finite magnitudes the scaled difference is a finite
    number. *)
Lemma getRandomDiffRmsInMas_finite (array : list float) (st : RandomState) :
  (2 <= length array)%nat ->
  Forall (fun a => np_isfinite a = true) array ->
  exists d st', getRandomDiffRmsInMas array st = (Ok (Fin d), st').
Proof.
  intros Hlen Hfin. pose proof sqrt2_pos as Hs.
  destruct (getRandomDiff_two_places array st Hlen)
    as [c0 [c1 [rest [Hr Hp]]]].
  unfold getRandomDiffRmsInMas, math_sqrt. rewrite Rsign_lt0_false by lra.
  destruct (getRandomDiff array st) as [r st']. cbn [fst] in Hr. subst r.
  rewrite Forall_forall in Hfin.
  assert (H0 : np_isfinite c0 = true)
    by (apply Hfin, (Permutation_in _ Hp); now left).
  assert (H1 : np_isfinite c1 = true)
    by (apply Hfin, (Permutation_in _ Hp); right; now left).
  apply isfinite_Fin in H0, H1. destruct H0 as [x ->], H1 as [y ->].
  rewrite fdiv_Fin by lra. cbn [bind fsub fopp fadd fmul]. eauto.
Qed.

(** When every group has two or more magnitudes, all finite, the
    differences are computed for every group and are finite. *)
Lemma aggregate_random_finite (groupView : GroupView)
  (magKey : SourceRecord -> float) (st : RandomState) :
  Forall (fun cat => (2 <= length cat)%nat
                     /\ Forall (fun a => np_isfinite a = true) (get magKey cat))
         groupView ->
  exists diffs st',
    aggregate_random getRandomDiffRmsInMas magKey groupView st
    = (Ok diffs, st')
    /\ length diffs = length groupView
    /\ Forall (fun d => np_isfinite d = true) diffs.
Proof.
  intros Hall. revert st.
  induction Hall as [| cat gv [Hlen Hfin] Hall IH]; intros st.
  - exists [], st. repeat split. constructor.
  - cbn [aggregate_random].
    destruct (getRandomDiffRmsInMas_finite (get magKey cat) st)
      as [d [st1 E]]; [unfold get; now rewrite length_map | exact Hfin |].
    rewrite E. destruct (IH st1) as [diffs [st2 [E2 [L2 F2]]]]. rewrite E2.
    exists (Fin d :: diffs), st2. repeat split.
    + simpl. now rewrite L2.
    + constructor; [reflexivity | exact F2].
Qed.

(** C2, amended.  When the per-group differences are a non-empty array
    of finite numbers, [calcPA2] returns the 80th, 90th and 95th
    percentiles of their absolute values as its minimum, design and
    stretch thresholds, so that minimum <= design <= stretch: the
    threshold paired with the outlier fraction 20% is no larger than the
    one paired with 10%, which is no larger than the one paired with 5%. *)
Theorem calcPA2_thresholds_increase (groupView : GroupView)
  (magKey : SourceRecord -> float) (st st' : RandomState)
  (diffs : list float) :
  aggregate_random getRandomDiffRmsInMas magKey groupView st
  = (Ok diffs, st') ->
  diffs <> [] ->
  Forall (fun d => np_isfinite d = true) diffs ->
  exists s,
    calcPA2 groupView magKey st = (Ok s, st')
    /\ minimum s = Fin (percentileR (map Rabs (finiteValues diffs)) 80)
    /\ design s = Fin (percentileR (map Rabs (finiteValues diffs)) 90)
    /\ stretch s = Fin (percentileR (map Rabs (finiteValues diffs)) 95)
    /\ PF1 s = {| PF1_minimum := 20; PF1_design := 10; PF1_stretch := 5 |}
    /\ fle (minimum s) (design s) = true
    /\ fle (design s) (stretch s) = true.
Proof.
  intros Hagg Hne Hfin.
  rewrite (all_finite_values diffs Hfin) in Hagg.
  assert (Hne' : finiteValues diffs <> []).
  { intros E. rewrite (all_finite_values diffs Hfin), E in Hne. now apply Hne. }
  eexists. split; [apply (calcPA2_percentiles _ _ _ _ _ Hagg Hne') |].
  cbn [minimum design stretch PF1].
  assert (Hne'' : map Rabs (finiteValues diffs) <> [])
    by (destruct (finiteValues diffs); [contradiction | discriminate]).
  repeat split; apply fle_Fin; apply percentileR_monotone; try assumption; lia.
Qed.

(** *** The two-variable sample *)

(** On two finite magnitudes, when the draw exchanges them. *)
Lemma getRandomDiffRmsInMas_exchange (a b : R) (st : RandomState) :
  (st 0 mod 2 = 0)%nat ->
  getRandomDiffRmsInMas [Fin a; Fin b] st
  = (Ok (Fin (1000 / sqrt 2 * (b - a))), fun k => st (S k)).
Proof.
  intros Hd. pose proof sqrt2_pos as Hs.
  unfold getRandomDiffRmsInMas, math_sqrt.
  rewrite Rsign_lt0_false by lra.
  unfold getRandomDiff, np_random_shuffle.
  cbn [length Nat.sub shuffle_from random_interval]. rewrite Hd.
  cbn [swap nth_error setitem getitem bind fsub fopp fadd].
  rewrite fdiv_Fin by lra. cbn [fmul]. reflexivity.
Qed.

Lemma twoVariables_diffs :
  aggregate_random getRandomDiffRmsInMas base_PsfFlux_mag twoVariables
                   zeroDraws
  = (Ok [Fin (1000 / sqrt 2 * (21 - 20)); Fin (1000 / sqrt 2 * (22 - 20))],
     zeroDraws).
Proof.
  unfold twoVariables.
  cbn [aggregate_random get map mkRow base_PsfFlux_mag].
  rewrite getRandomDiffRmsInMas_exchange by reflexivity.
  rewrite getRandomDiffRmsInMas_exchange by reflexivity.
  reflexivity.
Qed.

(** The percentile of two values in ascending order. *)
Lemma percentileR_two (x y : R) (q : nat) :
  x <= y -> (q < 100)%nat ->
  percentileR [x; y] q = x * (1 - INR q / 100) + y * (INR q / 100).
Proof.
  intros Hxy Hq. unfold percentileR. simpl Rsort.
  destruct (Rle_dec x y); [| contradiction].
  cbn [length Nat.sub]. rewrite Nat.mul_1_r.
  rewrite Nat.div_small, Nat.mod_small by exact Hq. reflexivity.
Qed.

Lemma INR_percents : INR 80 = 80 /\ INR 90 = 90 /\ INR 95 = 95.
Proof. rewrite !INR_IZR_INZ. repeat split. Qed.

Lemma twoVariables_result :
  fst (calcPA2 twoVariables base_PsfFlux_mag zeroDraws)
  = Ok {| design := Fin (1000 / sqrt 2 * (19 / 10));
          minimum := Fin (1000 / sqrt 2 * (18 / 10));
          stretch := Fin (1000 / sqrt 2 * (195 / 100));
          PF1 := {| PF1_minimum := 20; PF1_design := 10;
                    PF1_stretch := 5 |} |}.
Proof.
  pose proof sqrt2_pos as Hs.
  assert (Hc : 0 < 1000 / sqrt 2) by (apply Rdiv_lt_0_compat; lra).
  rewrite (calcPA2_percentiles
             _ _ _ _ [1000 / sqrt 2 * (21 - 20); 1000 / sqrt 2 * (22 - 20)]
             twoVariables_diffs) by discriminate.
  cbn [fst map]. destruct INR_percents as [E80 [E90 E95]].
  set (c := 1000 / sqrt 2) in *.
  rewrite !(Rabs_right (c * _)) by nra.
  rewrite !percentileR_two by (try lia; nra).
  rewrite E80, E90, E95. do 2 f_equal; f_equal; lra.
Qed.

(** C2, as stated, fails on the two variables: the stretch threshold is
    the largest of the three and the minimum threshold the smallest. *)
Lemma thresholdsDecreaseStatement_fails_on_twoVariables :
  ~ thresholdsDecreaseStatement twoVariables base_PsfFlux_mag zeroDraws.
Proof.
  intros H. destruct (H _ twoVariables_result) as [H1 _].
  cbn [stretch design] in H1. apply fle_Fin in H1.
  pose proof sqrt2_pos as Hs.
  assert (Hc : 0 < 1000 / sqrt 2) by (apply Rdiv_lt_0_compat; lra).
  nra.
Qed.

(** The amended statement on the two variables. *)
Lemma calcPA2_thresholds_increase_witness :
  exists s,
    calcPA2 twoVariables base_PsfFlux_mag zeroDraws = (Ok s, zeroDraws)
    /\ fle (minimum s) (design s) = true
    /\ fle (design s) (stretch s) = true.
Proof.
  destruct (calcPA2_thresholds_increase
              twoVariables base_PsfFlux_mag zeroDraws zeroDraws _
              twoVariables_diffs ltac:(discriminate)
              ltac:(repeat constructor))
    as [s [Hs [_ [_ [_ [_ [H1 H2]]]]]]].
  exists s. auto.
Defined.

End PA2Facts.

(** ** computeWidths *)

Module WidthsFacts.
Import Float Py NumPy CalcSrd Spec FloatFacts PyFacts NumPyFacts MedianFacts.
Import PercentileFacts PA2Facts.
Local Open Scope R_scope.

Lemma insert_sorted_length (x : float) (l : list float) :
  length (insert_sorted x l) = S (length l).
Proof.
  induction l as [| y l IH]; simpl; [reflexivity |].
  destruct (fle x y); simpl; [reflexivity | now rewrite IH].
Qed.

Lemma np_sort_length (l : list float) : length (np_sort l) = length l.
Proof.
  induction l as [| x l IH]; simpl; [reflexivity |].
  now rewrite insert_sorted_length, IH.
Qed.

(** [np.percentile] returns on a non-empty array. *)
Lemma np_percentile1_returns (a : list float) (q : nat) :
  a <> [] -> (q <= 100)%nat -> exists p, np_percentile1 a q = Ok p.
Proof.
  intros Hne Hq. unfold np_percentile1.
  destruct a as [| x0 a0] eqn:Ea; [contradiction |]. rewrite <- Ea.
  destruct (existsb np_isnan a); [eauto |].
  assert (Hn : (0 < length (np_sort a))%nat)
    by (rewrite np_sort_length, Ea; simpl; lia).
  destruct (percentile_ranks (length (np_sort a)) q Hn Hq) as [Hr _].
  rewrite (getitem_lt (np_sort a) _ NaN) by lia.
  rewrite (getitem_lt (np_sort a) _ NaN) by lia.
  cbn [bind]. eauto.
Qed.

Lemma fsquare_notNegative (a : float) : notNegative (fsquare a).
Proof.
  destruct a as [x | s |]; simpl; [nra | now destruct s | exact I].
Qed.

Lemma fadd_notNegative (a b : float) :
  notNegative a -> notNegative b -> notNegative (fadd a b).
Proof.
  destruct a as [x | s |], b as [y | t |]; simpl; intros Ha Hb; subst;
    try exact I; try reflexivity; try lra.
Qed.

Lemma fsum_notNegative (l : list float) :
  Forall notNegative l -> notNegative (fsum l).
Proof.
  unfold fsum. assert (H0 : notNegative (Fin 0)) by (simpl; lra).
  revert H0. generalize (Fin 0) as acc.
  induction l as [| x l IH]; intros acc Hacc Hl; simpl; [exact Hacc |].
  inversion Hl; subst. apply IH; [now apply fadd_notNegative | assumption].
Qed.

Lemma np_mean_notNegative (l : list float) :
  Forall notNegative l -> notNegative (np_mean l).
Proof.
  intros Hl. unfold np_mean, of_nat.
  pose proof (fsum_notNegative l Hl) as Hs.
  pose proof (pos_INR (length l)) as Hn.
  destruct (fsum l) as [x | s |]; simpl in *.
  - unfold Req0. destruct (Req_dec_T (INR (length l)) 0) as [E | E].
    + destruct (Req_dec_T x 0); simpl; [exact I |].
      unfold Rsign_lt0. destruct (Rlt_dec x 0); [lra | reflexivity].
    + simpl. apply Rmult_le_pos; [exact Hs |].
      left. apply Rinv_0_lt_compat. lra.
  - subst s. simpl. unfold Rsign_lt0.
    destruct (Rlt_dec (INR (length l)) 0); [lra | reflexivity].
  - exact I.
Qed.

(** [math.sqrt] does not raise on a value that is not negative. *)
Lemma math_sqrt_notNegative (a : float) :
  notNegative a -> math_sqrt a = Ok (fsqrt a).
Proof.
  destruct a as [x | s |]; simpl; intros H.
  - now rewrite Rsign_lt0_false.
  - now subst s.
  - reflexivity.
Qed.

Lemma rms_returns (array : list float) :
  math_sqrt (np_mean (map (fun x => fsquare x) array))
  = Ok (fsqrt (np_mean (map (fun x => fsquare x) array))).
Proof.
  apply math_sqrt_notNegative, np_mean_notNegative.
  apply Forall_forall. intros y Hy. apply in_map_iff in Hy.
  destruct Hy as [x [<- _]]. apply fsquare_notNegative.
Qed.

Lemma rms_Fin (l : list R) :
  l <> [] ->
  fsqrt (np_mean (map (fun x => fsquare x) (map Fin l))) = Fin (rmsR l).
Proof.
  intros Hne.
  assert (E : map (fun x => fsquare x) (map Fin l)
              = map Fin (map (fun x => x * x) l))
    by (rewrite !map_map; reflexivity).
  rewrite E, np_mean_Fin by (destruct l; [contradiction | discriminate]).
  fold (meanR (map (fun x => x * x) l)). fold (rmsR l).
  apply fsqrt_Fin.
  pose proof (np_mean_notNegative (map Fin (map (fun x => x * x) l))) as H.
  rewrite np_mean_Fin in H by (destruct l; [contradiction | discriminate]).
  apply H. apply Forall_forall. intros y Hy.
  apply in_map_iff in Hy. destruct Hy as [z [<- Hz]].
  apply in_map_iff in Hz. destruct Hz as [x [<- _]]. simpl. nra.
Qed.

Lemma computeWidths_empty (norm_ppf : float -> float) :
  computeWidths norm_ppf [] = Raise IndexError.
Proof. unfold computeWidths. rewrite rms_returns. reflexivity. Qed.

(** C3, as stated, fails on the empty array: [computeWidths] raises. *)
Lemma emptyWidthsStatement_fails : ~ emptyWidthsStatement.
Proof.
  intros [norm_ppf [w H]]. rewrite computeWidths_empty in H. discriminate.
Qed.

(** C3, amended.  On a non-empty array [computeWidths] returns the pair
    (rms, iqr) with rms the square root of the mean of the squared
    elements and iqr the 75th percentile minus the 25th, over twice the
    value of the inverse standard normal distribution function at 0.75.
    On the empty array the mean of the squares is NaN, [math.sqrt] of
    it is NaN, and the percentile computation then raises IndexError. *)
Theorem computeWidths_rms_iqr (norm_ppf : float -> float) :
  (forall array : list float,
      array <> [] ->
      exists p75 p25,
        np_percentile1 array 75 = Ok p75
        /\ np_percentile1 array 25 = Ok p25
        /\ computeWidths norm_ppf array
           = Ok (fsqrt (np_mean (map (fun x => fsquare x) array)),
                 fdiv (fsub p75 p25) (fmul (norm_ppf (Fin (3 / 4))) (Fin 2))))
  /\ (forall (l : list R) (z : R),
         l <> [] -> norm_ppf (Fin (3 / 4)) = Fin z -> z <> 0 ->
         computeWidths norm_ppf (map Fin l)
         = Ok (Fin (rmsR l),
               Fin ((percentileR l 75 - percentileR l 25) / (2 * z))))
  /\ np_mean (map (fun x => fsquare x) []) = NaN
  /\ math_sqrt NaN = Ok NaN
  /\ computeWidths norm_ppf [] = Raise IndexError.
Proof.
  split; [| split; [| split; [| split]]].
  - intros array Hne.
    destruct (np_percentile1_returns array 75 Hne ltac:(lia)) as [p75 H75].
    destruct (np_percentile1_returns array 25 Hne ltac:(lia)) as [p25 H25].
    exists p75, p25. split; [exact H75 | split; [exact H25 |]].
    unfold computeWidths. rewrite rms_returns. cbn [bind np_percentile].
    rewrite H75, H25. reflexivity.
  - intros l z Hne Hz Hz0. unfold computeWidths.
    rewrite rms_returns, rms_Fin by exact Hne. cbn [bind].
    rewrite np_percentile_Fin by (try assumption; repeat constructor; lia).
    cbn [bind map np_subtract_reduce fold_left fsub fopp fadd].
    rewrite Hz. cbn [fmul]. rewrite fdiv_Fin by lra.
    replace (z * 2) with (2 * z) by ring. reflexivity.
  - apply np_mean_nil.
  - reflexivity.
  - apply computeWidths_empty.
Qed.

(** The amended statement on the array [1, 3] with 0.6745 for the value
    of the inverse distribution function at 0.75. *)
Lemma computeWidths_rms_iqr_witness :
  computeWidths (fun _ => Fin (6745 / 10000)) [Fin 1; Fin 3]
  = Ok (Fin (rmsR [1; 3]),
        Fin ((percentileR [1; 3] 75 - percentileR [1; 3] 25)
             / (2 * (6745 / 10000)))).
Proof.
  apply (proj1 (proj2 (computeWidths_rms_iqr (fun _ => Fin (6745 / 10000))))
               [1; 3] (6745 / 10000)).
  - discriminate.
  - reflexivity.
  - lra.
Defined.

End WidthsFacts.

(** ** sphDist: further properties *)

Module SphDistGeometry.
Import Float Py NumPy CalcSrd Spec FloatFacts SphDistFacts.
Local Open Scope R_scope.


(** Twice the arc sine of the absolute sine of a half angle is the
    absolute angle, up to a straight angle. *)
Lemma half_angle_arc (d : R) :
  Rabs d <= PI -> 2 * asin (sqrt (sin (d / 2) * sin (d / 2))) = Rabs d.
Proof.
  intros Hb. fold (Rsqr (sin (d / 2))). rewrite sqrt_Rsqr_abs.
  pose proof PI_RGT_0 as Hpi.
  destruct (Rle_lt_dec 0 d) as [Hd | Hd].
  - rewrite (Rabs_right d) in * by lra.
    rewrite Rabs_right by (apply Rle_ge, sin_ge_0; lra).
    rewrite asin_sin by lra. lra.
  - rewrite (Rabs_left d) in * by lra.
    replace (d / 2) with (- (- d / 2)) by lra. rewrite sin_neg, Rabs_Ropp.
    rewrite Rabs_right by (apply Rle_ge, sin_ge_0; lra).
    rewrite asin_sin by lra. lra.
Qed.


(** X2.  Right ascension wraps around: moving either point by a full
    turn in right ascension does not change the distance. *)
Theorem sphDist_full_turn (ra1 dec1 ra2 dec2 : R) :
  sphDist (Fin (ra1 + 2 * PI)) (Fin dec1) (Fin ra2) (Fin dec2)
  = sphDist (Fin ra1) (Fin dec1) (Fin ra2) (Fin dec2)
  /\ sphDist (Fin ra1) (Fin dec1) (Fin (ra2 + 2 * PI)) (Fin dec2)
     = sphDist (Fin ra1) (Fin dec1) (Fin ra2) (Fin dec2).
Proof.
  rewrite !sphDist_Fin.
  assert (E1 : haversine (ra1 + 2 * PI) dec1 ra2 dec2
               = haversine ra1 dec1 ra2 dec2).
  { unfold haversine.
    replace ((ra1 + 2 * PI - ra2) / 2) with ((ra1 - ra2) / 2 + PI) by lra.
    rewrite neg_sin. ring. }
  assert (E2 : haversine ra1 dec1 (ra2 + 2 * PI) dec2
               = haversine ra1 dec1 ra2 dec2).
  { unfold haversine.
    replace ((ra1 - (ra2 + 2 * PI)) / 2)
      with (- (- ((ra1 - ra2) / 2) + PI)) by lra.
    rewrite sin_neg, neg_sin, sin_neg. ring. }
  now rewrite E1, E2.
Qed.

(** X3.  Along the equator the distance is the difference of the right
    ascensions and along a meridian it is the difference of the
    declinations, for differences up to pi. *)
Theorem sphDist_equator_meridian (a b c : R) :
  Rabs (a - b) <= PI ->
  sphDist (Fin a) (Fin 0) (Fin b) (Fin 0) = Fin (Rabs (a - b))
  /\ sphDist (Fin c) (Fin a) (Fin c) (Fin b) = Fin (Rabs (a - b)).
Proof.
  intros Hb. rewrite !sphDist_Fin. unfold haversine.
  replace ((0 - 0) / 2) with 0 by lra.
  replace ((c - c) / 2) with 0 by lra.
  rewrite sin_0, cos_0. split; f_equal.
  - rewrite <- (half_angle_arc (a - b) Hb). do 3 f_equal. ring.
  - rewrite <- (half_angle_arc (a - b) Hb). do 3 f_equal. ring.
Qed.

(** Two points of the equator a quarter turn apart. *)
Lemma sphDist_equator_meridian_witness :
  sphDist (Fin (PI / 2)) (Fin 0) (Fin 0) (Fin 0) = Fin (Rabs (PI / 2 - 0))
  /\ sphDist (Fin 1) (Fin (PI / 2)) (Fin 1) (Fin 0) = Fin (Rabs (PI / 2 - 0)).
Proof.
  apply (sphDist_equator_meridian (PI / 2) 0 1).
  pose proof PI_RGT_0. rewrite Rabs_right; lra.
Defined.

(** X4.  From the pole the distance is the colatitude of the other
    point, whatever the two right ascensions. *)
Theorem sphDist_from_pole (ra1 ra2 dec2 : R) :
  - (PI / 2) <= dec2 <= PI / 2 ->
  sphDist (Fin ra1) (Fin (PI / 2)) (Fin ra2) (Fin dec2) = Fin (PI / 2 - dec2).
Proof.
  intros [Hl Hu]. rewrite sphDist_Fin. unfold haversine. rewrite cos_PI2.
  f_equal.
  replace (sin ((PI / 2 - dec2) / 2) * sin ((PI / 2 - dec2) / 2)
           + 0 * cos dec2 * (sin ((ra1 - ra2) / 2) * sin ((ra1 - ra2) / 2)))
    with (sin ((PI / 2 - dec2) / 2) * sin ((PI / 2 - dec2) / 2)) by ring.
  rewrite half_angle_arc; rewrite Rabs_right; lra.
Qed.

(** The pole and a point of the equator. *)
Lemma sphDist_from_pole_witness :
  sphDist (Fin 3) (Fin (PI / 2)) (Fin 1) (Fin 0) = Fin (PI / 2 - 0).
Proof.
  apply sphDist_from_pole. pose proof PI_RGT_0. lra.
Defined.

End SphDistGeometry.

(** ** Unit conversions *)

Module UnitFacts.
Import Float Py NumPy CalcSrd Spec FloatFacts AnnulusFacts.
Local Open Scope R_scope.

(** X5.  An angle of [x] arcminutes, taken to radians and then to
    milliarcseconds, is [60000 * x]; both conversions keep the order of
    two angles. *)
Theorem arcmin_to_radians_to_milliarcsec (x y : R) :
  radiansToMilliarcsec (arcminToRadians (Fin x)) = Fin (60000 * x)
  /\ (fle (arcminToRadians (Fin x)) (arcminToRadians (Fin y)) = true
      <-> x <= y)
  /\ (fle (radiansToMilliarcsec (Fin x)) (radiansToMilliarcsec (Fin y)) = true
      <-> x <= y).
Proof.
  pose proof PI_RGT_0 as Hpi.
  assert (Hk : 0 < 180 / PI) by (apply Rdiv_lt_0_compat; lra).
  split; [| split].
  - rewrite arcminToRadians_Fin. unfold radiansToMilliarcsec, np_rad2deg.
    cbn [fmul]. f_equal. field. lra.
  - rewrite !arcminToRadians_Fin, fle_Fin. split; intros H; nra.
  - unfold radiansToMilliarcsec, np_rad2deg. cbn [fmul]. rewrite fle_Fin.
    split; intros H; nra.
Qed.

End UnitFacts.

(** ** matchVisitComputeDistance: further properties *)

Module MatchVisitMore.
Import Float Py NumPy CalcSrd Spec FloatFacts PyFacts SphDistFacts.
Import MatchVisitFacts SphDistGeometry.
Local Open Scope R_scope.

Lemma filter_Permutation {A} (f : A -> bool) (l l' : list A) :
  Permutation l l' -> Permutation (List.filter f l) (List.filter f l').
Proof.
  induction 1 as [| x l l' Hp IH | x y l | l l' l'' H1 IH1 H2 IH2]; simpl.
  - constructor.
  - destruct (f x); [now constructor | exact IH].
  - destruct (f x), (f y); try reflexivity. apply perm_swap.
  - now transitivity (List.filter f l').
Qed.

Lemma list_prod_cons_r {A B} (xs : list A) (y : B) (ys : list B) :
  Permutation (list_prod xs (y :: ys))
              (map (fun x => (x, y)) xs ++ list_prod xs ys).
Proof.
  induction xs as [| x xs IH]; simpl; [constructor |].
  constructor. rewrite IH.
  rewrite !app_assoc. apply Permutation_app_tail, Permutation_app_comm.
Qed.

(** The pairs of two lists, taken in the other order. *)
Lemma list_prod_swap {A B} (xs : list A) (ys : list B) :
  Permutation (list_prod ys xs)
              (map (fun p => (snd p, fst p)) (list_prod xs ys)).
Proof.
  induction xs as [| x xs IH]; simpl.
  - induction ys; simpl; [constructor | assumption].
  - rewrite list_prod_cons_r, map_app, map_map. cbn [fst snd].
    now apply Permutation_app_head.
Qed.


Section TwoObjects.

Variables (visit_obj1 : list Z) (ra_obj1 dec_obj1 : list float).
Variables (visit_obj2 : list Z) (ra_obj2 dec_obj2 : list float).

(** A selected pair has four finite coordinates, so that its distance is
    a number between 0 and pi. *)
Lemma pairDistance_selected (p : nat * nat) :
  In p (matchedIndexPairs visit_obj1 ra_obj1 dec_obj1
                          visit_obj2 ra_obj2 dec_obj2) ->
  exists a1 b1 a2 b2,
    nth (fst p) ra_obj1 NaN = Fin a1 /\ nth (fst p) dec_obj1 NaN = Fin b1
    /\ nth (snd p) ra_obj2 NaN = Fin a2 /\ nth (snd p) dec_obj2 NaN = Fin b2.
Proof.
  destruct p as [i j]. intros H.
  apply matchedIndexPairs_In in H. destruct H as [_ [H1 [H2 [H3 H4]]]].
  apply isfinite_Fin in H1, H2, H3, H4.
  destruct H1 as [a1 H1], H2 as [b1 H2], H3 as [a2 H3], H4 as [b2 H4].
  exists a1, b1, a2, b2. auto.
Qed.

Lemma selected_swap (p : nat * nat) :
  sameVisit visit_obj2 visit_obj1 (snd p) (fst p)
  && finiteCoords ra_obj2 dec_obj2 ra_obj1 dec_obj1 (snd p) (fst p)
  = sameVisit visit_obj1 visit_obj2 (fst p) (snd p)
    && finiteCoords ra_obj1 dec_obj1 ra_obj2 dec_obj2 (fst p) (snd p).
Proof.
  unfold sameVisit, finiteCoords. f_equal.
  - destruct (nth_error visit_obj1 (fst p)), (nth_error visit_obj2 (snd p));
      try reflexivity. apply Z.eqb_sym.
  - destruct (np_isfinite (nth (fst p) ra_obj1 NaN)),
      (np_isfinite (nth (fst p) dec_obj1 NaN)),
      (np_isfinite (nth (snd p) ra_obj2 NaN)),
      (np_isfinite (nth (snd p) dec_obj2 NaN)); reflexivity.
Qed.

(** The selected pairs of the two objects taken in the other order. *)
Lemma matchedIndexPairs_swap :
  Permutation
    (matchedIndexPairs visit_obj2 ra_obj2 dec_obj2
                       visit_obj1 ra_obj1 dec_obj1)
    (map (fun p => (snd p, fst p))
         (matchedIndexPairs visit_obj1 ra_obj1 dec_obj1
                            visit_obj2 ra_obj2 dec_obj2)).
Proof.
  unfold matchedIndexPairs.
  rewrite (filter_Permutation _ _ _
             (list_prod_swap (seq 0 (length visit_obj1))
                             (seq 0 (length visit_obj2)))).
  rewrite filter_map_swap. cbn [fst snd].
  erewrite (filter_ext _ _ selected_swap). reflexivity.
Qed.

End TwoObjects.

(** X6.  Exchanging the two objects gives the same distances, up to
    their order in the list. *)
Theorem matchVisitComputeDistance_exchange
  (visit_obj1 : list Z) (ra_obj1 dec_obj1 : list float)
  (visit_obj2 : list Z) (ra_obj2 dec_obj2 : list float) :
  length ra_obj1 = length visit_obj1 ->
  length dec_obj1 = length visit_obj1 ->
  length ra_obj2 = length visit_obj2 ->
  length dec_obj2 = length visit_obj2 ->
  exists l12 l21,
    matchVisitComputeDistance visit_obj1 ra_obj1 dec_obj1
                              visit_obj2 ra_obj2 dec_obj2 = Ok l12
    /\ matchVisitComputeDistance visit_obj2 ra_obj2 dec_obj2
                                 visit_obj1 ra_obj1 dec_obj1 = Ok l21
    /\ Permutation l12 l21.
Proof.
  intros L1 L2 L3 L4. do 2 eexists.
  split; [now apply matchVisitComputeDistance_pairs |].
  split; [now apply matchVisitComputeDistance_pairs |].
  rewrite (Permutation_map _ (matchedIndexPairs_swap _ _ _ _ _ _)).
  rewrite map_map.
  erewrite map_ext_in; [reflexivity |].
  intros p Hp. apply pairDistance_selected in Hp.
  destruct Hp as [a1 [b1 [a2 [b2 [E1 [E2 [E3 E4]]]]]]].
  unfold pairDistance. cbn [fst snd]. rewrite E1, E2, E3, E4.
  rewrite !sphDist_Fin. now rewrite haversine_sym.
Qed.

(** Two objects seen in visits 1, 2 and 2, 1. *)
Lemma matchVisitComputeDistance_exchange_witness :
  exists l12 l21,
    matchVisitComputeDistance [1; 2]%Z [Fin 0; Fin 1] [Fin 0; Fin 0]
                              [2; 1]%Z [Fin 2; Fin 3] [Fin 0; Fin 0] = Ok l12
    /\ matchVisitComputeDistance [2; 1]%Z [Fin 2; Fin 3] [Fin 0; Fin 0]
                                 [1; 2]%Z [Fin 0; Fin 1] [Fin 0; Fin 0]
       = Ok l21
    /\ Permutation l12 l21.
Proof.
  exact (matchVisitComputeDistance_exchange
           [1; 2]%Z [Fin 0; Fin 1] [Fin 0; Fin 0]
           [2; 1]%Z [Fin 2; Fin 3] [Fin 0; Fin 0]
           eq_refl eq_refl eq_refl eq_refl).
Defined.


(** X7.  There is at most one distance per pair of rows, and when no
    visit is listed twice within an object there are at most as many
    distances as the shorter object has rows. *)
Theorem matchVisitComputeDistance_count
  (visit_obj1 : list Z) (ra_obj1 dec_obj1 : list float)
  (visit_obj2 : list Z) (ra_obj2 dec_obj2 : list float) :
  length ra_obj1 = length visit_obj1 ->
  length dec_obj1 = length visit_obj1 ->
  length ra_obj2 = length visit_obj2 ->
  length dec_obj2 = length visit_obj2 ->
  exists distances,
    matchVisitComputeDistance visit_obj1 ra_obj1 dec_obj1
                              visit_obj2 ra_obj2 dec_obj2 = Ok distances
    /\ (length distances <= length visit_obj1 * length visit_obj2)%nat
    /\ (List.NoDup visit_obj1 -> List.NoDup visit_obj2 ->
        (length distances
         <= Nat.min (length visit_obj1) (length visit_obj2))%nat).
Proof.
  intros L1 L2 L3 L4. eexists.
  split; [now apply matchVisitComputeDistance_pairs |].
  rewrite length_map.
  set (pairs := matchedIndexPairs visit_obj1 ra_obj1 dec_obj1
                                  visit_obj2 ra_obj2 dec_obj2).
  split.
  - unfold pairs, matchedIndexPairs.
    rewrite filter_length_le, length_prod, !length_seq. lia.
  - intros N1 N2.
    assert (Hin : forall p, In p pairs ->
              exists v, nth_error visit_obj1 (fst p) = Some v
                        /\ nth_error visit_obj2 (snd p) = Some v).
    { intros [i j] Hp. apply matchedIndexPairs_In in Hp. tauto. }
    assert (Hfst : List.NoDup (map fst pairs)).
    { apply NoDup_map_NoDup_ForallPairs; [| apply matchedIndexPairs_NoDup].
      intros [i j] [i' j'] Hp Hq E. cbn [fst] in E. subst i'.
      destruct (Hin _ Hp) as [v [Hv1 Hv2]].
      destruct (Hin _ Hq) as [v' [Hv1' Hv2']]. cbn [fst snd] in *.
      assert (v' = v) by congruence. subst v'.
      f_equal. apply (proj1 (NoDup_nth_error visit_obj2) N2).
      - apply nth_error_Some. congruence.
      - congruence. }
    assert (Hsnd : List.NoDup (map snd pairs)).
    { apply NoDup_map_NoDup_ForallPairs; [| apply matchedIndexPairs_NoDup].
      intros [i j] [i' j'] Hp Hq E. cbn [snd] in E. subst j'.
      destruct (Hin _ Hp) as [v [Hv1 Hv2]].
      destruct (Hin _ Hq) as [v' [Hv1' Hv2']]. cbn [fst snd] in *.
      assert (v' = v) by congruence. subst v'.
      f_equal. apply (proj1 (NoDup_nth_error visit_obj1) N1).
      - apply nth_error_Some. congruence.
      - congruence. }
    apply NoDup_incl_length with (l' := seq 0 (length visit_obj1)) in Hfst.
    apply NoDup_incl_length with (l' := seq 0 (length visit_obj2)) in Hsnd.
    + rewrite length_map, length_seq in Hfst, Hsnd. lia.
    + intros j Hj. apply in_map_iff in Hj. destruct Hj as [p [<- Hp]].
      destruct (Hin _ Hp) as [v [_ Hv]]. apply in_seq.
      assert (snd p < length visit_obj2)%nat
        by (apply nth_error_Some; congruence). lia.
    + intros i Hi. apply in_map_iff in Hi. destruct Hi as [p [<- Hp]].
      destruct (Hin _ Hp) as [v [Hv _]]. apply in_seq.
      assert (fst p < length visit_obj1)%nat
        by (apply nth_error_Some; congruence). lia.
Qed.

(** An object of three rows against an object of two. *)
Lemma matchVisitComputeDistance_count_witness :
  exists distances,
    matchVisitComputeDistance [1; 2; 3]%Z [Fin 0; Fin 1; Fin 2]
                              [Fin 0; Fin 0; Fin 0]
                              [3; 1]%Z [Fin 4; Fin 5] [Fin 0; Fin 0]
    = Ok distances
    /\ (length distances <= 2)%nat.
Proof.
  destruct (matchVisitComputeDistance_count
              [1; 2; 3]%Z [Fin 0; Fin 1; Fin 2] [Fin 0; Fin 0; Fin 0]
              [3; 1]%Z [Fin 4; Fin 5] [Fin 0; Fin 0]
              eq_refl eq_refl eq_refl eq_refl) as [ds [E [_ H]]].
  exists ds. split; [exact E |]. apply H.
  - repeat constructor; simpl; intuition discriminate.
  - repeat constructor; simpl; intuition discriminate.
Defined.




(** *** Loops that can only raise IndexError *)

Lemma getitem_Ok_or_IndexError {A} (l : list A) (i : nat) :
  (exists a, getitem l i = Ok a) \/ getitem l i = Raise IndexError.
Proof. unfold getitem. destruct (nth_error l i); eauto. Qed.

Lemma for_Ok_or_IndexError {S} (xs : list nat)
  (body : nat -> S -> result S) :
  (forall x acc, (exists s, body x acc = Ok s) \/ body x acc = Raise IndexError) ->
  forall acc,
    (exists s, for_ xs body acc = Ok s) \/ for_ xs body acc = Raise IndexError.
Proof.
  intros Hb. induction xs as [| x xs IH]; intros acc; simpl; [eauto |].
  destruct (Hb x acc) as [[s ->] | ->]; [apply IH | now right].
Qed.

(** A loop with a turn that raises IndexError raises IndexError. *)
Lemma for_raises_IndexError {S} (xs : list nat)
  (body : nat -> S -> result S) (x0 : nat) :
  (forall x acc, (exists s, body x acc = Ok s) \/ body x acc = Raise IndexError) ->
  In x0 xs -> (forall acc, body x0 acc = Raise IndexError) ->
  forall acc, for_ xs body acc = Raise IndexError.
Proof.
  intros Hb Hin Hx0. induction xs as [| x xs IH]; intros acc; [contradiction |].
  simpl. destruct Hin as [-> | Hin].
  - now rewrite Hx0.
  - destruct (Hb x acc) as [[s ->] | ->]; [now apply IH | reflexivity].
Qed.

(** X9.  When two rows are of the same visit and one of the coordinate
    arrays is too short to hold the coordinate of its row,
    [matchVisitComputeDistance] raises IndexError. *)
Theorem matchVisitComputeDistance_short_coordinates
  (visit_obj1 : list Z) (ra_obj1 dec_obj1 : list float)
  (visit_obj2 : list Z) (ra_obj2 dec_obj2 : list float)
  (i j : nat) (v : Z) :
  nth_error visit_obj1 i = Some v ->
  nth_error visit_obj2 j = Some v ->
  (length ra_obj1 <= i \/ length dec_obj1 <= i
   \/ length ra_obj2 <= j \/ length dec_obj2 <= j)%nat ->
  matchVisitComputeDistance visit_obj1 ra_obj1 dec_obj1
                            visit_obj2 ra_obj2 dec_obj2
  = Raise IndexError.
Proof.
  intros Hv1 Hv2 Hshort. unfold matchVisitComputeDistance.
  assert (Hinner : forall i' j' acc,
    (exists s,
        (v1 <- getitem visit_obj1 i' ;;
         v2 <- getitem visit_obj2 j' ;;
         if Z.eqb v1 v2 then
           r1 <- getitem ra_obj1 i' ;;
           d1 <- getitem dec_obj1 i' ;;
           r2 <- getitem ra_obj2 j' ;;
           d2 <- getitem dec_obj2 j' ;;
           if all_finite [r1; d1; r2; d2]
           then Ok (acc ++ [sphDist r1 d1 r2 d2])
           else Ok acc
         else Ok acc)%py = Ok s)
    \/ (v1 <- getitem visit_obj1 i' ;;
        v2 <- getitem visit_obj2 j' ;;
        if Z.eqb v1 v2 then
          r1 <- getitem ra_obj1 i' ;;
          d1 <- getitem dec_obj1 i' ;;
          r2 <- getitem ra_obj2 j' ;;
          d2 <- getitem dec_obj2 j' ;;
          if all_finite [r1; d1; r2; d2]
          then Ok (acc ++ [sphDist r1 d1 r2 d2])
          else Ok acc
        else Ok acc)%py = Raise IndexError).
  { intros i' j' acc.
    destruct (getitem_Ok_or_IndexError visit_obj1 i') as [[a ->] | ->];
      [| now right]. cbn [bind].
    destruct (getitem_Ok_or_IndexError visit_obj2 j') as [[b ->] | ->];
      [| now right]. cbn [bind].
    destruct (Z.eqb a b); [| eauto].
    destruct (getitem_Ok_or_IndexError ra_obj1 i') as [[r1 ->] | ->];
      [| now right]. cbn [bind].
    destruct (getitem_Ok_or_IndexError dec_obj1 i') as [[d1 ->] | ->];
      [| now right]. cbn [bind].
    destruct (getitem_Ok_or_IndexError ra_obj2 j') as [[r2 ->] | ->];
      [| now right]. cbn [bind].
    destruct (getitem_Ok_or_IndexError dec_obj2 j') as [[d2 ->] | ->];
      [| now right]. cbn [bind].
    destruct (all_finite _); eauto. }
  apply (for_raises_IndexError _ _ i).
  - intros i' acc. apply for_Ok_or_IndexError. intros j' acc'. apply Hinner.
  - apply in_range, nth_error_Some. congruence.
  - intros acc. apply (for_raises_IndexError _ _ j).
    + intros j' acc'. apply Hinner.
    + apply in_range, nth_error_Some. congruence.
    + intros acc'. unfold getitem at 1 2. rewrite Hv1, Hv2. cbn [bind].
      rewrite Z.eqb_refl.
      destruct (getitem_Ok_or_IndexError ra_obj1 i) as [[r1 E1] | ->];
        [| reflexivity].
      destruct (getitem_Ok_or_IndexError dec_obj1 i) as [[d1 E2] | E2];
        [| rewrite E1, E2; reflexivity].
      destruct (getitem_Ok_or_IndexError ra_obj2 j) as [[r2 E3] | E3];
        [| rewrite E1, E2, E3; reflexivity].
      destruct (getitem_Ok_or_IndexError dec_obj2 j) as [[d2 E4] | E4];
        [| rewrite E1, E2, E3, E4; reflexivity].
      exfalso. unfold getitem in E1, E2, E3, E4.
      destruct Hshort as [H | [H | [H | H]]];
        apply nth_error_None in H.
      * rewrite H in E1. discriminate.
      * rewrite H in E2. discriminate.
      * rewrite H in E3. discriminate.
      * rewrite H in E4. discriminate.
Qed.

(** The second object has a visit and no declination. *)
Lemma matchVisitComputeDistance_short_coordinates_witness :
  matchVisitComputeDistance [1; 2]%Z [Fin 0; Fin 1] [Fin 0; Fin 0]
                            [2]%Z [Fin 0] []
  = Raise IndexError.
Proof.
  apply (matchVisitComputeDistance_short_coordinates
           [1; 2]%Z [Fin 0; Fin 1] [Fin 0; Fin 0] [2]%Z [Fin 0] []
           1 0 2%Z eq_refl eq_refl).
  right. right. right. simpl. lia.
Defined.

End MatchVisitMore.

(** ** getRandomDiff and getRandomDiffRmsInMas: arrays of any length *)

Module RandomDiffMore.
Import Float Py NumPy CalcSrd Spec FloatFacts PyFacts RandomDiffFacts.
Import PA2Facts MatchVisitMore.
Local Open Scope R_scope.

Lemma getRandomDiff_short (array : list float) (st : RandomState) :
  (length array < 2)%nat -> fst (getRandomDiff array st) = Raise IndexError.
Proof.
  intros Hlen. unfold getRandomDiff.
  pose proof (np_random_shuffle_Permutation array st) as Hp.
  destruct (np_random_shuffle array st) as [copy st']. cbn [fst] in *.
  apply Permutation_length in Hp.
  destruct copy as [| c0 [| c1 rest]]; simpl in Hp; try reflexivity. lia.
Qed.

(** X10.  On an array of two or more elements [getRandomDiff] returns
    the difference of two entries taken at two different places of the
    array; on a shorter array, the empty one included, it raises
    IndexError. *)
Theorem getRandomDiff_entries_or_IndexError (array : list float)
  (st : RandomState) :
  ((2 <= length array)%nat ->
   exists c0 c1 rest,
     fst (getRandomDiff array st) = Ok (fsub c0 c1)
     /\ Permutation (c0 :: c1 :: rest) array)
  /\ ((length array < 2)%nat ->
      fst (getRandomDiff array st) = Raise IndexError).
Proof.
  split; [apply getRandomDiff_two_places | apply getRandomDiff_short].
Qed.

(** Three magnitudes, and none. *)
Lemma getRandomDiff_entries_or_IndexError_witness :
  (exists c0 c1 rest,
      fst (getRandomDiff [Fin 1; Fin 2; Fin 4] (fun _ => 0%nat))
      = Ok (fsub c0 c1)
      /\ Permutation (c0 :: c1 :: rest) [Fin 1; Fin 2; Fin 4])
  /\ fst (getRandomDiff [] (fun _ => 0%nat)) = Raise IndexError.
Proof.
  split.
  - apply (proj1 (getRandomDiff_entries_or_IndexError
                    [Fin 1; Fin 2; Fin 4] (fun _ => 0%nat))).
    simpl. lia.
  - apply (proj2 (getRandomDiff_entries_or_IndexError [] (fun _ => 0%nat))).
    simpl. lia.
Defined.

(** [getRandomDiffRmsInMas] returns or raises IndexError. *)
Lemma getRandomDiffRmsInMas_Ok_or_IndexError (array : list float)
  (st : RandomState) :
  (exists d, fst (getRandomDiffRmsInMas array st) = Ok d)
  \/ fst (getRandomDiffRmsInMas array st) = Raise IndexError.
Proof.
  pose proof sqrt2_pos as Hs.
  unfold getRandomDiffRmsInMas, math_sqrt. rewrite Rsign_lt0_false by lra.
  destruct (Nat.le_gt_cases 2 (length array)) as [H | H].
  - destruct (getRandomDiff_two_places array st H) as [c0 [c1 [rest [E _]]]].
    destruct (getRandomDiff array st) as [r st']. cbn [fst] in *. subst r.
    left. eexists. reflexivity.
  - pose proof (getRandomDiff_short array st H) as E.
    destruct (getRandomDiff array st) as [r st']. cbn [fst] in *. subst r.
    now right.
Qed.

Lemma getRandomDiffRmsInMas_short (array : list float) (st : RandomState) :
  (length array < 2)%nat ->
  fst (getRandomDiffRmsInMas array st) = Raise IndexError.
Proof.
  intros H. pose proof sqrt2_pos as Hs.
  unfold getRandomDiffRmsInMas, math_sqrt. rewrite Rsign_lt0_false by lra.
  pose proof (getRandomDiff_short array st H) as E.
  destruct (getRandomDiff array st) as [r st']. cbn [fst] in *. now subst r.
Qed.

(** X11.  On two or more finite magnitudes [getRandomDiffRmsInMas]
    returns [1000/sqrt(2) * (x - y)] for two entries [x] and [y] taken at
    two different places; on exactly two magnitudes [a] and [b] its
    absolute value is [1000/sqrt(2) * |a - b|] whatever the state of the
    random source. *)
Theorem getRandomDiffRmsInMas_scaled_difference (st : RandomState) :
  (forall array : list float,
      (2 <= length array)%nat ->
      Forall (fun a => np_isfinite a = true) array ->
      exists x y rest,
        Permutation (Fin x :: Fin y :: rest) array
        /\ fst (getRandomDiffRmsInMas array st)
           = Ok (Fin (1000 / sqrt 2 * (x - y))))
  /\ (forall a b : R,
         exists d, fst (getRandomDiffRmsInMas [Fin a; Fin b] st) = Ok (Fin d)
                   /\ Rabs d = 1000 / sqrt 2 * Rabs (a - b)).
Proof.
  pose proof sqrt2_pos as Hs.
  assert (Hc : 0 < 1000 / sqrt 2) by (apply Rdiv_lt_0_compat; lra).
  assert (H1 : forall array : list float,
      (2 <= length array)%nat ->
      Forall (fun a => np_isfinite a = true) array ->
      exists x y rest,
        Permutation (Fin x :: Fin y :: rest) array
        /\ fst (getRandomDiffRmsInMas array st)
           = Ok (Fin (1000 / sqrt 2 * (x - y)))).
  { intros array Hlen Hfin.
    destruct (getRandomDiff_two_places array st Hlen)
      as [c0 [c1 [rest [Hr Hp]]]].
    rewrite Forall_forall in Hfin.
    assert (H0 : np_isfinite c0 = true)
      by (apply Hfin, (Permutation_in _ Hp); now left).
    assert (H1 : np_isfinite c1 = true)
      by (apply Hfin, (Permutation_in _ Hp); right; now left).
    apply isfinite_Fin in H0, H1. destruct H0 as [x ->], H1 as [y ->].
    exists x, y, rest. split; [exact Hp |].
    unfold getRandomDiffRmsInMas, math_sqrt. rewrite Rsign_lt0_false by lra.
    destruct (getRandomDiff array st) as [r st']. cbn [fst] in *. subst r.
    rewrite fdiv_Fin by lra. reflexivity. }
  split; [exact H1 |].
  intros a b.
  destruct (H1 [Fin a; Fin b]) as [x [y [rest [Hp E]]]];
    [simpl; lia | repeat constructor |].
  eexists. split; [exact E |].
  rewrite Rabs_mult, (Rabs_right (1000 / sqrt 2)) by lra. f_equal.
  pose proof (Permutation_length Hp) as Hl.
  destruct rest; [| discriminate].
  apply Permutation_length_2 in Hp.
  destruct Hp as [[E1 E2] | [E1 E2]]; inversion E1; inversion E2; subst.
  - reflexivity.
  - apply Rabs_minus_sym.
Qed.

(** The two magnitudes 24.2 and 25.5: the result is 1300/sqrt(2) or its
    opposite. *)
Lemma getRandomDiffRmsInMas_scaled_difference_witness :
  exists x y rest,
    Permutation (Fin x :: Fin y :: rest) [Fin (242 / 10); Fin (255 / 10)]
    /\ fst (getRandomDiffRmsInMas [Fin (242 / 10); Fin (255 / 10)]
                                  (fun _ => 0%nat))
       = Ok (Fin (1000 / sqrt 2 * (x - y))).
Proof.
  apply (proj1 (getRandomDiffRmsInMas_scaled_difference (fun _ => 0%nat))).
  - simpl. lia.
  - repeat constructor.
Defined.

End RandomDiffMore.

(** ** calcPA1 and calcPA2: when they raise and what they share *)

Module PAFacts.
Import Float Py NumPy CalcSrd Spec FloatFacts PyFacts NumPyFacts MedianFacts.
Import PercentileFacts RandomDiffFacts PA2Facts WidthsFacts RandomDiffMore.
Local Open Scope R_scope.

Lemma aggregate_random_Ok_or_IndexError (groupView : GroupView)
  (magKey : SourceRecord -> float) (st : RandomState) :
  (exists diffs,
      fst (aggregate_random getRandomDiffRmsInMas magKey groupView st)
      = Ok diffs /\ length diffs = length groupView)
  \/ fst (aggregate_random getRandomDiffRmsInMas magKey groupView st)
     = Raise IndexError.
Proof.
  revert st. induction groupView as [| cat gv IH]; intros st.
  - left. exists []. split; reflexivity.
  - cbn [aggregate_random].
    destruct (getRandomDiffRmsInMas_Ok_or_IndexError (get magKey cat) st)
      as [[d E] | E];
      destruct (getRandomDiffRmsInMas (get magKey cat) st) as [r st1];
      cbn [fst] in E; subst r; [| now right].
    destruct (IH st1) as [[diffs [E L]] | E];
      destruct (aggregate_random getRandomDiffRmsInMas magKey gv st1)
        as [r st2]; cbn [fst] in E; subst r; [| now right].
    left. exists (d :: diffs). split; [reflexivity | simpl; now rewrite L].
Qed.

Lemma aggregate_random_short_group (groupView : GroupView)
  (magKey : SourceRecord -> float) (st : RandomState) :
  Exists (fun cat => (length cat < 2)%nat) groupView ->
  fst (aggregate_random getRandomDiffRmsInMas magKey groupView st)
  = Raise IndexError.
Proof.
  intros Hex. revert st. induction Hex as [cat gv Hlen | cat gv Hex IH];
    intros st; cbn [aggregate_random].
  - pose proof (getRandomDiffRmsInMas_short (get magKey cat) st) as E.
    destruct (getRandomDiffRmsInMas (get magKey cat) st) as [r st1].
    cbn [fst] in E. rewrite E; [reflexivity |].
    unfold get. now rewrite length_map.
  - destruct (getRandomDiffRmsInMas_Ok_or_IndexError (get magKey cat) st)
      as [[d E] | E];
      destruct (getRandomDiffRmsInMas (get magKey cat) st) as [r st1];
      cbn [fst] in E; subst r; [| reflexivity].
    specialize (IH st1).
    destruct (aggregate_random getRandomDiffRmsInMas magKey gv st1)
      as [r st2]. cbn [fst] in IH. now subst r.
Qed.

(** [np.percentile] at the three ranks of [calcPA2] returns on a
    non-empty array. *)
Lemma np_percentile_PF1_returns (a : list float) :
  a <> [] ->
  exists p80 p90 p95,
    np_percentile1 a 80 = Ok p80 /\ np_percentile1 a 90 = Ok p90
    /\ np_percentile1 a 95 = Ok p95
    /\ np_percentile a [80; 90; 95]%nat = Ok [p80; p90; p95].
Proof.
  intros Hne.
  destruct (np_percentile1_returns a 80 Hne ltac:(lia)) as [p80 H80].
  destruct (np_percentile1_returns a 90 Hne ltac:(lia)) as [p90 H90].
  destruct (np_percentile1_returns a 95 Hne ltac:(lia)) as [p95 H95].
  exists p80, p90, p95. repeat split; try assumption.
  cbn [np_percentile]. now rewrite H80, H90, H95.
Qed.

(** [computeWidths] returns on a non-empty array. *)
Lemma computeWidths_returns (norm_ppf : float -> float) (array : list float) :
  array <> [] -> exists w, computeWidths norm_ppf array = Ok w.
Proof.
  intros Hne.
  destruct (np_percentile1_returns array 75 Hne ltac:(lia)) as [p75 H75].
  destruct (np_percentile1_returns array 25 Hne ltac:(lia)) as [p25 H25].
  unfold computeWidths. rewrite rms_returns. cbn [bind np_percentile].
  rewrite H75, H25. cbn [bind np_subtract_reduce]. eauto.
Qed.

(** X12.  [calcPA1] and [calcPA2] raise IndexError when the view has no
    group, and when one of its groups has fewer than two rows. *)
Theorem calcPA_raise_IndexError (norm_ppf : float -> float)
  (groupView : GroupView) (magKey : SourceRecord -> float)
  (st : RandomState) :
  groupView = [] \/ Exists (fun cat => (length cat < 2)%nat) groupView ->
  fst (calcPA1 norm_ppf groupView magKey st) = Raise IndexError
  /\ fst (calcPA2 groupView magKey st) = Raise IndexError.
Proof.
  intros [-> | Hex].
  - unfold calcPA1, calcPA2. cbn [aggregate_random fst].
    now rewrite computeWidths_empty.
  - pose proof (aggregate_random_short_group groupView magKey st Hex) as E.
    unfold calcPA1, calcPA2.
    destruct (aggregate_random getRandomDiffRmsInMas magKey groupView st)
      as [r st']. cbn [fst] in E. subst r. split; reflexivity.
Qed.

(** A view whose second group has a single row. *)
Lemma calcPA_raise_IndexError_witness :
  fst (calcPA1 (fun _ => Fin 1)
               [[mkRow 1 1 (Fin 0) (Fin 0) (Fin 20);
                 mkRow 1 2 (Fin 0) (Fin 0) (Fin 21)];
                [mkRow 2 1 (Fin 1) (Fin 0) (Fin 20)]]
               base_PsfFlux_mag zeroDraws) = Raise IndexError
  /\ fst (calcPA2 [[mkRow 1 1 (Fin 0) (Fin 0) (Fin 20);
                    mkRow 1 2 (Fin 0) (Fin 0) (Fin 21)];
                   [mkRow 2 1 (Fin 1) (Fin 0) (Fin 20)]]
                  base_PsfFlux_mag zeroDraws) = Raise IndexError.
Proof.
  apply calcPA_raise_IndexError. right.
  apply Exists_cons_tl, Exists_cons_hd. simpl. lia.
Defined.

(** X13.  With the same view, magnitude field and state of the random
    source, [calcPA1] returns exactly when [calcPA2] returns; the two
    leave the random source in the same state, and the thresholds of
    [calcPA2] are the 80th, 90th and 95th percentiles of the absolute
    values of the differences that [calcPA1] reports. *)
Theorem calcPA1_calcPA2_same_differences (norm_ppf : float -> float)
  (groupView : GroupView) (magKey : SourceRecord -> float)
  (st : RandomState) :
  snd (calcPA1 norm_ppf groupView magKey st)
  = snd (calcPA2 groupView magKey st)
  /\ (forall p, fst (calcPA1 norm_ppf groupView magKey st) = Ok p ->
      exists s,
        fst (calcPA2 groupView magKey st) = Ok s
        /\ np_percentile1 (map fabs (pa1_diffs p)) 80 = Ok (minimum s)
        /\ np_percentile1 (map fabs (pa1_diffs p)) 90 = Ok (design s)
        /\ np_percentile1 (map fabs (pa1_diffs p)) 95 = Ok (stretch s))
  /\ (forall s, fst (calcPA2 groupView magKey st) = Ok s ->
      exists p, fst (calcPA1 norm_ppf groupView magKey st) = Ok p).
Proof.
  unfold calcPA1, calcPA2.
  destruct (aggregate_random getRandomDiffRmsInMas magKey groupView st)
    as [[diffs | e] st'];
    [| repeat split; intros ? H; discriminate H].
  cbn [fst snd map PF1_minimum PF1_design PF1_stretch Nat.sub].
  split; [reflexivity |].
  destruct diffs as [| d0 diffs0] eqn:Ed.
  - rewrite computeWidths_empty. split; intros ? H; discriminate H.
  - rewrite <- Ed.
    assert (Hne : diffs <> []) by (rewrite Ed; discriminate).
    assert (Hne' : map fabs diffs <> [])
      by (rewrite Ed; discriminate).
    destruct (np_percentile_PF1_returns _ Hne')
      as [p80 [p90 [p95 [H80 [H90 [H95 Hall]]]]]].
    destruct (computeWidths_returns norm_ppf diffs Hne) as [w Hw].
    rewrite Hall, Hw. cbn [bind]. split.
    + intros p Hp. injection Hp as <-. cbn [pa1_diffs].
      eexists. split; [reflexivity |]. cbn [minimum design stretch]. auto.
    + intros s _. eexists. reflexivity.
Qed.


(** [calcPA2] returns on the two variables, so [calcPA1] returns on them. *)
Lemma calcPA1_calcPA2_same_differences_witness :
  exists p,
    fst (calcPA1 (fun _ => Fin 1) twoVariables base_PsfFlux_mag zeroDraws)
    = Ok p.
Proof.
  exact (proj2 (proj2 (calcPA1_calcPA2_same_differences
                         (fun _ => Fin 1) twoVariables base_PsfFlux_mag
                         zeroDraws))
               _ twoVariables_result).
Defined.

End PAFacts.

(** ** computeWidths: bounds, constant arrays, NaN *)

Module WidthsMore.
Import Float Py NumPy CalcSrd Spec FloatFacts PyFacts NumPyFacts MedianFacts.
Import PercentileFacts PA2Facts WidthsFacts PAFacts.
Local Open Scope R_scope.

Lemma Rsort_In (l : list R) (x : R) : In x (Rsort l) <-> In x l.
Proof.
  induction l as [| y l IH]; simpl; [tauto |].
  rewrite Rinsert_In, IH. intuition.
Qed.

(** A percentile lies between two values of the sample. *)
Lemma percentileR_in_hull (l : list R) (q : nat) :
  l <> [] -> (q <= 100)%nat ->
  exists a b, In a l /\ In b l /\ a <= percentileR l q <= b.
Proof.
  intros Hne Hq.
  pose proof (percentileR_between l q Hne Hq) as Hb. cbv zeta in Hb.
  assert (Hn : (0 < length (Rsort l))%nat).
  { rewrite Rsort_length. destruct l; [contradiction | simpl; lia]. }
  destruct (percentile_ranks (length (Rsort l)) q Hn Hq) as [Hr _].
  eexists. eexists. split; [| split; [| exact Hb]].
  - apply Rsort_In, nth_In. lia.
  - apply Rsort_In, nth_In. lia.
Qed.

Lemma sum_bounds (l : list R) (lo hi acc : R) :
  (forall x, In x l -> lo <= x <= hi) ->
  acc + INR (length l) * lo <= fold_left Rplus l acc
  <= acc + INR (length l) * hi.
Proof.
  revert acc. induction l as [| y l IH]; intros acc H.
  - simpl. lra.
  - cbn [fold_left length]. rewrite S_INR.
    specialize (IH (acc + y) (fun x Hx => H x (or_intror Hx))).
    pose proof (H y (or_introl eq_refl)). lra.
Qed.

(** The mean of a sample lies between any two bounds of its values. *)
Lemma meanR_bounds (l : list R) (lo hi : R) :
  l <> [] -> (forall x, In x l -> lo <= x <= hi) -> lo <= meanR l <= hi.
Proof.
  intros Hne H. unfold meanR.
  pose proof (sum_bounds l lo hi 0 H) as [H1 H2].
  assert (Hn : 0 < INR (length l)).
  { apply lt_0_INR. destruct l; [contradiction | simpl; lia]. }
  split.
  - apply Rmult_le_reg_r with (r := INR (length l)); [exact Hn |].
    unfold Rdiv. rewrite Rmult_assoc, Rinv_l by lra. lra.
  - apply Rmult_le_reg_r with (r := INR (length l)); [exact Hn |].
    unfold Rdiv. rewrite Rmult_assoc, Rinv_l by lra. lra.
Qed.

(** The root mean square lies between any two bounds of the absolute
    values. *)
Lemma rmsR_bounds (l : list R) (lo hi : R) :
  l <> [] -> 0 <= lo -> (forall x, In x l -> lo <= Rabs x <= hi) ->
  lo <= rmsR l <= hi.
Proof.
  intros Hne Hlo H. unfold rmsR.
  assert (Hhi : lo <= hi).
  { destruct l as [| x l]; [contradiction |].
    pose proof (H x (or_introl eq_refl)). lra. }
  assert (Hm : lo * lo <= meanR (map (fun x => x * x) l) <= hi * hi).
  { apply meanR_bounds; [destruct l; [contradiction | discriminate] |].
    intros y Hy. apply in_map_iff in Hy. destruct Hy as [x [<- Hx]].
    specialize (H x Hx). replace (x * x) with (Rabs x * Rabs x).
    - split; nra.
    - fold (Rsqr (Rabs x)). rewrite <- Rsqr_abs. reflexivity. }
  split.
  - rewrite <- (sqrt_square lo) at 1 by lra. apply sqrt_le_1; nra.
  - rewrite <- (sqrt_square hi) by lra. apply sqrt_le_1; nra.
Qed.


(** [computeWidths] on finite values. *)
Lemma computeWidths_Fin (norm_ppf : float -> float) (l : list R) (z : R) :
  l <> [] -> norm_ppf (Fin (3 / 4)) = Fin z -> z <> 0 ->
  computeWidths norm_ppf (map Fin l)
  = Ok (Fin (rmsR l),
        Fin ((percentileR l 75 - percentileR l 25) / (2 * z))).
Proof.
  intros Hne Hz Hz0. unfold computeWidths.
  rewrite rms_returns, rms_Fin by exact Hne. cbn [bind].
  rewrite np_percentile_Fin by (try assumption; repeat constructor; lia).
  cbn [bind map np_subtract_reduce fold_left fsub fopp fadd].
  rewrite Hz. cbn [fmul]. rewrite fdiv_Fin by lra.
  replace (z * 2) with (2 * z) by ring. reflexivity.
Qed.

(** A number of magnitude between 1 and 4 is in the range. *)
Lemma squareInRange_unit (x : R) : 1 <= Rabs x <= 4 -> squareInRange x.
Proof.
  intros [H1 H4]. right. split.
  - apply Rle_trans with (r2 := 1); [| exact H1].
    rewrite <- Rinv_1. apply Rinv_le_contravar; [lra |].
    apply pow_R1_Rle. lra.
  - apply Rle_trans with (r2 := 2 ^ 2); [simpl; lra |].
    apply Rle_pow; [lra | lia].
Qed.

(** X14.  On a non-empty array of numbers in the range where squares
    neither overflow nor underflow in binary64 (each element is 0 or of
    magnitude between [2^-500] and [2^480]; beyond that range the code
    returns an infinite or a zero rms, which real-number arithmetic does
    not show), whose absolute values lie between [lo] and [hi]: the rms
    that [computeWidths] returns lies between [lo] and [hi], and the
    scaled interquartile range lies between 0 and [hi / z], where
    [z > 0] is the value of the inverse normal distribution function at
    0.75.  Finite values being real numbers, this is up to rounding. *)
Theorem computeWidths_bounds (norm_ppf : float -> float) (l : list R)
  (z lo hi : R) :
  l <> [] -> norm_ppf (Fin (3 / 4)) = Fin z -> 0 < z -> 0 <= lo ->
  (forall x, In x l -> squareInRange x) ->
  (forall x, In x l -> lo <= Rabs x <= hi) ->
  exists rms iqr,
    computeWidths norm_ppf (map Fin l) = Ok (Fin rms, Fin iqr)
    /\ lo <= rms <= hi
    /\ 0 <= iqr <= hi / z.
Proof.
  intros Hne Hz Hz0 Hlo _ Hb.
  rewrite (computeWidths_Fin norm_ppf l z Hne Hz) by lra.
  do 2 eexists. split; [reflexivity |]. split; [now apply rmsR_bounds |].
  pose proof (percentileR_monotone l 25 75 Hne ltac:(lia)) as Hmono.
  destruct (percentileR_in_hull l 75 Hne ltac:(lia)) as [_ [b [_ [Hb75 [_ H75]]]]].
  destruct (percentileR_in_hull l 25 Hne ltac:(lia)) as [a [_ [Ha25 [_ [H25 _]]]]].
  pose proof (Hb b Hb75) as [_ Hbhi]. pose proof (Hb a Ha25) as [_ Hahi].
  pose proof (Rle_abs b). pose proof (Rle_abs (- a)). rewrite Rabs_Ropp in *.
  assert (H2z : 0 < 2 * z) by lra.
  split.
  - apply Rmult_le_reg_r with (r := 2 * z); [exact H2z |].
    unfold Rdiv. rewrite Rmult_assoc, Rinv_l by lra. lra.
  - apply Rmult_le_reg_r with (r := 2 * z); [exact H2z |].
    unfold Rdiv. rewrite !Rmult_assoc, Rinv_l by lra.
    replace (hi * (/ z * (2 * z))) with (2 * hi) by (field; lra). lra.
Qed.

(** The array [3, -4] with 0.6745 for the value at 0.75. *)
Lemma computeWidths_bounds_witness :
  exists rms iqr,
    computeWidths (fun _ => Fin (6745 / 10000)) [Fin 3; Fin (-4)]
    = Ok (Fin rms, Fin iqr)
    /\ 3 <= rms <= 4
    /\ 0 <= iqr <= 4 / (6745 / 10000).
Proof.
  apply (computeWidths_bounds (fun _ => Fin (6745 / 10000)) [3; -4]
                              (6745 / 10000) 3 4).
  - discriminate.
  - reflexivity.
  - lra.
  - lra.
  - intros x [<- | [<- | []]]; apply squareInRange_unit.
    + rewrite Rabs_right; lra.
    + rewrite Rabs_left; lra.
  - intros x [<- | [<- | []]].
    + rewrite Rabs_right; lra.
    + rewrite Rabs_left; lra.
Defined.

Lemma computeWidths_all_equal (norm_ppf : float -> float) (l : list R)
  (z c : R) :
  l <> [] -> norm_ppf (Fin (3 / 4)) = Fin z -> z <> 0 ->
  (forall x, In x l -> x = c) ->
  computeWidths norm_ppf (map Fin l) = Ok (Fin (Rabs c), Fin 0).
Proof.
  intros Hne Hz Hz0 Hc.
  rewrite (computeWidths_Fin norm_ppf l z Hne Hz Hz0).
  assert (Hr : Rabs c <= rmsR l <= Rabs c).
  { apply rmsR_bounds; [exact Hne | apply Rabs_pos |].
    intros x Hx. rewrite (Hc x Hx). lra. }
  assert (Hp : forall q, (q <= 100)%nat -> percentileR l q = c).
  { intros q Hq.
    destruct (percentileR_in_hull l q Hne Hq) as [a [b [Ha [Hb H]]]].
    rewrite (Hc a Ha), (Hc b Hb) in H. lra. }
  rewrite !Hp by lia. do 2 f_equal.
  - f_equal. lra.
  - f_equal. unfold Rdiv. rewrite Rminus_diag. ring.
Qed.

(** X15.  On a non-empty array whose elements all equal [c], a number
    in the range where squares neither overflow nor underflow in
    binary64 (0, or of magnitude between [2^-500] and [2^480]; beyond
    that range the code returns an infinite or a zero rms, which
    real-number arithmetic does not show), [computeWidths] returns the
    rms [|c|], up to rounding, and the interquartile range 0. *)
Theorem computeWidths_constant (norm_ppf : float -> float) (l : list R)
  (z c : R) :
  l <> [] -> norm_ppf (Fin (3 / 4)) = Fin z -> z <> 0 ->
  squareInRange c ->
  (forall x, In x l -> x = c) ->
  computeWidths norm_ppf (map Fin l) = Ok (Fin (Rabs c), Fin 0).
Proof.
  intros Hne Hz Hz0 _ Hc.
  exact (computeWidths_all_equal norm_ppf l z c Hne Hz Hz0 Hc).
Qed.

(** Three copies of -2. *)
Lemma computeWidths_constant_witness :
  computeWidths (fun _ => Fin (6745 / 10000)) [Fin (-2); Fin (-2); Fin (-2)]
  = Ok (Fin (Rabs (-2)), Fin 0).
Proof.
  apply (computeWidths_constant (fun _ => Fin (6745 / 10000))
                                [-2; -2; -2] (6745 / 10000) (-2)).
  - discriminate.
  - reflexivity.
  - lra.
  - apply squareInRange_unit. rewrite Rabs_left; lra.
  - intros x [<- | [<- | [<- | []]]]; reflexivity.
Defined.


Lemma fadd_NaN_r (a : float) : fadd a NaN = NaN.
Proof. destruct a; reflexivity. Qed.

Lemma fold_fadd_NaN (l : list float) : fold_left fadd l NaN = NaN.
Proof. induction l as [| x l IH]; simpl; [reflexivity | exact IH]. Qed.

Lemma fsum_NaN (l : list float) : In NaN l -> fsum l = NaN.
Proof.
  unfold fsum. generalize (Fin 0) as acc.
  induction l as [| x l IH]; intros acc Hin; [contradiction |].
  destruct Hin as [Hx | Hx]; simpl.
  - subst x. rewrite fadd_NaN_r. apply fold_fadd_NaN.
  - now apply IH.
Qed.

Lemma existsb_isnan_In (l : list float) :
  In NaN l -> existsb np_isnan l = true.
Proof.
  intros H. apply existsb_exists. exists NaN. split; [exact H | reflexivity].
Qed.

(** X16.  When an element of the array is NaN, [computeWidths] does not
    raise and returns NaN for the rms and NaN for the interquartile
    range. *)
Theorem computeWidths_NaN (norm_ppf : float -> float) (array : list float) :
  In NaN array -> computeWidths norm_ppf array = Ok (NaN, NaN).
Proof.
  intros Hin. unfold computeWidths.
  assert (Hs : np_mean (map (fun x => fsquare x) array) = NaN).
  { unfold np_mean. rewrite fsum_NaN; [reflexivity |].
    apply in_map_iff. exists NaN. split; [reflexivity | exact Hin]. }
  rewrite Hs. cbn [math_sqrt bind np_percentile].
  assert (Hp : forall q, np_percentile1 array q = Ok NaN).
  { intros q. unfold np_percentile1.
    destruct array as [| x0 a0] eqn:E; [contradiction |]. rewrite <- E in *.
    now rewrite existsb_isnan_In. }
  rewrite !Hp. reflexivity.
Qed.

(** An array with a NaN between two numbers. *)
Lemma computeWidths_NaN_witness :
  computeWidths (fun _ => Fin 1) [Fin 1; NaN; Fin 2] = Ok (NaN, NaN).
Proof.
  apply computeWidths_NaN. right. now left.
Defined.

End WidthsMore.

(** ** calcOrNone *)

Module CalcOrNoneFacts.
Import Float Py NumPy CalcSrd Spec WidthsFacts PAFacts RandomDiffMore.
Import Util.

(** X17.  [calcOrNone] applied to [computeWidths], with an error class
    that IndexError belongs to, never raises: it returns None on the
    empty array and the widths on every other array. *)
Theorem calcOrNone_computeWidths (norm_ppf : float -> float)
  (array : list float) (ErrorClass : exn -> bool) :
  ErrorClass IndexError = true ->
  (array = [] ->
   calcOrNone (computeWidths norm_ppf) array ErrorClass = Ok None)
  /\ (array <> [] ->
      exists w, computeWidths norm_ppf array = Ok w
                /\ calcOrNone (computeWidths norm_ppf) array ErrorClass
                   = Ok (Some w)).
Proof.
  intros Hc. unfold calcOrNone. split.
  - intros ->. now rewrite computeWidths_empty, Hc.
  - intros Hne. destruct (computeWidths_returns norm_ppf array Hne) as [w Hw].
    exists w. now rewrite Hw.
Qed.

(** The class IndexError itself, on the empty array. *)
Lemma calcOrNone_computeWidths_witness :
  calcOrNone (computeWidths (fun _ => Fin 1)) []
             (fun e => match e with IndexError => true | _ => false end)
  = Ok None.
Proof.
  apply (proj1 (calcOrNone_computeWidths
                  (fun _ => Fin 1) []
                  (fun e => match e with IndexError => true | _ => false end)
                  eq_refl)).
  reflexivity.
Defined.

End CalcOrNoneFacts.

(** ** calcPA1 and calcPA2 on well-formed views *)

Module PAMore.
Import Float Py NumPy CalcSrd Spec FloatFacts PyFacts NumPyFacts MedianFacts.
Import PercentileFacts RandomDiffFacts PA2Facts WidthsFacts PAFacts WidthsMore.
Local Open Scope R_scope.

Lemma rmsR_nonneg (l : list R) : 0 <= rmsR l.
Proof. unfold rmsR. apply sqrt_pos. Qed.

Lemma finiteValues_Fin (l : list R) : finiteValues (map Fin l) = l.
Proof.
  induction l as [| x l IH]; simpl; [reflexivity | now rewrite IH].
Qed.

(** X18.  On a non-empty view whose groups have two or more rows each,
    with finite magnitudes, [calcPA1] returns: one difference and one
    mean per group, the mean of a group being the arithmetic mean of its
    magnitudes; the rms is the root mean square of the differences and
    is not negative, and neither is the scaled interquartile range. *)
Theorem calcPA1_well_formed (norm_ppf : float -> float)
  (groupView : GroupView) (magKey : SourceRecord -> float)
  (st : RandomState) (z : R) :
  groupView <> [] ->
  Forall (fun cat => (2 <= length cat)%nat
                     /\ Forall (fun a => np_isfinite a = true) (get magKey cat))
         groupView ->
  norm_ppf (Fin (3 / 4)) = Fin z -> 0 < z ->
  exists p st' iqr,
    calcPA1 norm_ppf groupView magKey st = (Ok p, st')
    /\ length (pa1_diffs p) = length groupView
    /\ pa1_means p
       = map (fun cat => Fin (meanR (finiteValues (get magKey cat)))) groupView
    /\ pa1_rms p = Fin (rmsR (finiteValues (pa1_diffs p)))
    /\ 0 <= rmsR (finiteValues (pa1_diffs p))
    /\ pa1_iqr p = Fin iqr
    /\ 0 <= iqr.
Proof.
  intros Hne Hall Hz Hz0.
  destruct (aggregate_random_finite groupView magKey st Hall)
    as [diffs [st' [Hagg [Hlen Hfin]]]].
  pose proof (all_finite_values diffs Hfin) as Ed.
  remember (finiteValues diffs) as zs eqn:Ezs. clear Ezs. subst diffs.
  assert (Hzs : zs <> []).
  { destruct zs; [| discriminate]. destruct groupView; [contradiction |].
    discriminate. }
  unfold calcPA1. rewrite Hagg.
  rewrite (computeWidths_Fin norm_ppf _ z Hzs Hz) by lra. cbn [bind fst snd].
  do 3 eexists. split; [reflexivity |].
  cbn [pa1_diffs pa1_means pa1_rms pa1_iqr]. rewrite finiteValues_Fin.
  split; [exact Hlen |]. split; [| split; [reflexivity | split;
    [apply rmsR_nonneg | split; [reflexivity |]]]].
  - apply map_ext_in. intros cat Hcat.
    rewrite Forall_forall in Hall. destruct (Hall cat Hcat) as [Hl Hf].
    pose proof (all_finite_values _ Hf) as Ec.
    remember (finiteValues (get magKey cat)) as ms eqn:Ems. clear Ems.
    rewrite Ec, np_mean_Fin; [reflexivity |].
    intros E. rewrite E in Ec. unfold get in Ec.
    apply (f_equal (@length float)) in Ec. rewrite length_map in Ec.
    simpl in Ec. lia.
  - pose proof (percentileR_monotone zs 25 75 Hzs ltac:(lia)) as Hm.
    apply Rmult_le_reg_r with (r := 2 * z); [lra |].
    unfold Rdiv. rewrite Rmult_assoc, Rinv_l by lra. lra.
Qed.

(** The two variables, with 0.6745 for the value at 0.75. *)
Lemma calcPA1_well_formed_witness :
  exists p st',
    calcPA1 (fun _ => Fin (6745 / 10000)) twoVariables base_PsfFlux_mag
            zeroDraws = (Ok p, st')
    /\ length (pa1_diffs p) = 2%nat.
Proof.
  destruct (calcPA1_well_formed
              (fun _ => Fin (6745 / 10000)) twoVariables base_PsfFlux_mag
              zeroDraws (6745 / 10000))
    as [p [st' [iqr [E [L _]]]]].
  - discriminate.
  - repeat constructor.
  - reflexivity.
  - lra.
  - exists p, st'. split; [exact E | exact L].
Defined.


(** The thresholds of [calcPA2] lie between two of the absolute
    differences. *)
Lemma abs_percentile_hull (zs : list R) (q : nat) :
  zs <> [] -> (q <= 100)%nat ->
  exists a b,
    In a zs /\ In b zs
    /\ 0 <= Rabs a <= percentileR (map Rabs zs) q
    /\ percentileR (map Rabs zs) q <= Rabs b.
Proof.
  intros Hne Hq.
  assert (Hne' : map Rabs zs <> [])
    by (destruct zs; [contradiction | discriminate]).
  destruct (percentileR_in_hull (map Rabs zs) q Hne' Hq)
    as [a' [b' [Ha [Hb H]]]].
  apply in_map_iff in Ha, Hb.
  destruct Ha as [a [<- Ha]], Hb as [b [<- Hb]].
  exists a, b. pose proof (Rabs_pos a). repeat split; try assumption; lra.
Qed.

(** X19.  When the per-group differences are a non-empty array of
    finite numbers, each threshold of [calcPA2] lies between the
    absolute values of two of the differences: no threshold is negative
    and none exceeds the largest absolute difference. *)
Theorem calcPA2_thresholds_within_differences (groupView : GroupView)
  (magKey : SourceRecord -> float) (st st' : RandomState)
  (diffs : list float) :
  aggregate_random getRandomDiffRmsInMas magKey groupView st
  = (Ok diffs, st') ->
  diffs <> [] ->
  Forall (fun d => np_isfinite d = true) diffs ->
  exists s,
    calcPA2 groupView magKey st = (Ok s, st')
    /\ forall t, In t [minimum s; design s; stretch s] ->
       exists a b x,
         In (Fin a) diffs /\ In (Fin b) diffs /\ t = Fin x
         /\ 0 <= Rabs a <= x /\ x <= Rabs b.
Proof.
  intros Hagg Hne Hfin.
  pose proof (all_finite_values diffs Hfin) as Ed.
  remember (finiteValues diffs) as zs eqn:Ezs. clear Ezs. subst diffs.
  assert (Hzs : zs <> []) by (destruct zs; [contradiction | discriminate]).
  eexists. split; [apply (calcPA2_percentiles _ _ _ _ _ Hagg Hzs) |].
  cbn [minimum design stretch].
  intros t Ht.
  assert (Hq : exists q, (q <= 100)%nat /\ t = Fin (percentileR (map Rabs zs) q)).
  { destruct Ht as [<- | [<- | [<- | []]]]; eexists; (split; [| reflexivity]); lia. }
  destruct Hq as [q [Hq ->]].
  destruct (abs_percentile_hull zs q Hzs Hq) as [a [b [Ha [Hb [H1 H2]]]]].
  exists a, b, (percentileR (map Rabs zs) q).
  repeat split; try (apply in_map; assumption); lra.
Qed.

(** The thresholds on the two variables. *)
Lemma calcPA2_thresholds_within_differences_witness :
  exists s,
    calcPA2 twoVariables base_PsfFlux_mag zeroDraws = (Ok s, zeroDraws)
    /\ exists a b x,
         minimum s = Fin x /\ 0 <= Rabs a <= x /\ x <= Rabs b.
Proof.
  destruct (calcPA2_thresholds_within_differences
              twoVariables base_PsfFlux_mag zeroDraws zeroDraws _
              twoVariables_diffs ltac:(discriminate)
              ltac:(repeat constructor)) as [s [E H]].
  exists s. split; [exact E |].
  destruct (H (minimum s) (or_introl eq_refl))
    as [a [b [x [_ [_ [Ex [H1 H2]]]]]]].
  exists a, b, x. auto.
Defined.





End PAMore.

(** ** calcAMx: the size and the sign of the result *)

Module AMxMore.
Import Float Py NumPy CalcSrd Spec FloatFacts PyFacts NumPyFacts.
Import MedianFacts MatchVisitFacts SphDistFacts AnnulusFacts AMxFacts.
Import MatchVisitMore WidthsMore.
Local Open Scope R_scope.

Lemma where_from_length (i : nat) (mask : list bool) :
  (length (where_from i mask) <= length mask)%nat.
Proof.
  revert i. induction mask as [| b mask IH]; intros i; simpl; [lia |].
  destruct b; simpl; specialize (IH (S i)); lia.
Qed.

(** There are at most as many indices as later objects. *)
Lemma annulusIndices_length (annulusRadians : float * float)
  (means : list (float * float)) (obj1 : nat) :
  (length (annulusIndices annulusRadians means obj1)
   <= length means - 1 - obj1)%nat.
Proof.
  unfold annulusIndices, objectsInAnnulus, np_where.
  rewrite where_from_length. unfold sphDist_array.
  rewrite !length_map, length_combine, !length_skipn, !length_map. lia.
Qed.

Lemma pairSample_length (g1 g2 : Catalog) :
  (length (pairSample g1 g2) <= 1)%nat.
Proof. unfold pairSample. destruct (finiteValues _); simpl; lia. Qed.

Lemma flat_map_length_le {A B} (f : A -> list B) (g : A -> nat)
  (l : list A) :
  (forall x, In x l -> (length (f x) <= g x)%nat) ->
  (length (flat_map f l) <= list_sum (map g l))%nat.
Proof.
  induction l as [| x l IH]; intros H; simpl; [lia |].
  rewrite length_app. specialize (H x (or_introl eq_refl)) as Hx.
  specialize (IH (fun y Hy => H y (or_intror Hy))). lia.
Qed.

Lemma list_sum_cons (a : nat) (l : list nat) :
  list_sum (a :: l) = (a + list_sum l)%nat.
Proof. reflexivity. Qed.

Lemma list_sum_shift (n : nat) (l : list nat) :
  (forall i, In i l -> (i < n)%nat) ->
  list_sum (map (fun i => (S n - 1 - i)%nat) l)
  = (list_sum (map (fun i => (n - 1 - i)%nat) l) + length l)%nat.
Proof.
  induction l as [| x l IH]; intros H; [reflexivity |].
  cbn [map length]. rewrite !list_sum_cons.
  rewrite IH by (intros i Hi; apply H; now right).
  specialize (H x (or_introl eq_refl)). lia.
Qed.

(** The number of pairs of [n] objects. *)
Lemma pairs_count (n : nat) :
  (2 * list_sum (map (fun i => (n - 1 - i)%nat) (seq 0 n)) = n * (n - 1))%nat.
Proof.
  induction n as [| n IH]; [reflexivity |].
  rewrite seq_S, map_app, list_sum_app. cbn [map Nat.add].
  rewrite list_sum_cons.
  rewrite list_sum_shift by (intros i Hi; apply in_seq in Hi; lia).
  rewrite length_seq. change (list_sum []) with 0%nat.
  set (T := list_sum (map (fun i => (n - 1 - i)%nat) (seq 0 n))) in *.
  destruct n as [| m]; [simpl in *; lia |].
  replace (S (S m) - 1)%nat with (S m) by lia.
  replace (S m - 1)%nat with m in IH by lia. nia.
Qed.

Lemma loopSamples_length (annulusRadians : float * float)
  (means : list (float * float)) (groups : GroupView) :
  length means = length groups ->
  (2 * length (loopSamples annulusRadians means groups)
   <= length groups * (length groups - 1))%nat.
Proof.
  intros L. rewrite <- pairs_count. apply Nat.mul_le_mono_l.
  unfold loopSamples, range. apply flat_map_length_le.
  intros obj1 _.
  rewrite (flat_map_length_le _ (fun _ => 1%nat))
    by (intros; apply pairSample_length).
  pose proof (annulusIndices_length annulusRadians means obj1) as H.
  rewrite L in H.
  assert (E : forall l : list nat, list_sum (map (fun _ => 1%nat) l) = length l)
    by (induction l; simpl; congruence).
  rewrite E. exact H.
Qed.

Lemma stdR_nonneg (l : list R) : 0 <= stdR l.
Proof. unfold stdR. apply sqrt_pos. Qed.

Lemma loopSamples_nonneg (annulusRadians : float * float)
  (means : list (float * float)) (groups : GroupView) (x : float) :
  In x (loopSamples annulusRadians means groups) ->
  exists r, x = Fin r /\ 0 <= r.
Proof.
  unfold loopSamples. intros H. apply in_flat_map in H.
  destruct H as [obj1 [_ H]]. apply in_flat_map in H.
  destruct H as [obj2 [_ H]]. unfold pairSample in H.
  destruct (finiteValues _) as [| d ds]; [contradiction |].
  destruct H as [<- | []]. eexists. split; [reflexivity | apply stdR_nonneg].
Qed.

(** X21.  [calcAMx] returns, with at most one sample per pair of kept
    groups, [n * (n - 1) / 2] for [n] kept groups, and every sample is a
    number that is not negative. *)
Theorem calcAMx_samples_count_and_sign
  (averageCoord : list (float * float) -> float * float)
  (groupView : GroupView) (D width : float)
  (magRange : option (float * float)) :
  let kept := where_ (magInRange (magRangeOrDefault magRange)) groupView in
  exists s,
    calcAMx averageCoord groupView D width magRange = Ok s
    /\ (2 * length (AMx s) <= length kept * (length kept - 1))%nat
    /\ (forall x, In x (AMx s) -> exists r, x = Fin r /\ 0 <= r).
Proof.
  intros kept. eexists. split; [apply calcAMx_result |].
  cbn [AMx]. fold kept. split.
  - rewrite length_map. apply loopSamples_length.
    unfold meanPositions. now rewrite length_map.
  - intros x Hx. apply in_map_iff in Hx. destruct Hx as [y [<- Hy]].
    apply loopSamples_nonneg in Hy. destruct Hy as [r [-> Hr]].
    rewrite radiansToMilliarcsec_Fin. eexists. split; [reflexivity |].
    pose proof PI_RGT_0.
    assert (0 < 180 / PI) by (apply Rdiv_lt_0_compat; lra). nra.
Qed.

(** The sample of the two stars. *)
Lemma calcAMx_samples_count_and_sign_witness :
  exists s,
    calcAMx firstCoord twoStars (Fin 5) (Fin 2) None = Ok s
    /\ exists r, Fin 0 = Fin r /\ 0 <= r.
Proof.
  destruct (calcAMx_samples_count_and_sign
              firstCoord twoStars (Fin 5) (Fin 2) None) as [s [E [_ H]]].
  exists s. split; [exact E |]. apply H.
  rewrite twoStars_result in E. injection E as <-. now left.
Defined.


Lemma length_zero_nil {A} (l : list A) : length l = 0%nat -> l = [].
Proof. destruct l; [reflexivity | discriminate]. Qed.

Lemma where_from_all_false (i : nat) (mask : list bool) :
  (forall b, In b mask -> b = false) -> where_from i mask = [].
Proof.
  revert i. induction mask as [| b mask IH]; intros i H; simpl; [reflexivity |].
  rewrite (H b (or_introl eq_refl)). apply IH. intros; apply H; now right.
Qed.

(** An annulus of no width selects nothing. *)
Lemma inAnnulus_no_width (d w : R) (dist : float) :
  w <= 0 ->
  inAnnulus (arcminToRadians2 (annulusOf (Fin d) (Fin w))) dist = false.
Proof.
  intros Hw. destruct (inAnnulus _ dist) eqn:E; [| reflexivity].
  unfold arcminToRadians2 in E. rewrite annulusOf_Fin in E. cbn [fst snd] in E.
  rewrite !arcminToRadians_Fin in E. apply inAnnulus_Fin in E.
  destruct E as [x [_ [H1 H2]]]. pose proof PI_RGT_0. nra.
Qed.

Lemma loopSamples_no_indices (annulusRadians : float * float)
  (means : list (float * float)) (groups : GroupView) :
  (forall obj1, annulusIndices annulusRadians means obj1 = []) ->
  loopSamples annulusRadians means groups = [].
Proof.
  intros H. unfold loopSamples.
  induction (range (length groups)) as [| obj1 l IH]; simpl; [reflexivity |].
  now rewrite H, IH.
Qed.

(** X22.  [calcAMx] returns an empty list of samples, and does not
    raise, when fewer than two groups pass the magnitude test (an empty
    view included) and when the width of the annulus is zero or
    negative. *)
Theorem calcAMx_no_sample
  (averageCoord : list (float * float) -> float * float)
  (groupView : GroupView) (D width : float)
  (magRange : option (float * float)) :
  let kept := where_ (magInRange (magRangeOrDefault magRange)) groupView in
  (length kept <= 1)%nat
  \/ (exists d w : R, D = Fin d /\ width = Fin w /\ w <= 0) ->
  exists s,
    calcAMx averageCoord groupView D width magRange = Ok s /\ AMx s = [].
Proof.
  intros kept H. eexists. split; [apply calcAMx_result |].
  cbn [AMx]. fold kept. destruct H as [H | [d [w [-> [-> Hw]]]]].
  - rewrite (length_zero_nil (loopSamples _ _ kept)); [reflexivity |].
    pose proof (loopSamples_length
                  (arcminToRadians2 (annulusOf D width))
                  (meanPositions averageCoord kept) kept) as Hl.
    assert (Lm : length (meanPositions averageCoord kept) = length kept)
      by (unfold meanPositions; now rewrite length_map).
    specialize (Hl Lm).
    destruct (length kept) as [| [| k]]; simpl in Hl; lia.
  - rewrite loopSamples_no_indices; [reflexivity |].
    intros obj1. unfold annulusIndices, objectsInAnnulus, np_where.
    apply where_from_all_false. intros b Hb. apply in_map_iff in Hb.
    destruct Hb as [dist [<- _]]. now apply inAnnulus_no_width.
Qed.

(** The empty view, and the two stars with an annulus of width 0. *)
Lemma calcAMx_no_sample_witness :
  (exists s, calcAMx firstCoord [] (Fin 5) (Fin 2) None = Ok s /\ AMx s = [])
  /\ (exists s, calcAMx firstCoord twoStars (Fin 5) (Fin 0) None = Ok s
                /\ AMx s = []).
Proof.
  split.
  - apply (calcAMx_no_sample firstCoord [] (Fin 5) (Fin 2) None).
    left. simpl. lia.
  - apply (calcAMx_no_sample firstCoord twoStars (Fin 5) (Fin 0) None).
    right. exists 5, 0. repeat split. lra.
Defined.

(** X23.  The result of [calcAMx] depends on the view only through the
    groups that pass the magnitude test: two views with the same such
    groups give the same result, and so does the view of these groups
    alone. *)
Theorem calcAMx_depends_on_kept_groups
  (averageCoord : list (float * float) -> float * float)
  (groupView groupView' : GroupView) (D width : float)
  (magRange : option (float * float)) :
  let test := magInRange (magRangeOrDefault magRange) in
  (where_ test groupView = where_ test groupView' ->
   calcAMx averageCoord groupView D width magRange
   = calcAMx averageCoord groupView' D width magRange)
  /\ calcAMx averageCoord (where_ test groupView) D width magRange
     = calcAMx averageCoord groupView D width magRange.
Proof.
  intros test. split.
  - intros E. rewrite !calcAMx_result. cbv zeta. fold test. now rewrite E.
  - rewrite !calcAMx_result. cbv zeta. fold test.
    assert (E : where_ test (where_ test groupView) = where_ test groupView).
    { unfold where_. induction groupView as [| g gv IH]; simpl; [reflexivity |].
      destruct (test g) eqn:Eg; simpl; rewrite ?Eg, IH; reflexivity. }
    now rewrite E.
Qed.

(** The two stars, with a star of magnitude 25 put between them. *)
Lemma calcAMx_depends_on_kept_groups_witness :
  calcAMx firstCoord
          [starA; [mkRow 3 1 (Fin 1) (Fin 1) (Fin 25)]; starB]
          (Fin 5) (Fin 2) None
  = calcAMx firstCoord twoStars (Fin 5) (Fin 2) None.
Proof.
  apply (proj1 (calcAMx_depends_on_kept_groups
                  firstCoord
                  [starA; [mkRow 3 1 (Fin 1) (Fin 1) (Fin 25)]; starB]
                  twoStars (Fin 5) (Fin 2) None)).
  rewrite twoStars_kept. unfold where_. cbn [List.filter].
  rewrite (stars_magInRange starA eq_refl), (stars_magInRange starB eq_refl).
  replace (magInRange (magRangeOrDefault None)
                      [mkRow 3 1 (Fin 1) (Fin 1) (Fin 25)]) with false;
    [reflexivity |].
  rewrite magInRange_median.
  change (finiteValues (magnitudes [mkRow 3 1 (Fin 1) (Fin 1) (Fin 25)]))
    with [25]. cbv beta iota zeta.
  replace (medianR [25]) with 25 by (unfold medianR; simpl; reflexivity).
  cbn [magRangeOrDefault fst snd].
  rewrite (proj2 (flt_Fin_false 25 (43 / 2))) by lra.
  now rewrite andb_false_r.
Defined.


(** *** A group paired with itself *)

Lemma stdR_all_zero (l : list R) :
  l <> [] -> (forall x, In x l -> x = 0) -> stdR l = 0.
Proof.
  intros Hne H0.
  assert (Hm : meanR l = 0).
  { pose proof (meanR_bounds l 0 0 Hne) as Hb.
    assert (forall x, In x l -> 0 <= x <= 0)
      by (intros x Hx; rewrite (H0 x Hx); lra).
    specialize (Hb H). lra. }
  unfold stdR. rewrite Hm.
  assert (Hs : meanR (map (fun x => Rabs (x - 0) * Rabs (x - 0)) l) = 0).
  { pose proof (meanR_bounds (map (fun x => Rabs (x - 0) * Rabs (x - 0)) l)
                             0 0) as Hb.
    assert (Hne' : map (fun x => Rabs (x - 0) * Rabs (x - 0)) l <> [])
      by (destruct l; [contradiction | discriminate]).
    assert (forall y, In y (map (fun x => Rabs (x - 0) * Rabs (x - 0)) l) ->
                      0 <= y <= 0).
    { intros y Hy. apply in_map_iff in Hy. destruct Hy as [x [<- Hx]].
      rewrite (H0 x Hx), Rminus_diag, Rabs_R0. lra. }
    specialize (Hb Hne' H). lra. }
  rewrite Hs. apply sqrt_0.
Qed.

Lemma finiteValues_all_zero (l : list float) :
  (forall d, In d l -> d = Fin 0) ->
  length (finiteValues l) = length l
  /\ forall x, In x (finiteValues l) -> x = 0.
Proof.
  induction l as [| d l IH]; intros H; [split; [reflexivity | contradiction] |].
  rewrite (H d (or_introl eq_refl)). cbn [finiteValues flat_map app length].
  destruct (IH (fun y Hy => H y (or_intror Hy))) as [L Hz].
  fold (finiteValues l). split; [now rewrite L |].
  intros x [<- | Hx]; [reflexivity | now apply Hz].
Qed.

Lemma column_nth {A} (key : SourceRecord -> A) (g : Catalog)
  (i : nat) (r : SourceRecord) (d : A) :
  nth_error g i = Some r -> nth i (get key g) d = key r.
Proof.
  intros H. apply nth_error_nth. unfold get. now rewrite nth_error_map, H.
Qed.

(** The distances of a group to itself, when none of its visits is
    listed twice, are those of each row to itself. *)
Lemma pairDistances_self (g : Catalog) (d : float) :
  List.NoDup (get visit g) -> In d (pairDistances g g) -> d = Fin 0.
Proof.
  intros Hnd Hd. unfold pairDistances in Hd. apply in_map_iff in Hd.
  destruct Hd as [[i j] [<- Hp]].
  pose proof (pairDistance_selected _ _ _ _ _ _ _ Hp)
    as [a1 [b1 [a2 [b2 [E1 [E2 [E3 E4]]]]]]].
  apply matchedIndexPairs_In in Hp. destruct Hp as [[v [Hv1 Hv2]] _].
  assert (i = j).
  { apply (proj1 (NoDup_nth_error (get visit g)) Hnd).
    - apply nth_error_Some. congruence.
    - congruence. }
  subst j. cbn [fst snd] in *. unfold pairDistance. cbn [fst snd].
  rewrite E1, E2. apply sphDist_same.
Qed.

Lemma pairDistances_self_nonempty (g : Catalog) (r : SourceRecord) :
  In r g -> np_isfinite (coord_ra r) = true ->
  np_isfinite (coord_dec r) = true ->
  pairDistances g g <> [].
Proof.
  intros Hr Hra Hdec. apply In_nth_error in Hr. destruct Hr as [i Hi].
  assert (Hin : In (i, i) (matchedIndexPairs
                             (get visit g) (get coord_ra g) (get coord_dec g)
                             (get visit g) (get coord_ra g) (get coord_dec g))).
  { apply matchedIndexPairs_In.
    rewrite (column_nth coord_ra g i r NaN Hi),
      (column_nth coord_dec g i r NaN Hi).
    split; [| auto]. exists (visit r).
    unfold get. rewrite nth_error_map, Hi. auto. }
  unfold pairDistances. intros E.
  apply (in_map (pairDistance (get coord_ra g) (get coord_dec g)
                              (get coord_ra g) (get coord_dec g))) in Hin.
  rewrite E in Hin. contradiction.
Qed.

Lemma pairSample_self (g : Catalog) (r : SourceRecord) :
  List.NoDup (get visit g) ->
  In r g -> np_isfinite (coord_ra r) = true ->
  np_isfinite (coord_dec r) = true ->
  pairSample g g = [Fin 0].
Proof.
  intros Hnd Hr Hra Hdec. unfold pairSample.
  pose proof (pairDistances_self_nonempty g r Hr Hra Hdec) as Hne.
  destruct (finiteValues_all_zero (pairDistances g g)
              (fun d => pairDistances_self g d Hnd)) as [L Hz].
  destruct (finiteValues (pairDistances g g)) as [| x zs] eqn:E.
  - exfalso. apply Hne, length_zero_nil. now rewrite <- L.
  - rewrite stdR_all_zero; [reflexivity | discriminate | exact Hz].
Qed.

(** The samples of two groups whose mean positions pass the annulus
    test: those of the first group paired with itself. *)
Lemma loopSamples_two_groups (annulusRadians : float * float)
  (m0 m1 : float * float) (g0 g1 : Catalog) :
  inAnnulus annulusRadians (sphDist (fst m0) (snd m0) (fst m1) (snd m1))
  = true ->
  loopSamples annulusRadians [m0; m1] [g0; g1] = pairSample g0 g0.
Proof.
  intros H. unfold loopSamples, annulusIndices, objectsInAnnulus.
  cbn [length range seq flat_map map fst snd nth skipn Nat.add
       sphDist_array combine].
  rewrite H. cbn [np_where where_from flat_map nth app].
  now rewrite !app_nil_r.
Qed.

(** X24.  When exactly two groups pass the magnitude test and their
    mean positions pass the annulus test, the distances [calcAMx] uses
    are those of the first group to itself, the index of the second
    group being counted from the object after the first: the rows of
    the second group have no part in the result, and when no visit is
    listed twice in the first group, which has a row with finite
    coordinates, the result is the single sample 0. *)
Theorem calcAMx_two_groups_pair_first_with_itself
  (averageCoord : list (float * float) -> float * float)
  (groupView : GroupView) (D width : float)
  (magRange : option (float * float)) (g0 g1 : Catalog) :
  let m0 := averageCoord (combine (get coord_ra g0) (get coord_dec g0)) in
  let m1 := averageCoord (combine (get coord_ra g1) (get coord_dec g1)) in
  where_ (magInRange (magRangeOrDefault magRange)) groupView = [g0; g1] ->
  inAnnulus (arcminToRadians2 (annulusOf D width))
            (sphDist (fst m0) (snd m0) (fst m1) (snd m1)) = true ->
  exists s,
    calcAMx averageCoord groupView D width magRange = Ok s
    /\ AMx s = map radiansToMilliarcsec (pairSample g0 g0)
    /\ (List.NoDup (get visit g0) ->
        (exists r, In r g0 /\ np_isfinite (coord_ra r) = true
                   /\ np_isfinite (coord_dec r) = true) ->
        AMx s = [Fin 0]).
Proof.
  intros m0 m1 Hkept Hann. eexists. split; [apply calcAMx_result |].
  cbn [AMx]. rewrite Hkept. cbn [meanPositions map]. fold m0 m1.
  rewrite (loopSamples_two_groups _ m0 m1 g0 g1 Hann).
  split; [reflexivity |].
  intros Hnd [r [Hr [Hra Hdec]]].
  rewrite (pairSample_self g0 r Hnd Hr Hra Hdec). cbn [map].
  rewrite radiansToMilliarcsec_Fin. f_equal. f_equal. ring.
Qed.

(** The two stars. *)
Lemma calcAMx_two_groups_pair_first_with_itself_witness :
  exists s,
    calcAMx firstCoord twoStars (Fin 5) (Fin 2) None = Ok s
    /\ AMx s = [Fin 0].
Proof.
  pose proof five_arcmin_bounds as Hb.
  destruct (calcAMx_two_groups_pair_first_with_itself
              firstCoord twoStars (Fin 5) (Fin 2) None starA starB
              twoStars_kept) as [s [E [_ H]]].
  - change (firstCoord (combine (get coord_ra starA) (get coord_dec starA)))
      with (Fin 0, Fin 0).
    change (firstCoord (combine (get coord_ra starB) (get coord_dec starB)))
      with (Fin (PI / 2160), Fin 0).
    cbn [fst snd]. rewrite sphDist_equator by (rewrite Rabs_left; lra).
    unfold arcminToRadians2. rewrite annulusOf_Fin. cbn [fst snd].
    rewrite !arcminToRadians_Fin. apply inAnnulus_Fin.
    eexists. split; [reflexivity |]. rewrite Rabs_left by lra. lra.
  - exists s. split; [exact E |]. apply H.
    + unfold starA. cbn [get map visit mkRow].
      repeat constructor; simpl; intuition discriminate.
    + exists (mkRow 1 1 (Fin 0) (Fin 0) (Fin 20)).
      split; [now left | split; reflexivity].
Defined.

End AMxMore.

(** ** calcAMx: the pairs the annulus test selects *)

Module AMxPairs.
Import Float Py NumPy CalcSrd Spec FloatFacts PyFacts NumPyFacts.
Import MedianFacts MatchVisitFacts SphDistFacts AnnulusFacts AMxFacts.
Import MatchVisitMore AMxMore.
Local Open Scope R_scope.

(** The test of the code on an annulus with two numbers for bounds is
    the half-open test. *)
Lemma inAnnulus_inHalfOpen (lower upper : R) (d : float) :
  inAnnulus (Fin lower, Fin upper) d = inHalfOpen lower upper d.
Proof. destruct d as [x | [|] |]; reflexivity. Qed.

Lemma inHalfOpen_true (lower upper : R) (d : float) :
  inHalfOpen lower upper d = true
  <-> exists sep, d = Fin sep /\ lower <= sep < upper.
Proof. rewrite <- inAnnulus_inHalfOpen. apply inAnnulus_Fin. Qed.

(** [np.where] on a mask computed from consecutive positions. *)
Lemma where_from_seq (test : nat -> bool) (i s n : nat) :
  where_from i (map test (seq s n))
  = map (fun j => (i + (j - s))%nat) (List.filter test (seq s n)).
Proof.
  revert i s. induction n as [| n IH]; intros i s; [reflexivity |].
  cbn [seq map where_from List.filter].
  assert (E : where_from (S i) (map test (seq (S s) n))
              = map (fun j => (i + (j - s))%nat)
                    (List.filter test (seq (S s) n))).
  { rewrite IH. apply map_ext_in. intros j Hj.
    apply filter_In in Hj. destruct Hj as [Hj _]. apply in_seq in Hj. lia. }
  destruct (test s); cbn [map]; rewrite E; [| reflexivity].
  f_equal. lia.
Qed.

Lemma nth_error_seq_lt (s n k : nat) :
  nth_error (seq s n) k = if (k <? n)%nat then Some (s + k)%nat else None.
Proof.
  destruct (Nat.ltb_spec k n) as [H | H].
  - rewrite (nth_error_nth' _ 0%nat) by now rewrite length_seq.
    now rewrite seq_nth.
  - apply nth_error_None. now rewrite length_seq.
Qed.

(** The separations [calcAMx] computes for [obj1]. *)
Lemma sphDist_array_separation (means : list (float * float)) (obj1 : nat) :
  sphDist_array (nth obj1 (map fst means) NaN) (nth obj1 (map snd means) NaN)
                (skipn (obj1 + 1) (map fst means))
                (skipn (obj1 + 1) (map snd means))
  = map (separation means obj1)
        (seq (obj1 + 1) (length means - (obj1 + 1))).
Proof.
  apply nth_error_ext. intros k.
  rewrite sphDist_array_nth by now rewrite !length_map.
  rewrite nth_error_map, nth_error_seq_lt, length_map.
  rewrite !(fun n => map_nth fst means (NaN, NaN) n : nth n (map fst means) NaN = _).
  rewrite !(fun n => map_nth snd means (NaN, NaN) n : nth n (map snd means) NaN = _).
  destruct (Nat.ltb_spec (obj1 + 1 + k) (length means)) as [H | H];
    destruct (Nat.ltb_spec k (length means - (obj1 + 1))) as [H' | H'];
    try lia; reflexivity.
Qed.

Lemma annulusIndices_separation (lower upper : R)
  (means : list (float * float)) (obj1 : nat) :
  annulusIndices (Fin lower, Fin upper) means obj1
  = map (fun j => (j - (obj1 + 1))%nat)
        (List.filter (fun j => inHalfOpen lower upper (separation means obj1 j))
                     (seq (obj1 + 1) (length means - (obj1 + 1)))).
Proof.
  unfold annulusIndices, objectsInAnnulus, np_where.
  rewrite sphDist_array_separation, map_map.
  rewrite (map_ext _ (fun j => inHalfOpen lower upper (separation means obj1 j)))
    by (intros j; apply inAnnulus_inHalfOpen).
  apply where_from_seq.
Qed.

Lemma flat_map_of_map {A B C} (f : B -> list C) (g : A -> B) (l : list A) :
  flat_map f (map g l) = flat_map (fun x => f (g x)) l.
Proof. induction l as [| x l IH]; simpl; [reflexivity | now rewrite IH]. Qed.

Lemma flat_map_filter_flat_map {A B C} (f : B -> list C) (t : B -> bool)
  (h : A -> list B) (l : list A) :
  flat_map f (List.filter t (flat_map h l))
  = flat_map (fun x => flat_map f (List.filter t (h x))) l.
Proof.
  induction l as [| x l IH]; simpl; [reflexivity |].
  now rewrite filter_app, flat_map_app, IH.
Qed.

(** The loops of [calcAMx] run their body once for each pair of groups
    that the half-open test selects, in order, on the first group of the
    pair and the group at the index counted from the object after it. *)
Lemma loopSamples_selectedPairs (lower upper : R)
  (means : list (float * float)) (groups : GroupView) :
  length means = length groups ->
  loopSamples (Fin lower, Fin upper) means groups
  = flat_map (fun p => pairSample (nth (fst p) groups [])
                                  (nth (snd p - fst p - 1) groups []))
             (selectedPairs lower upper means).
Proof.
  intros L. unfold loopSamples, selectedPairs, laterPairs, range.
  rewrite flat_map_filter_flat_map, L. apply flat_map_ext. intros i.
  rewrite annulusIndices_separation, flat_map_of_map, L.
  rewrite filter_map_swap, flat_map_of_map. cbn [fst snd].
  apply flat_map_ext. intros j. do 2 f_equal. lia.
Qed.

Lemma selectedPairs_In (lower upper : R) (means : list (float * float))
  (i j : nat) :
  In (i, j) (selectedPairs lower upper means)
  <-> (i < j < length means)%nat
      /\ exists sep, separation means i j = Fin sep /\ lower <= sep < upper.
Proof.
  unfold selectedPairs, laterPairs.
  rewrite filter_In, in_flat_map. cbn [fst snd]. rewrite inHalfOpen_true.
  split.
  - intros [[i' [Hi' Hp]] Hs]. apply in_map_iff in Hp.
    destruct Hp as [j' [E Hj']]. injection E as -> ->.
    apply in_seq in Hi', Hj'. split; [lia | exact Hs].
  - intros [Hij Hs]. split; [| exact Hs].
    exists i. split; [apply in_seq; lia |].
    apply in_map. apply in_seq. lia.
Qed.

Lemma selectedPairs_two (lower upper : R) (m0 m1 : float * float) :
  selectedPairs lower upper [m0; m1]
  = if inHalfOpen lower upper (separation [m0; m1] 0 1)
    then [(0, 1)%nat] else [].
Proof. reflexivity. Qed.

(** The shared-visit distances of two groups are numbers. *)
Lemma pairDistances_Fin (g1 g2 : Catalog) (d : float) :
  In d (pairDistances g1 g2) -> exists x, d = Fin x.
Proof.
  unfold pairDistances. intros Hd. apply in_map_iff in Hd.
  destruct Hd as [p [<- Hp]].
  destruct (pairDistance_selected _ _ _ _ _ _ _ Hp)
    as [a1 [b1 [a2 [b2 [E1 [E2 [E3 E4]]]]]]].
  unfold pairDistance. rewrite E1, E2, E3, E4, sphDist_Fin. eauto.
Qed.

Lemma finiteValues_nonempty (l : list float) :
  l <> [] -> (forall d, In d l -> exists x, d = Fin x) ->
  finiteValues l <> [].
Proof.
  destruct l as [| d l]; [contradiction |]. intros _ H.
  destruct (H d (or_introl eq_refl)) as [x ->]. discriminate.
Qed.

(** A group with a row of finite coordinates gives a sample when it is
    paired with itself. *)
Lemma pairSample_self_nonempty (g : Catalog) :
  (exists r, In r g /\ np_isfinite (coord_ra r) = true
             /\ np_isfinite (coord_dec r) = true) ->
  pairSample g g <> [].
Proof.
  intros [r [Hr [Hra Hdec]]]. unfold pairSample.
  pose proof (finiteValues_nonempty (pairDistances g g)
                (pairDistances_self_nonempty g r Hr Hra Hdec)
                (pairDistances_Fin g g)) as Hne.
  destruct (finiteValues (pairDistances g g)); [contradiction | discriminate].
Qed.

(** C10.  The annulus test of [calcAMx] is half-open.  For a distance
    [D] and a width [width] in arcminutes the annulus is the pair
    [D - width/2], [D + width/2], in radians [lower] and [upper], and
    the two loops of [calcAMx] run their body once for each pair
    [i < j] of kept groups, in order, whose mean separation [sep] is a
    number with [lower <= sep < upper], and for no other pair: a pair
    whose separation equals [upper] is not selected, and one whose
    separation equals [lower] is selected when the width is positive.
    (The body then reads the second group at the index [j - i - 1].)
    On two kept groups, the first with a row of finite coordinates,
    [calcAMx] returns a sample exactly when the separation of the two
    mean positions satisfies [lower <= sep < upper]. *)
Theorem calcAMx_annulus_half_open
  (averageCoord : list (float * float) -> float * float)
  (groupView : GroupView) (D width : R)
  (magRange : option (float * float)) :
  let kept := where_ (magInRange (magRangeOrDefault magRange)) groupView in
  let means := meanPositions averageCoord kept in
  let lower := (D - width / 2) / 60 * (PI / 180) in
  let upper := (D + width / 2) / 60 * (PI / 180) in
  exists s,
    calcAMx averageCoord groupView (Fin D) (Fin width) magRange = Ok s
    /\ annulus s = (Fin (D - width / 2), Fin (D + width / 2))
    /\ arcminToRadians2 (annulus s) = (Fin lower, Fin upper)
    /\ AMx s
       = map radiansToMilliarcsec
             (flat_map (fun p => pairSample (nth (fst p) kept [])
                                            (nth (snd p - fst p - 1) kept []))
                       (selectedPairs lower upper means))
    /\ (forall i j,
           In (i, j) (selectedPairs lower upper means)
           <-> (i < j < length kept)%nat
               /\ exists sep, separation means i j = Fin sep
                              /\ lower <= sep < upper)
    /\ (forall i j,
           separation means i j = Fin upper ->
           ~ In (i, j) (selectedPairs lower upper means))
    /\ (0 < width ->
        forall i j,
          (i < j < length kept)%nat ->
          separation means i j = Fin lower ->
          In (i, j) (selectedPairs lower upper means))
    /\ (forall g0 g1,
           kept = [g0; g1] ->
           (exists r, In r g0 /\ np_isfinite (coord_ra r) = true
                      /\ np_isfinite (coord_dec r) = true) ->
           (AMx s <> []
            <-> exists sep, separation means 0 1 = Fin sep
                            /\ lower <= sep < upper)).
Proof.
  intros kept means lower upper.
  assert (Lm : length means = length kept)
    by (unfold means, meanPositions; now rewrite length_map).
  assert (Ea : arcminToRadians2 (annulusOf (Fin D) (Fin width))
               = (Fin lower, Fin upper)).
  { unfold arcminToRadians2. rewrite annulusOf_Fin. cbn [fst snd].
    now rewrite !arcminToRadians_Fin. }
  eexists. split; [apply calcAMx_result |]. cbn [AMx annulus].
  fold kept means. rewrite Ea, (loopSamples_selectedPairs _ _ _ _ Lm).
  split; [apply annulusOf_Fin |].
  split; [reflexivity |].
  split; [reflexivity |].
  split; [intros i j; rewrite <- Lm; apply selectedPairs_In |].
  split; [| split].
  - intros i j E Hin. apply selectedPairs_In in Hin.
    destruct Hin as [_ [sep [E' Hs]]]. rewrite E in E'.
    injection E' as <-. lra.
  - intros Hw i j Hij E. apply selectedPairs_In. rewrite Lm.
    split; [exact Hij |]. exists lower. split; [exact E |].
    pose proof PI_RGT_0. unfold lower, upper. split; [lra |].
    apply Rmult_lt_compat_r; lra.
  - intros g0 g1 Hk Hrow.
    assert (Em : means = [averageCoord
                            (combine (get coord_ra g0) (get coord_dec g0));
                          averageCoord
                            (combine (get coord_ra g1) (get coord_dec g1))])
      by (unfold means; rewrite Hk; reflexivity).
    rewrite <- inHalfOpen_true, Em, selectedPairs_two, Hk.
    destruct (inHalfOpen lower upper (separation _ 0 1)).
    + cbn [flat_map fst snd Nat.sub nth app map]. rewrite app_nil_r.
      pose proof (pairSample_self_nonempty g0 Hrow) as Hne.
      split; [reflexivity |]. intros _ E.
      apply Hne. destruct (pairSample g0 g0); [reflexivity | discriminate].
    + cbn [flat_map map]. split; [intros H; now contradiction H |].
      discriminate.
Qed.

(** The theorem on the two stars, [D = 5] and [width = 2]. *)
Lemma calcAMx_annulus_half_open_witness :
  exists s,
    calcAMx firstCoord twoStars (Fin 5) (Fin 2) None = Ok s
    /\ annulus s = (Fin (5 - 2 / 2), Fin (5 + 2 / 2))
    /\ arcminToRadians2 (annulus s)
       = (Fin ((5 - 2 / 2) / 60 * (PI / 180)),
          Fin ((5 + 2 / 2) / 60 * (PI / 180))).
Proof.
  destruct (calcAMx_annulus_half_open firstCoord twoStars 5 2 None)
    as [s [H1 [H2 [H3 _]]]].
  exists s. split; [exact H1 | split; [exact H2 | exact H3]].
Defined.

(** *** The sample of a pair is taken from another pair *)

Lemma movingStars_kept :
  where_ (magInRange (magRangeOrDefault None)) movingStars = movingStars.
Proof.
  unfold where_, movingStars. cbn [List.filter].
  rewrite (stars_magInRange starA eq_refl), (stars_magInRange starC eq_refl).
  reflexivity.
Qed.

Lemma moved_bounds :
  0 < PI / 2160 /\ PI / 2160 + PI / 32400000 <= PI /\ 0 < PI / 32400000.
Proof. pose proof PI_RGT_0. lra. Qed.

Lemma starA_starC_distances :
  pairDistances starA starC
  = [Fin (PI / 2160); Fin (PI / 2160 + PI / 32400000)].
Proof.
  unfold pairDistances.
  change (matchedIndexPairs (get visit starA) (get coord_ra starA)
                            (get coord_dec starA) (get visit starC)
                            (get coord_ra starC) (get coord_dec starC))
    with [(0, 0); (1, 1)]%nat.
  unfold pairDistance.
  cbn [map fst snd nth get starA starC mkRow coord_ra coord_dec].
  pose proof moved_bounds as Hb.
  rewrite !sphDist_equator by (rewrite Rabs_left; lra).
  rewrite !Rabs_left by lra. do 2 f_equal; [lra | f_equal; lra].
Qed.

(** The standard deviation and the root mean square of two numbers. *)
Lemma stdR_two (a b : R) : a <= b -> stdR [a; b] = (b - a) / 2.
Proof.
  intros Hab. unfold stdR, meanR. cbn [fold_left length map INR].
  replace ((0 + a + b) / (1 + 1)) with ((a + b) / 2) by lra.
  replace (a - (a + b) / 2) with (- ((b - a) / 2)) by lra.
  replace (b - (a + b) / 2) with ((b - a) / 2) by lra.
  rewrite Rabs_Ropp, Rabs_right by lra.
  replace ((0 + (b - a) / 2 * ((b - a) / 2) + (b - a) / 2 * ((b - a) / 2))
           / (1 + 1))
    with ((b - a) / 2 * ((b - a) / 2)) by lra.
  apply sqrt_square. lra.
Qed.

Lemma rmsR_two_above (a b : R) : 0 <= a < b -> a < rmsR [a; b].
Proof.
  intros [Ha Hab]. unfold rmsR, meanR. cbn [fold_left length map INR].
  rewrite <- (sqrt_square a) at 1 by exact Ha.
  apply sqrt_lt_1_alt. split; [nra |]. nra.
Qed.

(** The mean position of two positions on the equator. *)
Lemma meanCoord_equator (a b : R) :
  meanCoord [(Fin a, Fin 0); (Fin b, Fin 0)] = (Fin ((a + b) / 2), Fin 0).
Proof.
  unfold meanCoord. cbn [map fst snd].
  change [Fin a; Fin b] with (map Fin [a; b]).
  change [Fin 0; Fin 0] with (map Fin [0; 0]).
  rewrite !np_mean_Fin by discriminate. cbn [fold_left length INR].
  f_equal; f_equal; lra.
Qed.

(** C1.  [calcAMx] on the two stars [starA] and [starC], with [D = 5]
    and [width = 2]: the two stars pass the magnitude test, their mean
    positions pass the annulus test, and they share the visits 1 and 2
    with finite coordinates, at distances of 5 arcmin and 5 arcmin plus
    20 milliarcseconds.  The root mean square of these distances is more
    than 300000 milliarcseconds and their standard deviation is 10
    milliarcseconds; the one sample [calcAMx] returns is 0, the sample
    of [starA] paired with itself, the index of the second star being
    counted from the object after the first.  The statement that the
    sample of a selected pair is the root mean square of its distances
    fails on this input. *)
Theorem calcAMx_sample_of_another_pair
  (averageCoord : list (float * float) -> float * float) :
  let m0 := averageCoord (combine (get coord_ra starA) (get coord_dec starA)) in
  let m1 := averageCoord (combine (get coord_ra starC) (get coord_dec starC)) in
  inAnnulus (arcminToRadians2 (annulusOf (Fin 5) (Fin 2)))
            (sphDist (fst m0) (snd m0) (fst m1) (snd m1)) = true ->
  calcAMx averageCoord movingStars (Fin 5) (Fin 2) None
  = Ok {| AMx := [Fin 0]; CalcSrd.D := Fin 5;
          annulus := (Fin (5 - 2 / 2), Fin (5 + 2 / 2));
          CalcSrd.magRange := (Fin 17, Fin (43 / 2)) |}
  /\ pairSample starA starA = [Fin 0]
  /\ finiteValues (pairDistances starA starC)
     = [PI / 2160; PI / 2160 + PI / 32400000]
  /\ radiansToMilliarcsec
       (Fin (stdR (finiteValues (pairDistances starA starC)))) = Fin 10
  /\ (exists r,
         radiansToMilliarcsec
           (Fin (rmsR (finiteValues (pairDistances starA starC)))) = Fin r
         /\ 300000 < r)
  /\ ~ rmsSampleStatement averageCoord movingStars (Fin 5) (Fin 2) None.
Proof.
  intros m0 m1 Hann. pose proof moved_bounds as Hb. pose proof PI_RGT_0 as Hpi.
  assert (Hself : pairSample starA starA = [Fin 0]).
  { apply (pairSample_self starA (mkRow 1 1 (Fin 0) (Fin 0) (Fin 20))).
    - unfold starA. cbn [get map visit mkRow].
      repeat constructor; simpl; intuition discriminate.
    - now left.
    - reflexivity.
    - reflexivity. }
  assert (Hres : calcAMx averageCoord movingStars (Fin 5) (Fin 2) None
                 = Ok {| AMx := [Fin 0]; CalcSrd.D := Fin 5;
                         annulus := (Fin (5 - 2 / 2), Fin (5 + 2 / 2));
                         CalcSrd.magRange := (Fin 17, Fin (43 / 2)) |}).
  { rewrite calcAMx_result. cbv zeta. rewrite movingStars_kept.
    unfold movingStars at 1 2. cbn [meanPositions map]. fold m0 m1.
    rewrite (loopSamples_two_groups _ m0 m1 starA starC Hann), Hself.
    rewrite annulusOf_Fin. cbn [map]. rewrite radiansToMilliarcsec_Fin.
    replace (0 * (180 / PI) * 3600 * 1000) with 0 by ring. reflexivity. }
  assert (Hfv : finiteValues (pairDistances starA starC)
                = [PI / 2160; PI / 2160 + PI / 32400000])
    by (rewrite starA_starC_distances; reflexivity).
  assert (Hrms : 300000
                 < rmsR [PI / 2160; PI / 2160 + PI / 32400000]
                   * (180 / PI) * 3600 * 1000).
  { pose proof (rmsR_two_above (PI / 2160) (PI / 2160 + PI / 32400000)
                               ltac:(lra)) as Hr.
    replace 300000 with (PI / 2160 * (180 / PI * 3600 * 1000))
      by (field; lra).
    rewrite !Rmult_assoc. apply Rmult_lt_compat_r; [| exact Hr].
    assert (0 < 180 / PI) by (apply Rdiv_lt_0_compat; lra). nra. }
  split; [exact Hres |]. split; [exact Hself |]. split; [exact Hfv |].
  rewrite Hfv. split; [| split].
  - rewrite stdR_two by lra. rewrite radiansToMilliarcsec_Fin. f_equal.
    field. lra.
  - eexists. split; [apply radiansToMilliarcsec_Fin | exact Hrms].
  - intros Hst. specialize (Hst _ Hres). cbv zeta in Hst.
    cbn [CalcSrd.magRange AMx annulus] in Hst.
    change (Fin 17, Fin (43 / 2)) with (magRangeOrDefault None) in Hst.
    rewrite movingStars_kept in Hst.
    specialize (Hst 0%nat 1%nat).
    unfold movingStars in Hst. cbn [meanPositions map nth length] in Hst.
    fold m0 m1 in Hst. rewrite <- annulusOf_Fin in Hst.
    rewrite Hfv, radiansToMilliarcsec_Fin in Hst.
    destruct (Hst ltac:(lia) Hann ltac:(discriminate)) as [E | []].
    inversion E as [E']. lra.
Qed.

(** The theorem for the averaging routine [meanCoord], which places the
    second star 5 arcmin and 10 milliarcseconds from the first. *)
Lemma calcAMx_sample_of_another_pair_witness :
  calcAMx meanCoord movingStars (Fin 5) (Fin 2) None
  = Ok {| AMx := [Fin 0]; CalcSrd.D := Fin 5;
          annulus := (Fin (5 - 2 / 2), Fin (5 + 2 / 2));
          CalcSrd.magRange := (Fin 17, Fin (43 / 2)) |}
  /\ radiansToMilliarcsec
       (Fin (stdR (finiteValues (pairDistances starA starC)))) = Fin 10.
Proof.
  pose proof moved_bounds as Hb.
  destruct (calcAMx_sample_of_another_pair meanCoord) as [H1 [_ [_ [H4 _]]]].
  - change (combine (get coord_ra starA) (get coord_dec starA))
      with [(Fin 0, Fin 0); (Fin 0, Fin 0)].
    change (combine (get coord_ra starC) (get coord_dec starC))
      with [(Fin (PI / 2160), Fin 0);
            (Fin (PI / 2160 + PI / 32400000), Fin 0)].
    rewrite !meanCoord_equator. cbn [fst snd].
    rewrite sphDist_equator by (rewrite Rabs_left; lra).
    unfold arcminToRadians2. rewrite annulusOf_Fin. cbn [fst snd].
    rewrite !arcminToRadians_Fin. apply inAnnulus_Fin.
    eexists. split; [reflexivity |]. rewrite Rabs_left by lra. lra.
  - split; [exact H1 | exact H4].
Defined.

End AMxPairs.

(** ** util.py: further properties *)

Module UtilMore.
Import stdpp.base stdpp.strings stdpp.gmap stdpp.pretty.
Import Stdlib.Strings.Ascii.
Import Util UtilFacts.

(** X25.  [getCcdKeyName] returns the first of ['ccd'], ['ccdnum'],
    ['camcol'] that is a key of the data id, and ['ccd'] when none is:
    its result is a key of the data id exactly when one of the three
    names is. *)
Theorem getCcdKeyName_first_present {V} (dataid : gmap string V) :
  In (getCcdKeyName dataid) possibleCcdFieldNames
  /\ (is_Some (dataid !! getCcdKeyName dataid)
      <-> exists name, In name possibleCcdFieldNames
                       /\ is_Some (dataid !! name))
  /\ (is_Some (dataid !! "ccd") -> getCcdKeyName dataid = "ccd")
  /\ (dataid !! "ccd" = None -> is_Some (dataid !! "ccdnum") ->
      getCcdKeyName dataid = "ccdnum")
  /\ (dataid !! "ccd" = None -> dataid !! "ccdnum" = None ->
      is_Some (dataid !! "camcol") -> getCcdKeyName dataid = "camcol")
  /\ (dataid !! "ccd" = None -> dataid !! "ccdnum" = None ->
      dataid !! "camcol" = None -> getCcdKeyName dataid = "ccd").
Proof.
  unfold getCcdKeyName, possibleCcdFieldNames. cbn [firstFieldName In].
  destruct (dataid !! "ccd") as [a |] eqn:E1;
    [| destruct (dataid !! "ccdnum") as [b |] eqn:E2;
       [| destruct (dataid !! "camcol") as [c |] eqn:E3]];
    rewrite ?E1, ?E2, ?E3;
    (split; [tauto |]); (split; [| repeat split; intros; trivial;
       try congruence;
       match goal with H : is_Some None |- _ => destruct H; discriminate end]).
  all: split.
  all: try (intros _; eexists; split; [| eauto]; tauto).
  all: try (intros; eauto).
  - destruct H as [x H]. discriminate H.
  - destruct H as [name [[<- | [<- | [<- | []]]] H]]; congruence.
Qed.

(** A data id with the key ['ccdnum'] and none of the other two. *)
Lemma getCcdKeyName_first_present_witness :
  getCcdKeyName (<["ccdnum" := 3%Z]> (<["visit" := 7%Z]> ∅)) = "ccdnum".
Proof.
  apply (proj1 (proj2 (proj2 (proj2
           (getCcdKeyName_first_present
              (<["ccdnum" := 3%Z]> (<["visit" := 7%Z]> ∅))))))).
  - reflexivity.
  - eexists. reflexivity.
Defined.

(** X26.  [getCcdKeyName] finds the detector key of every data id that
    [constructDataIds] builds with one of the names ['ccd'], ['ccdnum'],
    ['camcol']. *)
Theorem getCcdKeyName_constructDataIds (filter : string)
  (visits ccds : list Z) (ccdKeyName : string) (d : DataId) :
  In ccdKeyName possibleCcdFieldNames ->
  In d (constructDataIds filter visits ccds (Some ccdKeyName)) ->
  getCcdKeyName d = ccdKeyName.
Proof.
  intros Hk Hd. rewrite constructDataIds_list_prod in Hd.
  apply in_map_iff in Hd. destruct Hd as [[v c] [<- _]].
  cbn [default fst snd].
  destruct Hk as [<- | [<- | [<- | []]]]; reflexivity.
Qed.

(** The data ids of two visits and two detectors under ['camcol']. *)
Lemma getCcdKeyName_constructDataIds_witness :
  getCcdKeyName (dataId "r" "camcol" 200 11) = "camcol".
Proof.
  apply (getCcdKeyName_constructDataIds
           "r" [100; 200]%Z [10; 11]%Z "camcol").
  - right. right. now left.
  - right. right. right. now left.
Defined.


(** *** constructRunList *)

Lemma string_app_length (s t : string) :
  String.length (s +:+ t) = String.length s + String.length t.
Proof. induction s as [| c s IH]; simpl; [reflexivity | now rewrite IH]. Qed.

Lemma string_app_inv_tail (s1 s2 t : string) :
  s1 +:+ t = s2 +:+ t -> s1 = s2.
Proof.
  revert s2. induction s1 as [| c s1 IH]; intros [| c' s2] H; simpl in H.
  - reflexivity.
  - apply (f_equal String.length) in H.
    rewrite ?string_app_length in H. simpl in H.
    rewrite ?string_app_length in H. lia.
  - apply (f_equal String.length) in H.
    rewrite ?string_app_length in H. simpl in H.
    rewrite ?string_app_length in H. lia.
  - injection H as -> H. f_equal. now apply IH.
Qed.

(** The line of a visit. *)
Lemma runList_line_inj (ccdKeyName : string) (ccds : list Z) (v v' : Z) :
  "--id visit=" +:+ str v +:+ " " +:+ ccdKeyName +:+ "="
    +:+ join "^" (map str ccds)
  = "--id visit=" +:+ str v' +:+ " " +:+ ccdKeyName +:+ "="
      +:+ join "^" (map str ccds) ->
  v = v'.
Proof.
  intros H. apply (inj (String.app "--id visit=")) in H.
  apply string_app_inv_tail in H. now apply (inj pretty) in H.
Qed.

(** X27.  [constructRunList] returns one line per visit, in the order
    of the visits: the line of a visit [v] is ['--id visit='] followed
    by the numeral of [v], a space, the detector key, ['='] and the
    numerals of the detectors joined by ['^'].  Different visits have
    different lines, and the filter has no effect on the result. *)
Theorem constructRunList_lines (filter : string) (visits ccds : list Z)
  (ccdKeyName : option string) :
  let key := default "ccd" ccdKeyName in
  let runList := constructRunList filter visits ccds ccdKeyName in
  length runList = length visits
  /\ (forall i v,
         nth_error visits i = Some v ->
         nth_error runList i
         = Some ("--id visit=" +:+ str v +:+ " " +:+ key +:+ "="
                 +:+ join "^" (map str ccds)))
  /\ (List.NoDup visits -> List.NoDup runList)
  /\ (forall filter', constructRunList filter' visits ccds ccdKeyName
                      = runList).
Proof.
  intros key runList. unfold runList, constructRunList.
  replace (match ccdKeyName with Some k => k | None => "ccd" end)
    with key by (unfold key; now destruct ccdKeyName).
  split; [apply length_map | split; [| split; [| reflexivity]]].
  - intros i v Hv. now rewrite nth_error_map, Hv.
  - intros Hnd. apply NoDup_map_NoDup_ForallPairs; [| exact Hnd].
    intros v v' _ _ H. now apply runList_line_inj in H.
Qed.

(** The visits 100 and 200 with the detectors 10, 11 and 12. *)
Lemma constructRunList_lines_witness :
  nth_error (constructRunList "r" [100; 200]%Z [10; 11; 12]%Z None) 1
  = Some ("--id visit=" +:+ str 200 +:+ " " +:+ "ccd" +:+ "="
          +:+ join "^" (map str [10; 11; 12]%Z))
  /\ List.NoDup (constructRunList "r" [100; 200]%Z [10; 11; 12]%Z None).
Proof.
  pose proof (constructRunList_lines "r" [100; 200]%Z [10; 11; 12]%Z None)
    as [_ [H2 [H3 _]]].
  split.
  - exact (H2 1 200%Z eq_refl).
  - apply H3. repeat constructor; simpl; intuition discriminate.
Defined.

(** *** constructDataIds: different combinations, different data ids *)

Lemma dataId_inj (filter ccdKeyName : string) (v c v' c' : Z) :
  ccdKeyName <> "visit" -> ccdKeyName <> "filter" ->
  dataId filter ccdKeyName v c = dataId filter ccdKeyName v' c' ->
  v = v' /\ c = c'.
Proof.
  intros H1 H2 E.
  destruct (dataId_entries filter ccdKeyName v c H1 H2) as [Hv [_ [Hc _]]].
  destruct (dataId_entries filter ccdKeyName v' c' H1 H2) as [Hv' [_ [Hc' _]]].
  rewrite E in Hv, Hc. split; congruence.
Qed.

(** X28.  When no visit and no detector is listed twice, and the
    detector key is neither ['visit'] nor ['filter'], the data ids that
    [constructDataIds] returns are all different, and the visit and the
    detector of each can be read back from it. *)
Theorem constructDataIds_distinct (filter : string) (visits ccds : list Z)
  (ccdKeyName : option string) :
  let key := default "ccd" ccdKeyName in
  key <> "visit" -> key <> "filter" ->
  List.NoDup visits -> List.NoDup ccds ->
  List.NoDup (constructDataIds filter visits ccds ccdKeyName)
  /\ forall d, In d (constructDataIds filter visits ccds ccdKeyName) ->
     exists v c, In v visits /\ In c ccds
                 /\ d !! "visit" = Some (Int v) /\ d !! key = Some (Int c)
                 /\ d !! "filter" = Some (Str filter).
Proof.
  intros key H1 H2 Hv Hc. rewrite constructDataIds_list_prod. fold key. split.
  - apply NoDup_map_NoDup_ForallPairs.
    + intros [v c] [v' c'] _ _ E. cbn [fst snd] in E.
      apply dataId_inj in E; [| assumption | assumption].
      destruct E as [-> ->]. reflexivity.
    + now apply PyFacts.list_prod_NoDup.
  - intros d Hd. apply in_map_iff in Hd. destruct Hd as [[v c] [<- Hp]].
    apply in_prod_iff in Hp. destruct Hp as [Hiv Hic]. cbn [fst snd].
    destruct (dataId_entries filter key v c H1 H2) as [E1 [E2 [E3 _]]].
    exists v, c. auto.
Qed.

(** Two visits and two detectors under the default key. *)
Lemma constructDataIds_distinct_witness :
  List.NoDup (constructDataIds "r" [100; 200]%Z [10; 11]%Z None).
Proof.
  apply (constructDataIds_distinct "r" [100; 200]%Z [10; 11]%Z None).
  - discriminate.
  - discriminate.
  - repeat constructor; simpl; intuition discriminate.
  - repeat constructor; simpl; intuition discriminate.
Defined.

(** *** repoNameToPrefix *)

Lemma chars_app (s t : string) :
  String.list_ascii_of_string (s +:+ t)
  = String.list_ascii_of_string s ++ String.list_ascii_of_string t.
Proof. induction s as [| c s IH]; simpl; [reflexivity | now rewrite IH]. Qed.

Lemma replace_chars (old : ascii) (new s : string) (c : ascii) :
  In c (String.list_ascii_of_string (replace old new s)) ->
  In c (String.list_ascii_of_string new)
  \/ (In c (String.list_ascii_of_string s) /\ c <> old).
Proof.
  induction s as [| a s IH]; simpl; [tauto |].
  destruct (Ascii.eqb a old) eqn:E.
  - rewrite chars_app. intros H. apply in_app_or in H.
    destruct H as [H | H]; [now left |].
    destruct (IH H) as [H' | [H' Hn]]; [now left | right; tauto].
  - simpl. intros [<- | H].
    + right. split; [now left |]. intros ->.
      rewrite Ascii.eqb_refl in E. discriminate.
    + destruct (IH H) as [H' | [H' Hn]]; [now left | right; tauto].
Qed.

Lemma replace_length (old c : ascii) (s : string) :
  String.length (replace old (String c "") s) = String.length s.
Proof.
  induction s as [| a s IH]; [reflexivity |]. cbn [replace].
  destruct (Ascii.eqb a old); [rewrite string_app_length |];
    cbn [String.length]; rewrite IH; reflexivity.
Qed.

Lemma lstrip_length (chars : ascii -> bool) (s : string) :
  String.length (lstrip chars s) <= String.length s.
Proof.
  induction s as [| a s IH]; simpl; [lia |].
  destruct (chars a); simpl; lia.
Qed.

Lemma rstrip_length (chars : ascii -> bool) (s : string) :
  String.length (rstrip chars s) <= String.length s.
Proof.
  induction s as [| a s IH]; simpl; [lia |].
  destruct (rstrip chars s); [destruct (chars a) |]; simpl in *; lia.
Qed.

Lemma lstrip_id (chars : ascii -> bool) (s : string) :
  (forall c s', s = String c s' -> chars c = false) -> lstrip chars s = s.
Proof.
  destruct s as [| a s]; simpl; [reflexivity |].
  intros H. now rewrite (H a s eq_refl).
Qed.

Lemma rstrip_id (chars : ascii -> bool) (s : string) :
  (forall c, In c (String.list_ascii_of_string s) -> chars c = false) ->
  rstrip chars s = s.
Proof.
  induction s as [| a s IH]; simpl; [reflexivity |].
  intros H. rewrite IH by auto.
  destruct s; [| reflexivity]. now rewrite H by now left.
Qed.

Lemma replace_id (old : ascii) (new s : string) :
  (forall c, In c (String.list_ascii_of_string s) -> c <> old) ->
  replace old new s = s.
Proof.
  induction s as [| a s IH]; simpl; [reflexivity |].
  intros H. destruct (Ascii.eqb a old) eqn:E.
  - apply Ascii.eqb_eq in E. exfalso. apply (H a); auto.
  - f_equal. apply IH. auto.
Qed.

(** X29.  When the path separator is not the underscore, the prefix
    that [repoNameToPrefix] returns is a body followed by one
    underscore, where the body is no longer than the repository name
    and has no path separator in it.  A name that has no separator and
    does not start with a dot or a backslash is returned unchanged
    before the underscore.  With the separator ['/'], the five examples
    of the docstring hold. *)
Theorem repoNameToPrefix_no_separator (os_sep : ascii) (repo : string) :
  os_sep <> "_"%char ->
  (exists body,
      repoNameToPrefix os_sep repo = body +:+ "_"
      /\ String.length body <= String.length repo
      /\ forall c, In c (String.list_ascii_of_string body) -> c <> os_sep)
  /\ ((forall c, In c (String.list_ascii_of_string repo) -> c <> os_sep) ->
      (forall c s, repo = String c s -> backslash_dot c = false) ->
      repoNameToPrefix os_sep repo = repo +:+ "_")
  /\ repoNameToPrefix "/" "a/b/c" = "a_b_c_"
  /\ repoNameToPrefix "/" "/bar/foo/" = "bar_foo_"
  /\ repoNameToPrefix "/" "CFHT/output" = "CFHT_output_"
  /\ repoNameToPrefix "/" "./CFHT/output" = "CFHT_output_"
  /\ repoNameToPrefix "/" ".a/CFHT/output" = "a_CFHT_output_".
Proof.
  intros Hsep. split; [| split; [| repeat split]].
  - eexists. split; [reflexivity | split].
    + rewrite replace_length. unfold strip.
      etransitivity; [apply rstrip_length |].
      etransitivity; [apply lstrip_length |]. apply lstrip_length.
    + intros c Hc. apply replace_chars in Hc.
      destruct Hc as [[<- | []] | [_ Hn]]; [| exact Hn].
      intros E. apply Hsep. now symmetry.
  - intros Hno Hfirst. unfold repoNameToPrefix, strip.
    assert (Hb : forall c, In c (String.list_ascii_of_string repo) ->
                           Ascii.eqb os_sep c = false).
    { intros c Hc. apply Ascii.eqb_neq. intros E. apply (Hno c Hc).
      now symmetry. }
    rewrite (lstrip_id backslash_dot) by exact Hfirst.
    rewrite (lstrip_id (Ascii.eqb os_sep))
      by (intros c s ->; apply Hb; now left).
    rewrite rstrip_id by exact Hb.
    now rewrite replace_id by exact Hno.
Qed.

(** The name ['./CFHT/output'] with the separator ['/']. *)
Lemma repoNameToPrefix_no_separator_witness :
  exists body,
    repoNameToPrefix "/" "./CFHT/output" = body +:+ "_"
    /\ String.length body <= String.length "./CFHT/output"
    /\ forall c, In c (String.list_ascii_of_string body) -> c <> "/"%char.
Proof.
  apply (repoNameToPrefix_no_separator "/" "./CFHT/output").
  discriminate.
Defined.

End UtilMore.
